(** * foxglove-scene-panel: transform graph store and point-record decoder

    A shallow embedding of the class [TfStore] (module [./tfStore], whose
    text follows the type declarations in [sceneTypes.ts]) and of
    [parsePointCloud2] ([pointcloud.ts]), together with the properties of
    the two engines; then of the effects of the panel ([ScenePanel.tsx])
    that feed the two engines and build the scene from them, and of the
    height clamp of the 3D view ([ThreeScene.tsx]).

    Conventions of the embedding.
    - A JavaScript [number] is an IEEE-754 binary64 value: Rocq's primitive
      [float], whose [+ - * / sqrt] are the correctly rounded operations
      that JavaScript uses.  [a === b] on numbers is [PrimFloat.eqb].
    - [Map<string, FrameTransform>] is iterated by the code ([keys()],
      [values()]), so the two edge maps are association lists in insertion
      order ([JsMap]); the per-call caches, which are only read with [get]
      and written with [set], are [gmap]s; the in-progress [Set] is a [gset].
    - [Matrix4], [Quaternion] and [Vector3] come from the three.js
      dependency; module [Three] transcribes the methods the store calls.
    - [DataView] reads raise [RangeError] outside the view: the decoder
      lives in the [result] monad. *)

From Stdlib Require Import ZArith Ascii String PrimFloat FloatOps SpecFloat Uint63.
From Stdlib Require FloatAxioms.
From stdpp Require Import gmap strings list sorting.

Set Warnings "-inexact-float,-clear-no-such-hyp".

(** ** JavaScript numbers *)

Abbreviation number := float (only parsing).

(** [a !== b] on two numbers. *)
Definition strictNe (a b : number) : bool := negb (PrimFloat.eqb a b).

(** [Number.isFinite]. *)
Definition isFinite (x : number) : bool :=
  negb (PrimFloat.is_nan x) && negb (PrimFloat.is_infinity x).

(** The number denoted by an integer of absolute value below 2^53. *)
Definition ofZ (z : Z) : number :=
  let a := PrimFloat.of_uint63 (Uint63.of_Z (Z.abs z)) in
  if (z <? 0)%Z then PrimFloat.opp a else a.

(** A string is truthy when it is not empty. *)
Definition truthy (s : string) : bool := negb (String.eqb s "").

(** [frame.startsWith("/") ? frame.slice(1) : frame] behind the [!frame]
    guard; the same function is declared in both source files. *)
Definition normalizeFrame (frame : option string) : option string :=
  match frame with
  | None => None
  | Some f =>
      if negb (truthy f) then None
      else match f with
           | String "/"%char rest => Some rest
           | _ => Some f
           end
  end.

(** ** three.js: the methods of Matrix4, Quaternion and Vector3 in use *)

Module Three.

#[local] Open Scope float_scope.

Record Vector3 := mkVector3 { vx : number; vy : number; vz : number }.

Record Quaternion := mkQuaternion
  { qx : number; qy : number; qz : number; qw : number }.

(** [elements] in column-major order, [te_i] being [elements[i]]. *)
Record Matrix4 := mkMatrix4
  { te0 : number; te1 : number; te2 : number; te3 : number;
    te4 : number; te5 : number; te6 : number; te7 : number;
    te8 : number; te9 : number; te10 : number; te11 : number;
    te12 : number; te13 : number; te14 : number; te15 : number }.

Definition elements (m : Matrix4) : list number :=
  [te0 m; te1 m; te2 m; te3 m; te4 m; te5 m; te6 m; te7 m;
   te8 m; te9 m; te10 m; te11 m; te12 m; te13 m; te14 m; te15 m].

(** [new Matrix4()]. *)
Definition identity : Matrix4 :=
  mkMatrix4 1 0 0 0  0 1 0 0  0 0 1 0  0 0 0 1.

Definition zero : Matrix4 :=
  mkMatrix4 0 0 0 0  0 0 0 0  0 0 0 0  0 0 0 0.

(** [Quaternion.length]. *)
Definition qlength (q : Quaternion) : number :=
  PrimFloat.sqrt (qx q * qx q + qy q * qy q + qz q * qz q + qw q * qw q).

(** [Quaternion.normalize]: a zero length gives the identity rotation. *)
Definition normalize (q : Quaternion) : Quaternion :=
  let l := qlength q in
  if PrimFloat.eqb l 0 then mkQuaternion 0 0 0 1
  else
    let l := 1 / l in
    mkQuaternion (qx q * l) (qy q * l) (qz q * l) (qw q * l).

(** [Matrix4.compose(position, quaternion, scale)]. *)
Definition compose (position : Vector3) (quaternion : Quaternion)
    (scale : Vector3) : Matrix4 :=
  let x := qx quaternion in let y := qy quaternion in
  let z := qz quaternion in let w := qw quaternion in
  let x2 := x + x in let y2 := y + y in let z2 := z + z in
  let xx := x * x2 in let xy := x * y2 in let xz := x * z2 in
  let yy := y * y2 in let yz := y * z2 in let zz := z * z2 in
  let wx := w * x2 in let wy := w * y2 in let wz := w * z2 in
  let sx := vx scale in let sy := vy scale in let sz := vz scale in
  mkMatrix4
    ((1 - (yy + zz)) * sx) ((xy + wz) * sx) ((xz - wy) * sx) 0
    ((xy - wz) * sy) ((1 - (xx + zz)) * sy) ((yz + wx) * sy) 0
    ((xz + wy) * sz) ((yz - wx) * sz) ((1 - (xx + yy)) * sz) 0
    (vx position) (vy position) (vz position) 1.

(** [a.clone().multiply(b)], that is [multiplyMatrices(a, b)]. *)
Definition multiply (a b : Matrix4) : Matrix4 :=
  let a11 := te0 a in let a12 := te4 a in let a13 := te8 a in let a14 := te12 a in
  let a21 := te1 a in let a22 := te5 a in let a23 := te9 a in let a24 := te13 a in
  let a31 := te2 a in let a32 := te6 a in let a33 := te10 a in let a34 := te14 a in
  let a41 := te3 a in let a42 := te7 a in let a43 := te11 a in let a44 := te15 a in
  let b11 := te0 b in let b12 := te4 b in let b13 := te8 b in let b14 := te12 b in
  let b21 := te1 b in let b22 := te5 b in let b23 := te9 b in let b24 := te13 b in
  let b31 := te2 b in let b32 := te6 b in let b33 := te10 b in let b34 := te14 b in
  let b41 := te3 b in let b42 := te7 b in let b43 := te11 b in let b44 := te15 b in
  mkMatrix4
    (a11 * b11 + a12 * b21 + a13 * b31 + a14 * b41)
    (a21 * b11 + a22 * b21 + a23 * b31 + a24 * b41)
    (a31 * b11 + a32 * b21 + a33 * b31 + a34 * b41)
    (a41 * b11 + a42 * b21 + a43 * b31 + a44 * b41)
    (a11 * b12 + a12 * b22 + a13 * b32 + a14 * b42)
    (a21 * b12 + a22 * b22 + a23 * b32 + a24 * b42)
    (a31 * b12 + a32 * b22 + a33 * b32 + a34 * b42)
    (a41 * b12 + a42 * b22 + a43 * b32 + a44 * b42)
    (a11 * b13 + a12 * b23 + a13 * b33 + a14 * b43)
    (a21 * b13 + a22 * b23 + a23 * b33 + a24 * b43)
    (a31 * b13 + a32 * b23 + a33 * b33 + a34 * b43)
    (a41 * b13 + a42 * b23 + a43 * b33 + a44 * b43)
    (a11 * b14 + a12 * b24 + a13 * b34 + a14 * b44)
    (a21 * b14 + a22 * b24 + a23 * b34 + a24 * b44)
    (a31 * b14 + a32 * b24 + a33 * b34 + a34 * b44)
    (a41 * b14 + a42 * b24 + a43 * b34 + a44 * b44).

(** [m.clone().invert()]: cofactor expansion; a zero determinant gives the
    zero matrix. *)
Definition invert (m : Matrix4) : Matrix4 :=
  let n11 := te0 m in let n21 := te1 m in let n31 := te2 m in let n41 := te3 m in
  let n12 := te4 m in let n22 := te5 m in let n32 := te6 m in let n42 := te7 m in
  let n13 := te8 m in let n23 := te9 m in let n33 := te10 m in let n43 := te11 m in
  let n14 := te12 m in let n24 := te13 m in let n34 := te14 m in let n44 := te15 m in
  let t11 := n23 * n34 * n42 - n24 * n33 * n42 + n24 * n32 * n43
             - n22 * n34 * n43 - n23 * n32 * n44 + n22 * n33 * n44 in
  let t12 := n14 * n33 * n42 - n13 * n34 * n42 - n14 * n32 * n43
             + n12 * n34 * n43 + n13 * n32 * n44 - n12 * n33 * n44 in
  let t13 := n13 * n24 * n42 - n14 * n23 * n42 + n14 * n22 * n43
             - n12 * n24 * n43 - n13 * n22 * n44 + n12 * n23 * n44 in
  let t14 := n14 * n23 * n32 - n13 * n24 * n32 - n14 * n22 * n33
             + n12 * n24 * n33 + n13 * n22 * n34 - n12 * n23 * n34 in
  let det := n11 * t11 + n21 * t12 + n31 * t13 + n41 * t14 in
  if PrimFloat.eqb det 0 then zero
  else
    let detInv := 1 / det in
    mkMatrix4
      (t11 * detInv)
      ((n24 * n33 * n41 - n23 * n34 * n41 - n24 * n31 * n43
        + n21 * n34 * n43 + n23 * n31 * n44 - n21 * n33 * n44) * detInv)
      ((n22 * n34 * n41 - n24 * n32 * n41 + n24 * n31 * n42
        - n21 * n34 * n42 - n22 * n31 * n44 + n21 * n32 * n44) * detInv)
      ((n23 * n32 * n41 - n22 * n33 * n41 - n23 * n31 * n42
        + n21 * n33 * n42 + n22 * n31 * n43 - n21 * n32 * n43) * detInv)
      (t12 * detInv)
      ((n13 * n34 * n41 - n14 * n33 * n41 + n14 * n31 * n43
        - n11 * n34 * n43 - n13 * n31 * n44 + n11 * n33 * n44) * detInv)
      ((n14 * n32 * n41 - n12 * n34 * n41 - n14 * n31 * n42
        + n11 * n34 * n42 + n12 * n31 * n44 - n11 * n32 * n44) * detInv)
      ((n12 * n33 * n41 - n13 * n32 * n41 + n13 * n31 * n42
        - n11 * n33 * n42 - n12 * n31 * n43 + n11 * n32 * n43) * detInv)
      (t13 * detInv)
      ((n14 * n23 * n41 - n13 * n24 * n41 - n14 * n21 * n43
        + n11 * n24 * n43 + n13 * n21 * n44 - n11 * n23 * n44) * detInv)
      ((n12 * n24 * n41 - n14 * n22 * n41 + n14 * n21 * n42
        - n11 * n24 * n42 - n12 * n21 * n44 + n11 * n22 * n44) * detInv)
      ((n13 * n22 * n41 - n12 * n23 * n41 - n13 * n21 * n42
        + n11 * n23 * n42 + n12 * n21 * n43 - n11 * n22 * n43) * detInv)
      (t14 * detInv)
      ((n13 * n24 * n31 - n14 * n23 * n31 + n14 * n21 * n33
        - n11 * n24 * n33 - n13 * n21 * n34 + n11 * n23 * n34) * detInv)
      ((n14 * n22 * n31 - n12 * n24 * n31 - n14 * n21 * n32
        + n11 * n24 * n32 + n12 * n21 * n34 - n11 * n22 * n34) * detInv)
      ((n12 * n23 * n31 - n13 * n22 * n31 + n13 * n21 * n32
        - n11 * n23 * n32 - n12 * n21 * n33 + n11 * n22 * n33) * detInv).

(** The translation column of a matrix. *)
Definition position (m : Matrix4) : Vector3 :=
  mkVector3 (te12 m) (te13 m) (te14 m).

End Three.

Export Three.

(** ** A JavaScript [Map] with string keys, in insertion order *)

Module JsMap.

Definition t (V : Type) : Type := list (string * V).

Definition empty {V} : t V := [].

Fixpoint get {V} (m : t V) (k : string) : option V :=
  match m with
  | [] => None
  | (k', v) :: rest => if decide (k = k') then Some v else get rest k
  end.

(** [set] keeps the position of a key that is already present. *)
Fixpoint set {V} (m : t V) (k : string) (v : V) : t V :=
  match m with
  | [] => [(k, v)]
  | (k', v') :: rest =>
      if decide (k = k') then (k, v) :: rest else (k', v') :: set rest k v
  end.

Definition keys {V} (m : t V) : list string := map fst m.

Definition values {V} (m : t V) : list V := map snd m.

End JsMap.

(** A JavaScript [Set] of strings in insertion order. *)
Module JsSet.

Definition t : Type := list string.

Definition add (s : t) (x : string) : t :=
  if decide (x ∈ s) then s else s ++ [x].

End JsSet.

(** ** The transform store ([TfStore]) *)

Module Tf.

(** *** Message shapes; every optional member is an [option] *)

Record Translation := mkTranslation
  { t_x : option number; t_y : option number; t_z : option number }.

Record Rotation := mkRotation
  { r_x : option number; r_y : option number; r_z : option number;
    r_w : option number }.

Record Transform := mkTransform
  { translation : option Translation; rotation : option Rotation }.

Record Header := mkHeader { frame_id : option string }.

Record TransformStamped := mkTransformStamped
  { header : option Header;
    child_frame_id : option string;
    transform : option Transform }.

Record TfMessage := mkTfMessage { transforms : option (list TransformStamped) }.

Record FrameTransform := mkFrameTransform
  { parent : option string; matrix : Matrix4 }.

Record FramePose := mkFramePose { frameId : string; pose : Matrix4 }.

Definition IDENTITY : Matrix4 := Three.identity.

(** Optional chaining [o?.f] on a member that may itself be absent. *)
Definition member {A B} (o : option A) (f : A → option B) : option B :=
  match o with Some a => f a | None => None end.

Definition composeMatrix (transform : TransformStamped) : Matrix4 :=
  let tr := member transform.(Tf.transform) Tf.translation in
  let ro := member transform.(Tf.transform) Tf.rotation in
  let translation :=
    mkVector3 (default 0%float (member tr t_x))
              (default 0%float (member tr t_y))
              (default 0%float (member tr t_z)) in
  let rotation :=
    Three.normalize
      (mkQuaternion (default 0%float (member ro r_x))
                    (default 0%float (member ro r_y))
                    (default 0%float (member ro r_z))
                    (default 1%float (member ro r_w))) in
  Three.compose translation rotation (mkVector3 1 1 1).

(** The loop over the sixteen elements with its early [return true]. *)
Definition matricesDiffer (a b : Matrix4) : bool :=
  let ae := elements a in
  let be := elements b in
  existsb (λ i, strictNe (nth i ae 0%float) (nth i be 0%float)) (seq 0 16).

(** *** The store *)

Record TfStore := mkTfStore
  { dynamicTransforms : JsMap.t FrameTransform;
    staticTransforms : JsMap.t FrameTransform }.

Definition empty : TfStore := mkTfStore JsMap.empty JsMap.empty.

(** [parent !== previous.parent] on [string | undefined]. *)
Definition parentDiffers (a b : option string) : bool :=
  if decide (a = b) then false else true.

(** One iteration of the loop of [update], on the selected map. *)
Definition updateEntry (acc : JsMap.t FrameTransform * bool)
    (transform : TransformStamped) : JsMap.t FrameTransform * bool :=
  let '(store, updated) := acc in
  match normalizeFrame transform.(child_frame_id) with
  | None => acc
  | Some child =>
      if negb (truthy child) then acc
      else
        let parent := normalizeFrame (member transform.(header) frame_id) in
        let matrix := composeMatrix transform in
        let changed :=
          match JsMap.get store child with
          | None => true
          | Some previous =>
              parentDiffers parent previous.(Tf.parent)
              || matricesDiffer previous.(Tf.matrix) matrix
          end in
        if changed
        then (JsMap.set store child (mkFrameTransform parent matrix), true)
        else acc
  end.

Definition update (this : TfStore) (message : TfMessage) (isStatic : bool)
  : TfStore * bool :=
  let store :=
    if isStatic then this.(staticTransforms) else this.(dynamicTransforms) in
  let '(store', updated) :=
    fold_left updateEntry (default [] message.(transforms)) (store, false) in
  (if isStatic then mkTfStore this.(dynamicTransforms) store'
   else mkTfStore store' this.(staticTransforms),
   updated).

Definition resetDynamic (this : TfStore) : TfStore :=
  mkTfStore JsMap.empty this.(staticTransforms).

Definition clearAll (this : TfStore) : TfStore :=
  mkTfStore JsMap.empty JsMap.empty.

(** *** Pose resolution *)

(** [this.dynamicTransforms.get(frame) ?? this.staticTransforms.get(frame)] *)
Definition lookupTransform (this : TfStore) (frame : string)
  : option FrameTransform :=
  match JsMap.get this.(dynamicTransforms) frame with
  | Some t => Some t
  | None => JsMap.get this.(staticTransforms) frame
  end.

(** [transform.parent && transform.parent !== frame]: the parent to walk
    to, if any. *)
Definition parentLink (transform : FrameTransform) (frame : string)
  : option string :=
  match transform.(parent) with
  | Some p => if truthy p && negb (String.eqb p frame) then Some p else None
  | None => None
  end.

(** [resolveWorldMatrix].  The method is recursive along parent links; the
    model recurses on [fuel] and answers [None] only when the fuel is
    exhausted.  The outer [option] is that, the inner one is the
    [Matrix4 | undefined] of the source; the second component is the
    cache after the call.  The in-progress set is restored by the source
    ([stack.delete(frame)]) before it returns, so it is passed down only. *)
Fixpoint resolveWorldMatrix (fuel : nat) (this : TfStore) (frame : string)
    (cache : gmap string Matrix4) (stack : gset string)
  : option (option Matrix4 * gmap string Matrix4) :=
  match fuel with
  | O => None
  | S fuel' =>
      if decide (is_Some (cache !! frame)) then Some (cache !! frame, cache)
      else if decide (frame ∈ stack) then Some (Some IDENTITY, cache)
      else
        match lookupTransform this frame with
        | None =>
            let cache' := <[frame := IDENTITY]> cache in
            Some (cache' !! frame, cache')
        | Some transform =>
            match parentLink transform frame with
            | Some p =>
                match resolveWorldMatrix fuel' this p cache (stack ∪ {[frame]}) with
                | None => None
                | Some (r, cache') =>
                    let parentMatrix := default IDENTITY r in
                    let worldMatrix :=
                      Three.multiply parentMatrix transform.(matrix) in
                    Some (Some worldMatrix, <[frame := worldMatrix]> cache')
                end
            | None =>
                let worldMatrix := Three.multiply IDENTITY transform.(matrix) in
                Some (Some worldMatrix, <[frame := worldMatrix]> cache)
            end
        end
  end.

(** The candidate frames of [buildPoseData], in the order the source adds
    them to [frameNames]. *)
Definition addParents (names : JsSet.t) (m : JsMap.t FrameTransform) : JsSet.t :=
  fold_left
    (λ acc transform,
       match transform.(parent) with
       | Some p => if truthy p then JsSet.add acc p else acc
       | None => acc
       end)
    (JsMap.values m) names.

Definition frameNames (this : TfStore) (fixedFrame : option string) : JsSet.t :=
  let names := fold_left JsSet.add (JsMap.keys this.(dynamicTransforms)) [] in
  let names := fold_left JsSet.add (JsMap.keys this.(staticTransforms)) names in
  let names := addParents names this.(dynamicTransforms) in
  let names := addParents names this.(staticTransforms) in
  match fixedFrame with
  | Some f => if truthy f then JsSet.add names f else names
  | None => names
  end.

(** Fuel that no walk exhausts: one more than the number of stored edges. *)
Definition walkFuel (this : TfStore) : nat :=
  S (length this.(dynamicTransforms) + length this.(staticTransforms)).

(** [fixedFrame] is truthy. *)
Definition fixedGiven (fixedFrame : option string) : option string :=
  match fixedFrame with
  | Some f => if truthy f then Some f else None
  | None => None
  end.

Record PassState := mkPassState
  { worldCache : gmap string Matrix4;
    matrixMap : gmap string Matrix4;
    frames : list FramePose }.

(** The body of [frameNames.forEach]. *)
Definition poseStep (this : TfStore) (fixedFrame : option string)
    (fixedInverse : Matrix4) (st : option PassState) (frameName : string)
  : option PassState :=
  match st with
  | None => None
  | Some st =>
      if negb (truthy frameName) then Some st
      else
        match resolveWorldMatrix (walkFuel this) this frameName
                st.(worldCache) ∅ with
        | None => None
        | Some (r, cache') =>
            let world := default IDENTITY r in
            let relative :=
              match fixedGiven fixedFrame with
              | Some _ => Three.multiply fixedInverse world
              | None => world
              end in
            Some (mkPassState cache'
                    (<[frameName := relative]> st.(matrixMap))
                    (st.(frames) ++ [mkFramePose frameName relative]))
      end
  end.

(** [buildPoseData], returning the world cache of the pass as well. *)
Definition buildPoseDataPass (this : TfStore) (fixedFrame : option string)
  : option PassState :=
  let start :=
    match fixedGiven fixedFrame with
    | Some f =>
        match resolveWorldMatrix (walkFuel this) this f ∅ ∅ with
        | None => None
        | Some (r, cache) => Some (default IDENTITY r, cache)
        end
    | None => Some (IDENTITY, ∅)
    end in
  match start with
  | None => None
  | Some (fixedWorld, cache) =>
      let fixedInverse := Three.invert fixedWorld in
      fold_left (poseStep this fixedFrame fixedInverse)
        (frameNames this fixedFrame)
        (Some (mkPassState cache ∅ []))
  end.

Record PoseData := mkPoseData
  { pd_frames : list FramePose; pd_matrixMap : gmap string Matrix4 }.

Definition buildPoseData (this : TfStore) (fixedFrame : option string)
  : option PoseData :=
  match buildPoseDataPass this fixedFrame with
  | Some st => Some (mkPoseData st.(frames) st.(matrixMap))
  | None => None
  end.

End Tf.

(** ** The transform store: what the properties are stated with *)

Module TfSpec.
Import Tf.

(** The frames that have a stored edge. *)
Definition edgeFrames (this : TfStore) : gset string :=
  list_to_set (JsMap.keys this.(dynamicTransforms)
               ++ JsMap.keys this.(staticTransforms)).

(** The product of the local matrices along the chain of parents of
    [frame], when that chain ends within [depth] links: at a frame with no
    stored edge (identity), or at an edge without a parent to walk to. *)
Fixpoint worldMatrix (depth : nat) (this : TfStore) (frame : string)
  : option Matrix4 :=
  match lookupTransform this frame with
  | None => Some IDENTITY
  | Some transform =>
      match parentLink transform frame with
      | None => Some (Three.multiply IDENTITY transform.(matrix))
      | Some p =>
          match depth with
          | O => None
          | S d =>
              match worldMatrix d this p with
              | Some parentMatrix =>
                  Some (Three.multiply parentMatrix transform.(matrix))
              | None => None
              end
          end
      end
  end.

(** *** The world matrix by the words of the specification

    The edge of a frame is its dynamic edge if it has one, else its static
    edge.  The world matrix of a frame is the product, from the identity,
    of the local matrices along its parent links, the root's first; a
    frame without an edge has none and its world matrix is the identity.
    A parent that is absent, empty or the frame itself ends the links. *)

Definition storedEdge (this : TfStore) (frame : string)
  : option FrameTransform :=
  snd <$> List.find (λ entry, String.eqb entry.1 frame)
            (this.(dynamicTransforms) ++ this.(staticTransforms)).

Definition parentOf (this : TfStore) (frame : string) : option string :=
  match storedEdge this frame with
  | Some edge =>
      match edge.(parent) with
      | Some p => if decide (p ≠ "" ∧ p ≠ frame) then Some p else None
      | None => None
      end
  | None => None
  end.

(** The local matrices from the root down to [frame]; [None] when the
    parent links do not end within [depth] steps, as on a cycle. *)
Fixpoint localMatrices (depth : nat) (this : TfStore) (frame : string)
  : option (list Matrix4) :=
  match storedEdge this frame with
  | None => Some []
  | Some edge =>
      match parentOf this frame with
      | None => Some [edge.(matrix)]
      | Some p =>
          match depth with
          | O => None
          | S d => (λ above, above ++ [edge.(matrix)]) <$> localMatrices d this p
          end
      end
  end.

Definition chainWorld (depth : nat) (this : TfStore) (frame : string)
  : option Matrix4 :=
  (λ locals, fold_left Three.multiply locals IDENTITY)
    <$> localMatrices depth this frame.

(** Every cached matrix of a frame whose chain ends is the walk's. *)
Definition consistent (this : TfStore) (cache : gmap string Matrix4) : Prop :=
  ∀ k v n M, cache !! k = Some v → worldMatrix n this k = Some M → v = M.

(** Every frame in progress has a longer chain than [frame]. *)
Definition above (this : TfStore) (stack : gset string) (frame : string) : Prop :=
  ∀ k, k ∈ stack → ∀ n M, worldMatrix n this k = Some M →
    ∃ m M', m < n ∧ worldMatrix m this frame = Some M'.

(** [fixedFrame ? fixedInverse.clone().multiply(world) : world.clone()] *)
Definition relativeTo (fixedFrame : option string) (fixedWorld world : Matrix4)
  : Matrix4 :=
  match fixedGiven fixedFrame with
  | Some _ => Three.multiply (Three.invert fixedWorld) world
  | None => world
  end.

(** The world matrix the pass has memoized for a frame. *)
Definition worldOf (st : PassState) (frame : string) : Matrix4 :=
  default IDENTITY (st.(worldCache) !! frame).

(** Every entry of the result map is the relative matrix of a memoized
    world matrix. *)
Definition entriesRelative (fixedFrame : option string) (fixedWorld : Matrix4)
    (st : PassState) : Prop :=
  ∀ f r, st.(matrixMap) !! f = Some r →
    ∃ w, st.(worldCache) !! f = Some w
         ∧ r = relativeTo fixedFrame fixedWorld w.

(** The key under which an entry of a batch is stored, if it is stored. *)
Definition entryKey (transform : TransformStamped) : option string :=
  match normalizeFrame transform.(child_frame_id) with
  | Some child => if truthy child then Some child else None
  | None => None
  end.

(** The stored edge of the entry's child already equals the entry. *)
Definition agrees (store : JsMap.t FrameTransform) (transform : TransformStamped)
  : Prop :=
  match entryKey transform with
  | None => True
  | Some child =>
      ∃ previous,
        JsMap.get store child = Some previous
        ∧ parentDiffers (normalizeFrame (member transform.(header) frame_id))
            previous.(parent) = false
        ∧ matricesDiffer previous.(matrix) (composeMatrix transform) = false
  end.

(** The keys of the stored entries of a batch, in order. *)
Definition entryKeys (entries : list TransformStamped) : list string :=
  omap entryKey entries.




(** *** Statements about a pass *)

(** What a pass with fixed frame [F] returns: [st] is the final state of
    the pass and [fixedWorld] the world matrix of [F]. *)
Definition relativePoses (this : TfStore) (F : string) (st : PassState)
    (fixedWorld : Matrix4) : Prop :=
  buildPoseDataPass this (Some F) = Some st
  ∧ buildPoseData this (Some F) = Some (mkPoseData st.(frames) st.(matrixMap))
  ∧ st.(worldCache) !! F = Some fixedWorld
  ∧ (∀ f, f ∈ frameNames this (Some F) → truthy f = true →
       ∃ world,
         st.(worldCache) !! f = Some world
         ∧ st.(matrixMap) !! f
           = Some (Three.multiply (Three.invert fixedWorld) world))
  ∧ st.(frames)
    = map (λ f, mkFramePose f
                  (Three.multiply (Three.invert fixedWorld) (worldOf st f)))
        (List.filter truthy (frameNames this (Some F)))
  ∧ (∀ f world, st.(worldCache) !! f = Some world →
       lookupTransform this f = None → world = IDENTITY)
  ∧ (∀ f world depth M, st.(worldCache) !! f = Some world →
       worldMatrix depth this f = Some M → world = M).

(** *** Example stores *)

Definition stamped (child parent : string) (x y z : number)
    (rotation : option Rotation) : TransformStamped :=
  mkTransformStamped (Some (mkHeader (Some parent))) (Some child)
    (Some (mkTransform (Some (mkTranslation (Some x) (Some y) (Some z)))
             rotation)).

Definition batch (entries : list TransformStamped) : TfMessage :=
  mkTfMessage (Some entries).

Definition storeOf (entries : list TransformStamped) : TfStore :=
  (update empty (batch entries) false).1.

(** Dynamic edges B→A (identity) and C→B (translation +1 on x). *)
Definition chainStore : TfStore :=
  storeOf [stamped "B" "A" 0 0 0 None; stamped "C" "B" 1 0 0 None].



(** A frame that names itself as parent, one unit along x. *)
Definition selfLoopStore : TfStore := storeOf [stamped "A" "A" 1 0 0 None].

(** A and B name each other as parent. *)
Definition twoCycleStore : TfStore :=
  storeOf [stamped "A" "B" 1 0 0 None; stamped "B" "A" 2 0 0 None].

(** The edges of [twoCycleStore], stored in the other order. *)
Definition twoCycleSwapped : TfStore :=
  storeOf [stamped "B" "A" 2 0 0 None; stamped "A" "B" 1 0 0 None].

(** The same child twice in one batch, with different translations. *)
Definition repeatedChild : TfMessage :=
  batch [stamped "a" "p" 1 0 0 None; stamped "a" "p" 2 0 0 None].





End TfSpec.

(** ** The point-record decoder ([pointcloud.ts]) *)

Module PointCloud.

#[local] Open Scope Z_scope.

(** *** Exceptions *)

Inductive exn := RangeError.

Inductive result (A : Type) : Type :=
  | Ok (a : A)
  | Throw (e : exn).

Arguments Ok {A} a.
Arguments Throw {A} e.

Definition bind {A B} (r : result A) (k : A → result B) : result B :=
  match r with
  | Ok a => k a
  | Throw e => Throw e
  end.

#[local] Notation "x ← r ; k" := (bind r (λ x, k))
  (at level 20, r at level 100, k at level 200, right associativity,
   format "x  ←  r ;  '/' k").

(** *** IEEE-754 decoding and [Float32Array] storage *)

(** The number whose binary32 representation is [b]. *)
Definition float32OfBits (b : Z) : number :=
  let sign := Z.testbit b 31 in
  let e := (b / 2 ^ 23) mod 2 ^ 8 in
  let m := b mod 2 ^ 23 in
  let magnitude :=
    if e =? 255 then (if m =? 0 then PrimFloat.infinity else PrimFloat.nan)
    else if e =? 0 then Z.ldexp (ofZ m) (-149)
    else Z.ldexp (ofZ (2 ^ 23 + m)) (e - 150) in
  if sign then PrimFloat.opp magnitude else magnitude.

(** The number whose binary64 representation is [b]. *)
Definition float64OfBits (b : Z) : number :=
  let sign := Z.testbit b 63 in
  let e := (b / 2 ^ 52) mod 2 ^ 11 in
  let m := b mod 2 ^ 52 in
  let magnitude :=
    if e =? 2047 then (if m =? 0 then PrimFloat.infinity else PrimFloat.nan)
    else if e =? 0 then Z.ldexp (ofZ m) (-1074)
    else Z.ldexp (ofZ (2 ^ 52 + m)) (e - 1075) in
  if sign then PrimFloat.opp magnitude else magnitude.

(** The value an element of a [Float32Array] holds after [x] is stored in
    it: [x] rounded to binary32, ties to even. *)
Definition fround (x : number) : number :=
  match Prim2SF x with
  | S754_finite s m e => SF2Prim (binary_round 24 128 s m e)
  | _ => x
  end.

(** *** [DataView] *)

Definition DataView := list Byte.byte.

Definition byteValue (b : Byte.byte) : Z := Z.of_N (Byte.to_N b).

(** The [n] bytes at [offset], or [RangeError] outside the view. *)
Definition viewBytes (view : DataView) (offset : Z) (n : nat)
  : result (list Z) :=
  if (0 <=? offset) && (offset + Z.of_nat n <=? Z.of_nat (length view))
  then Ok (map byteValue (take n (drop (Z.to_nat offset) view)))
  else Throw RangeError.

(** The unsigned integer of a byte sequence, least significant first. *)
Definition littleEndianValue (bs : list Z) : Z :=
  fold_right (λ b acc, b + 256 * acc) 0 bs.

Definition unsignedValue (bs : list Z) (littleEndian : bool) : Z :=
  littleEndianValue (if littleEndian then bs else rev bs).

(** Two's complement reading of a [bits]-bit unsigned value. *)
Definition signed (bits : Z) (v : Z) : Z :=
  if v <? 2 ^ (bits - 1) then v else v - 2 ^ bits.

Definition getUint (n : nat) (view : DataView) (offset : Z)
    (littleEndian : bool) : result Z :=
  bs ← viewBytes view offset n; Ok (unsignedValue bs littleEndian).

Definition getUint8 (view : DataView) (offset : Z) : result Z :=
  getUint 1 view offset true.

Definition getInt8 (view : DataView) (offset : Z) : result Z :=
  v ← getUint 1 view offset true; Ok (signed 8 v).

Definition getUint16 := getUint 2.

Definition getInt16 (view : DataView) (offset : Z) (littleEndian : bool)
  : result Z :=
  v ← getUint 2 view offset littleEndian; Ok (signed 16 v).

Definition getUint32 := getUint 4.

Definition getInt32 (view : DataView) (offset : Z) (littleEndian : bool)
  : result Z :=
  v ← getUint 4 view offset littleEndian; Ok (signed 32 v).

Definition getFloat32 (view : DataView) (offset : Z) (littleEndian : bool)
  : result number :=
  v ← getUint 4 view offset littleEndian; Ok (float32OfBits v).

Definition getFloat64 (view : DataView) (offset : Z) (littleEndian : bool)
  : result number :=
  v ← getUint 8 view offset littleEndian; Ok (float64OfBits v).

(** *** The message and the result *)

Record PointField := mkPointField
  { name : string; offset : Z; datatype : Z; count : Z }.

Record Header := mkHeader { frame_id : option string }.

(** [data] after [Uint8Array.from]; the integral members are integers. *)
Record PointCloud2Message := mkPointCloud2Message
  { header : option Header;
    height : Z;
    width : Z;
    fields : list PointField;
    is_bigendian : option bool;
    point_step : Z;
    row_step : Z;
    data : option (list Byte.byte) }.

Record ParsedPointCloud := mkParsedPointCloud
  { id : string;
    frameId : string;
    positions : list number;
    colors : option (list number) }.

(** [enum PointFieldType] *)
Definition INT8 : Z := 1.
Definition UINT8 : Z := 2.
Definition INT16 : Z := 3.
Definition UINT16 : Z := 4.
Definition INT32 : Z := 5.
Definition UINT32 : Z := 6.
Definition FLOAT32 : Z := 7.
Definition FLOAT64 : Z := 8.

Definition DEFAULT_FRAME : string := "map".

Definition DEFAULT_COLOR : number * number * number :=
  (0.2%float, 0.6%float, 1%float).

(** *** Bitwise operators on numbers that hold integers *)

(** [ToInt32] *)
Definition toInt32 (v : Z) : Z := signed 32 (v mod 2 ^ 32).

(** [a >> n] *)
Definition sar (a n : Z) : Z := Z.shiftr (toInt32 a) (n mod 32).

(** [a & b] *)
Definition band (a b : Z) : Z := toInt32 (Z.land (toInt32 a) (toInt32 b)).

(** [Math.min] and [Math.max] on two numbers. *)
Definition Math_min (a b : number) : number :=
  if PrimFloat.is_nan a || PrimFloat.is_nan b then PrimFloat.nan
  else if PrimFloat.ltb a b then a
  else if PrimFloat.ltb b a then b
  else if PrimFloat.get_sign a then a else b.

Definition Math_max (a b : number) : number :=
  if PrimFloat.is_nan a || PrimFloat.is_nan b then PrimFloat.nan
  else if PrimFloat.ltb a b then b
  else if PrimFloat.ltb b a then a
  else if PrimFloat.get_sign a then b else a.

(** *** The readers *)

Definition readNumeric (view : DataView) (offset : Z) (datatype : Z)
    (littleEndian : bool) : result number :=
  if datatype =? FLOAT32 then getFloat32 view offset littleEndian
  else if datatype =? FLOAT64 then getFloat64 view offset littleEndian
  else if datatype =? UINT8 then v ← getUint8 view offset; Ok (ofZ v)
  else if datatype =? INT8 then v ← getInt8 view offset; Ok (ofZ v)
  else if datatype =? UINT16 then v ← getUint16 view offset littleEndian; Ok (ofZ v)
  else if datatype =? INT16 then v ← getInt16 view offset littleEndian; Ok (ofZ v)
  else if datatype =? UINT32 then v ← getUint32 view offset littleEndian; Ok (ofZ v)
  else if datatype =? INT32 then v ← getInt32 view offset littleEndian; Ok (ofZ v)
  else Ok PrimFloat.nan.

Definition readColor (view : DataView) (offset : Z) (datatype : Z)
    (littleEndian : bool) : result (number * number * number) :=
  if (datatype =? FLOAT32) || (datatype =? UINT32) || (datatype =? INT32) then
    value ← getUint32 view offset littleEndian;
    Ok ((ofZ (band (sar value 16) 255) / 255)%float,
        (ofZ (band (sar value 8) 255) / 255)%float,
        (ofZ (band value 255) / 255)%float)
  else if (datatype =? UINT8) || (datatype =? INT8) then
    v ← getUint8 view offset;
    let intensity := (ofZ v / 255)%float in
    Ok (intensity, intensity, intensity)
  else if datatype =? FLOAT64 then
    intensity ← getFloat64 view offset littleEndian;
    let normalized := Math_max 0 (Math_min 1 intensity) in
    Ok (normalized, normalized, normalized)
  else Ok DEFAULT_COLOR.

(** *** The decoder *)

(** The state of the record loop: the two preallocated arrays and the
    number of accepted records. *)
Record Decoding := mkDecoding
  { d_positions : list number;
    d_colors : option (list number);
    validPoints : nat }.

(** [arr[i] = x] on a [Float32Array]; a write past the end is ignored. *)
Definition store (arr : list number) (i : nat) (x : number) : list number :=
  <[i := fround x]> arr.

(** The body of the record loop for record [i]. *)
Definition decodeRecord (view : DataView) (step : Z)
    (xField yField zField : PointField) (colorField : option PointField)
    (littleEndian : bool) (st : Decoding) (i : nat) : result Decoding :=
  let base := Z.of_nat i * step in
  x ← readNumeric view (base + xField.(offset)) xField.(datatype) littleEndian;
  y ← readNumeric view (base + yField.(offset)) yField.(datatype) littleEndian;
  z ← readNumeric view (base + zField.(offset)) zField.(datatype) littleEndian;
  if negb (isFinite x) || negb (isFinite y) || negb (isFinite z) then Ok st
  else
    let k := (st.(validPoints) * 3)%nat in
    let positions :=
      store (store (store st.(d_positions) k x) (k + 1) y) (k + 2) z in
    colors ←
      match st.(d_colors), colorField with
      | Some colors, Some cf =>
          c ← readColor view (base + cf.(offset)) cf.(datatype) littleEndian;
          let '(r, g, b) := c in
          Ok (Some (store (store (store colors k r) (k + 1) g) (k + 2) b))
      | other, _ => Ok other
      end;
    Ok (mkDecoding positions colors (S st.(validPoints))).

(** [for (let i = 0; i < pointCount; i += 1)] over the given indices. *)
Fixpoint decodeRecords (body : Decoding → nat → result Decoding)
    (indices : list nat) (st : Decoding) : result Decoding :=
  match indices with
  | [] => Ok st
  | i :: rest => st' ← body st i; decodeRecords body rest st'
  end.

Definition hasName (n : string) (field : PointField) : bool :=
  String.eqb field.(name) n.

(** [message.fields.find((field) => field.name === n)] *)
Definition findField (n : string) (message : PointCloud2Message)
  : option PointField :=
  List.find (hasName n) message.(fields).

(** The first field named [rgb], [rgba] or [intensity]. *)
Definition findColorField (message : PointCloud2Message) : option PointField :=
  List.find
    (λ field, hasName "rgb" field || hasName "rgba" field
              || hasName "intensity" field)
    message.(fields).

(** [message.is_bigendian ? false : true] *)
Definition littleEndianOf (message : PointCloud2Message) : bool :=
  match message.(is_bigendian) with
  | Some true => false
  | _ => true
  end.

(** [Number(v) || 0] on an integer. *)
Definition orZero (v : Z) : Z := if v =? 0 then 0 else v.

(** [width * height] *)
Definition totalPoints (message : PointCloud2Message) : Z :=
  orZero message.(width) * orZero message.(height).

(** The part of [parsePointCloud2] after the record loop: no result
    without an accepted record, otherwise the arrays cut to the accepted
    records. *)
Definition finishDecoding (topic : string) (message : PointCloud2Message)
    (st : Decoding) : option ParsedPointCloud :=
  if (st.(validPoints) =? 0)%nat then None
  else
    let n := (st.(validPoints) * 3)%nat in
    let trimmedPositions :=
      if (n =? length st.(d_positions))%nat then st.(d_positions)
      else take n st.(d_positions) in
    let trimmedColors :=
      match st.(d_colors) with
      | Some colors =>
          if negb (n =? length colors)%nat
          then Some (take n colors) else Some colors
      | None => None
      end in
    Some (mkParsedPointCloud topic
            (default DEFAULT_FRAME
               (normalizeFrame (Tf.member message.(header) frame_id)))
            trimmedPositions trimmedColors).

(** [Number.MAX_SAFE_INTEGER], 2^53 - 1. *)
Definition MAX_SAFE_INTEGER : Z := 2 ^ 53 - 1.

(** [new Float32Array(length)]: [length] zeros.  The language refuses,
    with [RangeError], a length outside 0 .. 2^53 - 1 (ToIndex) and a
    buffer of more than 2^53 - 1 bytes (CreateByteDataBlock), four bytes
    an element. *)
Definition newFloat32Array (length : Z) : result (list number) :=
  if (length <? 0) || (MAX_SAFE_INTEGER <? length)
     || (MAX_SAFE_INTEGER <? 4 * length)
  then Throw RangeError
  else Ok (replicate (Z.to_nat length) 0%float).

(** The two preallocated arrays and the counter before the loop. *)
Definition startDecoding (pointCount : Z) (colorField : option PointField)
  : result Decoding :=
  positions ← newFloat32Array (pointCount * 3);
  colors ←
    match colorField with
    | Some _ => colors ← newFloat32Array (pointCount * 3); Ok (Some colors)
    | None => Ok None
    end;
  Ok (mkDecoding positions colors 0).

Definition parsePointCloud2 (topic : string) (message : PointCloud2Message)
  : result (option ParsedPointCloud) :=
  match message.(data) with
  | None => Ok None
  | Some bytes =>
      if totalPoints message <=? 0 then Ok None
      else
        let pointCount := totalPoints message in
        if Z.of_nat (length bytes) <? message.(point_step) * pointCount
        then Ok None
        else
          match findField "x" message, findField "y" message,
                findField "z" message with
          | Some xField, Some yField, Some zField =>
              let colorField := findColorField message in
              let step := message.(point_step) in
              let dataView : DataView := bytes in
              let littleEndian := littleEndianOf message in
              st0 ← startDecoding pointCount colorField;
              st ← decodeRecords
                     (decodeRecord dataView step xField yField zField
                        colorField littleEndian)
                     (seq 0 (Z.to_nat pointCount)) st0;
              Ok (finishDecoding topic message st)
          | _, _, _ => Ok None
          end
  end.

(** *** The records of a message, one at a time *)

(** The three stored values of a triple of numbers. *)
Definition stored3 (c : number * number * number) : list number :=
  let '(a, b, c) := c in [fround a; fround b; fround c].

Definition okValue {A} (r : result A) : option A :=
  match r with Ok a => Some a | Throw _ => None end.

Section records.
Context (view : DataView) (step : Z) (xField yField zField : PointField)
        (colorField : option PointField) (littleEndian : bool).

(** The decoded coordinates of record [i], unless a read raises. *)
Definition coordsAt (i : nat) : option (number * number * number) :=
  let base := Z.of_nat i * step in
  okValue
    (x ← readNumeric view (base + xField.(offset)) xField.(datatype) littleEndian;
     y ← readNumeric view (base + yField.(offset)) yField.(datatype) littleEndian;
     z ← readNumeric view (base + zField.(offset)) zField.(datatype) littleEndian;
     Ok (x, y, z)).

(** Record [i] decodes to three finite coordinates. *)
Definition acceptedAt (i : nat) : bool :=
  match coordsAt i with
  | Some (x, y, z) => isFinite x && isFinite y && isFinite z
  | None => false
  end.

(** The decoded color of record [i], unless there is no color field or
    the read raises. *)
Definition colorAt (i : nat) : option (number * number * number) :=
  match colorField with
  | Some cf =>
      okValue (readColor view (Z.of_nat i * step + cf.(offset))
                 cf.(datatype) littleEndian)
  | None => None
  end.

(** The state of the record loop once the records [acc] have been
    accepted: the arrays keep their length [L] and start with the stored
    values of those records, in order. *)
Definition decoded (L : nat) (acc : list nat) (st : Decoding) : Prop :=
  st.(validPoints) = length acc
  ∧ length st.(d_positions) = L
  ∧ take (length acc * 3) st.(d_positions)
    = flat_map (λ i, from_option stored3 [] (coordsAt i)) acc
  ∧ match colorField with
    | Some _ =>
        ∃ colors,
          st.(d_colors) = Some colors
          ∧ length colors = L
          ∧ take (length acc * 3) colors
            = flat_map (λ i, from_option stored3 [] (colorAt i)) acc
    | None => st.(d_colors) = None
    end
  ∧ Forall (λ i, acceptedAt i = true
                 ∧ (is_Some colorField → is_Some (colorAt i))) acc.
End records.

(** The same, for the records of a message. *)
Definition recordCoords (message : PointCloud2Message) (i : nat)
  : option (number * number * number) :=
  match message.(data), findField "x" message, findField "y" message,
        findField "z" message with
  | Some bytes, Some xField, Some yField, Some zField =>
      coordsAt bytes message.(point_step) xField yField zField
        (littleEndianOf message) i
  | _, _, _, _ => None
  end.

Definition recordAccepted (message : PointCloud2Message) (i : nat) : bool :=
  match recordCoords message i with
  | Some (x, y, z) => isFinite x && isFinite y && isFinite z
  | None => false
  end.

Definition recordColor (message : PointCloud2Message) (i : nat)
  : option (number * number * number) :=
  match message.(data) with
  | Some bytes =>
      colorAt bytes message.(point_step) (findColorField message)
        (littleEndianOf message) i
  | None => None
  end.

(** The indices of the accepted records, in record order. *)
Definition acceptedRecords (message : PointCloud2Message) : list nat :=
  List.filter (recordAccepted message)
    (seq 0 (Z.to_nat (totalPoints message))).

(** One of the preconditions of the decoder fails. *)
Definition structurallyInvalid (message : PointCloud2Message) : Prop :=
  totalPoints message ≤ 0
  ∨ match message.(data) with
    | None => True
    | Some bytes =>
        Z.of_nat (length bytes) < message.(point_step) * totalPoints message
    end
  ∨ findField "x" message = None
  ∨ findField "y" message = None
  ∨ findField "z" message = None.

(** The two arrays of the decoder are within what the language
    allocates: three elements of four bytes for every record. *)
Definition allocatable (message : PointCloud2Message) : Prop :=
  4 * (totalPoints message * 3) ≤ MAX_SAFE_INTEGER.

(** Every record decodes without an exception, and none to three finite
    coordinates. *)
Definition noAcceptedRecord (message : PointCloud2Message) : Prop :=
  ∀ i, (i < Z.to_nat (totalPoints message))%nat →
    is_Some (recordCoords message i) ∧ recordAccepted message i = false.

(** The eight encodings of [readNumeric]. *)
Definition supported (datatype : Z) : Prop := 1 ≤ datatype ≤ 8.

(** The number of bytes [readNumeric] and [readColor] read for a type. *)
Definition numericSize (datatype : Z) : nat :=
  if (datatype =? INT8) || (datatype =? UINT8) then 1
  else if (datatype =? INT16) || (datatype =? UINT16) then 2
  else if (datatype =? INT32) || (datatype =? UINT32) || (datatype =? FLOAT32)
  then 4
  else if datatype =? FLOAT64 then 8
  else 0.

Definition colorSize (datatype : Z) : nat :=
  if (datatype =? FLOAT32) || (datatype =? UINT32) || (datatype =? INT32) then 4
  else if (datatype =? UINT8) || (datatype =? INT8) then 1
  else if datatype =? FLOAT64 then 8
  else 0.

(** The [size] bytes of the field lie inside a record of [step] bytes. *)
Definition fits (size : nat) (field : PointField) (step : Z) : Prop :=
  0 ≤ field.(offset) ∧ field.(offset) + Z.of_nat size ≤ step.

(** Every field the decoder reads lies inside the record. *)
Definition fieldsFit (message : PointCloud2Message) : Prop :=
  (∀ n field, n = "x" ∨ n = "y" ∨ n = "z" →
     findField n message = Some field →
     fits (numericSize field.(datatype)) field message.(point_step))
  ∧ (∀ field, findColorField message = Some field →
       fits (colorSize field.(datatype)) field message.(point_step)).

(** The packed 32-bit encodings of [readColor]. *)
Definition packed (datatype : Z) : Prop :=
  datatype = FLOAT32 ∨ datatype = UINT32 ∨ datatype = INT32.

(** A field that can carry the color, by its name. *)
Definition colorNamed (field : PointField) : Prop :=
  field.(name) = "rgb" ∨ field.(name) = "rgba" ∨ field.(name) = "intensity".


(** A color channel: a byte divided by 255. *)
Definition channel (byte : Z) : number := (ofZ byte / 255)%float.

(** [|a - b| < tolerance] *)
Definition near (a b tolerance : number) : bool :=
  PrimFloat.ltb (PrimFloat.abs (a - b)) tolerance.

(** *** Example messages *)

Definition float32Field (n : string) (o : Z) : PointField :=
  mkPointField n o FLOAT32 1.

(** The four bytes of a 32-bit value, least significant first. *)
Definition bytes32 (v : Z) : list Byte.byte :=
  map (λ k, default Byte.x00 (Byte.of_N (Z.to_N ((v / 2 ^ (8 * k)) mod 256))))
    [0; 1; 2; 3].

Definition xyz : list PointField :=
  [float32Field "x" 0; float32Field "y" 4; float32Field "z" 8].

(** Two little-endian records of three binary32 coordinates; the third
    coordinate of the first record is a NaN.  The frame is [/]. *)
Definition twoRecords : PointCloud2Message :=
  mkPointCloud2Message (Some (mkHeader (Some "/"))) 1 2 xyz None 12 24
    (Some (bytes32 0x3F800000 ++ bytes32 0x40000000 ++ bytes32 0x7FC00000
           ++ bytes32 0x40400000 ++ bytes32 0x40800000 ++ bytes32 0x40A00000)).

(** One record (1, 2, 3) with a packed color 0x00FF8040. *)
Definition coloredRecord : PointCloud2Message :=
  mkPointCloud2Message None 1 1 (xyz ++ [float32Field "rgb" 12]) None 16 16
    (Some (bytes32 0x3F800000 ++ bytes32 0x40000000 ++ bytes32 0x40400000
           ++ bytes32 0x00FF8040)).

(** One record of four bytes whose [y] and [z] fields lie behind it. *)
Definition shortRecord : PointCloud2Message :=
  mkPointCloud2Message None 1 1 xyz None 4 4 (Some (bytes32 0x3F800000)).

(** The same with an [x] field of the unknown type 9. *)
Definition unknownTypeRecord : PointCloud2Message :=
  mkPointCloud2Message None 1 1
    [mkPointField "x" 0 9 1; float32Field "y" 4; float32Field "z" 8]
    None 4 4 (Some (bytes32 0x3F800000)).

(** 4294967295 x 4294967295 records of no byte each: the three fields, of
    the unknown type 9, are never read. *)
Definition hugeCloud : PointCloud2Message :=
  mkPointCloud2Message None 4294967295 4294967295
    [mkPointField "x" 0 9 1; mkPointField "y" 0 9 1; mkPointField "z" 0 9 1]
    None 0 0 (Some []).

(** One record whose three coordinates are NaN: it decodes and is
    rejected. *)
Definition nanRecord : PointCloud2Message :=
  mkPointCloud2Message None 1 1 xyz None 12 12
    (Some (bytes32 0x7FC00000 ++ bytes32 0x7FC00000 ++ bytes32 0x7FC00000)).

(** One record (1, 2, 3) with an [intensity] byte 128 listed before a
    packed [rgb] field 0x00FF8040. *)
Definition intensityFirst : PointCloud2Message :=
  mkPointCloud2Message None 1 1
    (xyz ++ [mkPointField "intensity" 12 UINT8 1; float32Field "rgb" 16])
    None 20 20
    (Some (bytes32 0x3F800000 ++ bytes32 0x40000000 ++ bytes32 0x40400000
           ++ bytes32 0x00000080 ++ bytes32 0x00FF8040)).

End PointCloud.

(** ** Ranges of numbers *)

(** [lo <= r && r <= hi] *)
Definition within (lo hi r : number) : bool :=
  PrimFloat.leb lo r && PrimFloat.leb r hi.

(** ** The transform store: the frame list and the reachable states *)

Module TfFrames.
Import Tf.

(** The map [update] writes to. *)
Definition selected (this : TfStore) (isStatic : bool)
  : JsMap.t FrameTransform :=
  if isStatic then this.(staticTransforms) else this.(dynamicTransforms).

(** The states of a store: a new one, and what the three mutating
    methods make of a state. *)
Inductive reachable : TfStore → Prop :=
  | reachable_new : reachable Tf.empty
  | reachable_update this message isStatic :
      reachable this → reachable (update this message isStatic).1
  | reachable_resetDynamic this :
      reachable this → reachable (resetDynamic this)
  | reachable_clearAll this :
      reachable this → reachable (clearAll this).

(** Every key is a non-empty name and occurs once. *)
Definition wellKeyed (m : JsMap.t FrameTransform) : Prop :=
  NoDup (JsMap.keys m) ∧ Forall (λ k, truthy k = true) (JsMap.keys m).

(** Some stored edge, dynamic or static, shadowed or not, names [f] as
    its parent. *)
Definition namedAsParent (this : TfStore) (f : string) : Prop :=
  ∃ child value,
    (child, value) ∈ this.(dynamicTransforms) ++ this.(staticTransforms)
    ∧ value.(parent) = Some f.

(** One iteration of the loops of [listFrames] over the entries of a map:
    the child, then its parent if it has one. *)
Definition addEdge (frames : JsSet.t) (entry : string * FrameTransform)
  : JsSet.t :=
  let frames := JsSet.add frames entry.1 in
  match entry.2.(parent) with
  | Some p => if truthy p then JsSet.add frames p else frames
  | None => frames
  end.

(** [if (name) frames.add(name)] *)
Definition addExtra (frames : JsSet.t) (name : string) : JsSet.t :=
  if truthy name then JsSet.add frames name else frames.

(** *** The order of [sort()]

    [sort()] without a comparator compares strings by their UTF-16 code
    units.  A string of the embedding holds the UTF-8 bytes of the
    JavaScript string, and [codeUnits] gives its code units back. *)

(** The six bits that a continuation byte 10xxxxxx carries. *)
Definition continuation (c : ascii) : option N :=
  let b := N_of_ascii c in
  if ((128 <=? b) && (b <? 192))%N then Some (b - 128)%N else None.

(** The code units of a code point: itself in the basic plane, a pair of
    surrogates above it. *)
Definition utf16 (codePoint : N) : list N :=
  if (codePoint <? 65536)%N then [codePoint]
  else [(55296 + (codePoint - 65536) / 1024)%N;
        (56320 + (codePoint - 65536) mod 1024)%N].

(** UTF-8 decoding, a character of one to four bytes at a time; a byte
    that does not start a character of UTF-8 stands for itself. *)
Fixpoint codeUnits (s : string) : list N :=
  match s with
  | EmptyString => []
  | String c rest =>
      let b := N_of_ascii c in
      let single := b :: codeUnits rest in
      if ((b <? 192) || (247 <? b))%N then single
      else
        match rest with
        | String c1 rest1 =>
            match continuation c1 with
            | Some x1 =>
                if (b <? 224)%N
                then utf16 ((b - 192) * 64 + x1) ++ codeUnits rest1
                else
                  match rest1 with
                  | String c2 rest2 =>
                      match continuation c2 with
                      | Some x2 =>
                          if (b <? 240)%N
                          then utf16 (((b - 224) * 64 + x1) * 64 + x2)
                               ++ codeUnits rest2
                          else
                            match rest2 with
                            | String c3 rest3 =>
                                match continuation c3 with
                                | Some x3 =>
                                    utf16 ((((b - 240) * 64 + x1) * 64 + x2)
                                           * 64 + x3)
                                    ++ codeUnits rest3
                                | None => single
                                end
                            | EmptyString => single
                            end
                      | None => single
                      end
                  | EmptyString => single
                  end
            | None => single
            end
        | EmptyString => single
        end
  end.

(** The first code unit that differs decides; a proper prefix goes
    first. *)
Fixpoint compareUnits (a b : list N) : comparison :=
  match a, b with
  | [], [] => Eq
  | [], _ :: _ => Lt
  | _ :: _, [] => Gt
  | x :: a, y :: b =>
      match (x ?= y)%N with
      | Eq => compareUnits a b
      | c => c
      end
  end.

(** The comparison of two strings by [sort()].  Strings with the same
    code units are the same JavaScript string; byte strings that are not
    UTF-8 are told apart by their bytes. *)
Definition compareStrings (a b : string) : comparison :=
  match compareUnits (codeUnits a) (codeUnits b) with
  | Eq => String.compare a b
  | c => c
  end.

Definition codeLeb (a b : string) : bool :=
  match compareStrings a b with
  | Gt => false
  | _ => true
  end.

Definition codeLe (a b : string) : Prop := codeLeb a b = true.

Definition codeLt (a b : string) : Prop := compareStrings a b = Lt.

#[export] Instance codeLe_dec a b : Decision (codeLe a b) :=
  decide (codeLeb a b = true).

(** [Array.prototype.sort] on strings that are pairwise different: the
    increasing arrangement, whatever the algorithm of the engine. *)
Definition sort (names : list string) : list string := merge_sort codeLe names.

(** U+FF5E, the bytes EF BD 9E, and U+1F600, the bytes F0 9F 98 80. *)
Definition fullwidthTilde : string :=
  String "239" (String "189" (String "158" EmptyString)).

Definition grinningFace : string :=
  String "240" (String "159" (String "152" (String "128" EmptyString))).

Definition listFrames (this : TfStore) (extra : option (list string))
  : list string :=
  let frames := fold_left addEdge this.(dynamicTransforms) [] in
  let frames := fold_left addEdge this.(staticTransforms) frames in
  let frames := fold_left addExtra (default [] extra) frames in
  sort (List.filter truthy frames).

(** The translation matrix of three numbers. *)
Definition translationMatrix (x y z : number) : Matrix4 :=
  mkMatrix4 1 0 0 0  0 1 0 0  0 0 1 0  x y z 1.

(** A member that is absent counts as zero. *)
Definition orZero (v : option number) : number := default 0%float v.

End TfFrames.

(** ** The point-record decoder: integer coordinates *)

Module Clouds.
Import PointCloud.

#[local] Open Scope Z_scope.




(** The first record of [int16Cloud], twice, with a [point_step] of
    zero. *)
Definition zeroStepCloud : PointCloud2Message :=
  mkPointCloud2Message None 1 2
    [mkPointField "x" 0 INT16 1; mkPointField "y" 2 INT16 1;
     mkPointField "z" 4 INT16 1]
    None 0 0
    (Some [Byte.x01; Byte.x00; Byte.xff; Byte.xff; Byte.x00; Byte.x80]).

End Clouds.

(** ** The panel ([ScenePanel.tsx]): the effects that feed the two engines *)

Module Panel.

#[local] Abbreviation result := PointCloud.result.
#[local] Abbreviation Ok := PointCloud.Ok.
#[local] Abbreviation Throw := PointCloud.Throw.

Record InteractionTopics := mkInteractionTopics
  { initialPose : string; goalPose : string; clickedPoint : string }.

Record PanelConfig := mkPanelConfig
  { pointCloudTopics : list string;
    tfTopic : string;
    tfStaticTopic : option string;
    fixedFrame : string;
    interactionTopics : InteractionTopics }.

Definition DEFAULT_CONFIG : PanelConfig :=
  mkPanelConfig [] "/tf" (Some "/tf_static") "map"
    (mkInteractionTopics "/initialpose" "/move_base_simple/goal"
       "/clicked_point").

(** The message of an event.  The panel subscribes to point clouds and to
    transform messages, and reads [event.message] as the type the branch
    that handles the event expects. *)
Inductive Message :=
  | CloudMessage (m : PointCloud.PointCloud2Message)
  | TransformMessage (m : Tf.TfMessage).

Record MessageEvent := mkMessageEvent
  { topic : string; schemaName : string; message : Message }.

Definition isPointCloudSchema (schema : option string) : bool :=
  match schema with
  | Some s =>
      String.eqb s "sensor_msgs/PointCloud2" || String.eqb s "foxglove.PointCloud"
  | None => false
  end.

(** [Array.from(new Set(values.filter(Boolean)))] *)
Definition unique (values : list (option string)) : list string :=
  fold_left JsSet.add
    (omap (λ value, match value with
                    | Some s => if truthy s then Some s else None
                    | None => None
                    end) values)
    [].

(** [values.filter(Boolean)]: the names that are present and not empty,
    in the order of the list. *)
Definition present (values : list (option string)) : list string :=
  omap (λ value, match value with
                 | Some s => if truthy s then Some s else None
                 | None => None
                 end) values.

(** Every element of a list once, at the place of its first occurrence. *)
Fixpoint firstOccurrences (l : list string) : list string :=
  match l with
  | [] => []
  | x :: l => x :: List.filter (λ y, negb (String.eqb y x)) (firstOccurrences l)
  end.

(** The topics of the subscriptions the panel asks for. *)
Definition subscriptions (config : PanelConfig) : list string :=
  List.filter truthy config.(pointCloudTopics)
  ++ (if truthy config.(tfTopic) then [config.(tfTopic)] else [])
  ++ match config.(tfStaticTopic) with
     | Some t =>
         if truthy t && negb (String.eqb t config.(tfTopic)) then [t] else []
     | None => []
     end.

(** [parsePointCloud2(event.topic, event.message as never)]: a transform
    message has no [width] and no [height], so [Number(undefined) || 0]
    makes the point count zero. *)
Definition parseMessage (topic : string) (message : Message)
  : result (option PointCloud.ParsedPointCloud) :=
  match message with
  | CloudMessage m => PointCloud.parsePointCloud2 topic m
  | TransformMessage _ => Ok None
  end.

(** [tfStore.update(event.message as never, isStatic)]: a point cloud has
    no [transforms]. *)
Definition updateMessage (store : Tf.TfStore) (message : Message)
    (isStatic : bool) : Tf.TfStore * bool :=
  match message with
  | TransformMessage m => Tf.update store m isStatic
  | CloudMessage _ => Tf.update store (Tf.mkTfMessage None) isStatic
  end.

(** The two stores behind the refs and the two flags of the event loop. *)
Record Loop := mkLoop
  { l_tfStore : Tf.TfStore;
    l_pointCloudStore : JsMap.t PointCloud.ParsedPointCloud;
    cloudsChanged : bool;
    tfChanged : bool }.

(** [event.topic === config.tfStaticTopic] *)
Definition isStaticTopic (config : PanelConfig) (topic : string) : bool :=
  match config.(tfStaticTopic) with
  | Some t => String.eqb topic t
  | None => false
  end.

(** The event is one of those the loop acts on. *)
Definition handled (config : PanelConfig) (event : MessageEvent) : bool :=
  bool_decide (event.(topic) ∈ config.(pointCloudTopics))
  && isPointCloudSchema (Some event.(schemaName))
  || String.eqb event.(topic) config.(tfTopic)
  || isStaticTopic config event.(topic).

(** The body of the loop over [currentFrame]. *)
Definition handleEvent (config : PanelConfig) (st : Loop)
    (event : option MessageEvent) : result Loop :=
  match event with
  | None => Ok st
  | Some event =>
      if bool_decide (event.(topic) ∈ config.(pointCloudTopics))
         && isPointCloudSchema (Some event.(schemaName))
      then
        match parseMessage event.(topic) event.(message) with
        | Throw e => Throw e
        | Ok (Some parsed) =>
            Ok (mkLoop st.(l_tfStore)
                  (JsMap.set st.(l_pointCloudStore) event.(topic) parsed)
                  true st.(tfChanged))
        | Ok None => Ok st
        end
      else if String.eqb event.(topic) config.(tfTopic) then
        let r := updateMessage st.(l_tfStore) event.(message) false in
        Ok (mkLoop r.1 st.(l_pointCloudStore) st.(cloudsChanged)
              (r.2 || st.(tfChanged)))
      else if isStaticTopic config event.(topic) then
        let r := updateMessage st.(l_tfStore) event.(message) true in
        Ok (mkLoop r.1 st.(l_pointCloudStore) st.(cloudsChanged)
              (r.2 || st.(tfChanged)))
      else Ok st
  end.

(** [for (const event of currentFrame)]: the stores are changed in place,
    so an exception leaves them as the events before it made them. *)
Fixpoint handleEvents (config : PanelConfig)
    (events : list (option MessageEvent)) (st : Loop)
  : Loop * option PointCloud.exn :=
  match events with
  | [] => (st, None)
  | event :: rest =>
      match handleEvent config st event with
      | Ok st' => handleEvents config rest st'
      | Throw e => (st, Some e)
      end
  end.

(** A flag that stays down tells that its store is as it was, and no
    cloud is ever dropped. *)
Definition steady (st st' : Loop) : Prop :=
  (st'.(tfChanged) = false →
   st.(tfChanged) = false ∧ st'.(l_tfStore) = st.(l_tfStore))
  ∧ (st'.(cloudsChanged) = false →
     st.(cloudsChanged) = false
     ∧ st'.(l_pointCloudStore) = st.(l_pointCloudStore))
  ∧ (∀ t, t ∈ JsMap.keys st.(l_pointCloudStore) →
          t ∈ JsMap.keys st'.(l_pointCloudStore)).

(** What the panel keeps between renders: the two refs and the two
    version counters whose change makes the scene be rebuilt. *)
Record PanelState := mkPanelState
  { tfStore : Tf.TfStore;
    pointCloudStore : JsMap.t PointCloud.ParsedPointCloud;
    pointCloudVersion : nat;
    tfVersion : nat }.

(** The effect on [currentFrame]. *)
Definition onCurrentFrame (config : PanelConfig) (st : PanelState)
    (currentFrame : option (list (option MessageEvent)))
  : PanelState * option PointCloud.exn :=
  match currentFrame with
  | None | Some [] => (st, None)
  | Some events =>
      match handleEvents config events
              (mkLoop st.(tfStore) st.(pointCloudStore) false false) with
      | (loop, None) =>
          (mkPanelState loop.(l_tfStore) loop.(l_pointCloudStore)
             (if loop.(cloudsChanged) then S st.(pointCloudVersion)
              else st.(pointCloudVersion))
             (if loop.(tfChanged) then S st.(tfVersion) else st.(tfVersion)),
           None)
      | (loop, Some e) =>
          (mkPanelState loop.(l_tfStore) loop.(l_pointCloudStore)
             st.(pointCloudVersion) st.(tfVersion),
           Some e)
      end
  end.

(** [context.onRender]: what a seek does to the panel's state. *)
Definition onRender (didSeek : bool) (st : PanelState) : PanelState :=
  if didSeek then
    mkPanelState (Tf.resetDynamic st.(tfStore)) JsMap.empty
      (S st.(pointCloudVersion)) (S st.(tfVersion))
  else st.

Record PointCloudRenderable := mkPointCloudRenderable
  { r_id : string;
    r_frameId : string;
    r_positions : list number;
    r_colors : option (list number);
    r_matrix : Matrix4 }.

Record SceneData := mkSceneData
  { pointClouds : list PointCloudRenderable; sceneFrames : list Tf.FramePose }.

(** [(matrixMap.get(cloud.frameId) ?? new Matrix4()).clone()] *)
Definition renderable (matrixMap : gmap string Matrix4)
    (cloud : PointCloud.ParsedPointCloud) : PointCloudRenderable :=
  mkPointCloudRenderable cloud.(PointCloud.id) cloud.(PointCloud.frameId)
    cloud.(PointCloud.positions) cloud.(PointCloud.colors)
    (default Three.identity (matrixMap !! cloud.(PointCloud.frameId))).

(** [frameList.length > 0 ? frameList : [config.fixedFrame]] *)
Definition orFixedFrame (frameList : list string) (fixedFrame : string)
  : list string :=
  if (0 <? length frameList)%nat then frameList else [fixedFrame].

(** The effect that rebuilds the scene: the scene data and the available
    frames it sets.  [None] stands for exhausted fuel in the pose pass. *)
Definition rebuildScene (config : PanelConfig) (st : PanelState)
  : option (SceneData * list string) :=
  match Tf.buildPoseData st.(tfStore) (Some config.(fixedFrame)) with
  | None => None
  | Some tfData =>
      let clouds :=
        map (renderable tfData.(Tf.pd_matrixMap))
          (JsMap.values st.(pointCloudStore)) in
      let frameList :=
        TfFrames.listFrames st.(tfStore)
          (Some (config.(fixedFrame) :: map r_frameId clouds)) in
      Some (mkSceneData clouds tfData.(Tf.pd_frames),
            orFixedFrame frameList config.(fixedFrame))
  end.

(** The state of a panel that has just been mounted. *)
Definition newPanel : PanelState := mkPanelState Tf.empty JsMap.empty 0 0.

(** The states of the panel: the new one, and what the two handlers make
    of a state, under the configuration of the moment. *)
Inductive panelReachable : PanelState → Prop :=
  | panelReachable_new : panelReachable newPanel
  | panelReachable_frame config st currentFrame :
      panelReachable st →
      panelReachable (onCurrentFrame config st currentFrame).1
  | panelReachable_render didSeek st :
      panelReachable st → panelReachable (onRender didSeek st).

(** Every cloud of the cache is stored under its own id, once. *)
Definition keyedById (m : JsMap.t PointCloud.ParsedPointCloud) : Prop :=
  NoDup (JsMap.keys m)
  ∧ Forall (λ entry, entry.2.(PointCloud.id) = entry.1) m.

(** *** Example events *)

Definition cloudConfig : PanelConfig :=
  mkPanelConfig ["/points"] "/tf" (Some "/tf_static") "map"
    DEFAULT_CONFIG.(interactionTopics).

Definition tfEvent : MessageEvent :=
  mkMessageEvent "/tf" "tf2_msgs/TFMessage"
    (TransformMessage
       (TfSpec.batch [TfSpec.stamped "base" "map" 1 0 0 None])).

Definition cloudEvent (m : PointCloud.PointCloud2Message) : MessageEvent :=
  mkMessageEvent "/points" "sensor_msgs/PointCloud2" (CloudMessage m).

End Panel.

(** ** The 3D view ([ThreeScene.tsx]): the height of the interaction plane *)

Module Scene.

Definition HEIGHT_MIN : number := (-10)%float.
Definition HEIGHT_MAX : number := 60%float.

(** [poseHeightRef.current] and [planeRef.current.constant]. *)
Record PlaneState := mkPlaneState { poseHeight : number; planeConstant : number }.

Definition setInteractionPlaneHeight (height : number) : PlaneState :=
  let clamped :=
    PointCloud.Math_max HEIGHT_MIN (PointCloud.Math_min HEIGHT_MAX height) in
  mkPlaneState clamped (- clamped)%float.

End Scene.

(** ** Comparisons of numbers *)

Module NumberFacts.

Lemma SFcompare_antisym x y :
  SFcompare x y = option_map CompOpp (SFcompare y x).
Proof.
  destruct x as [sx|sx| |sx mx ex], y as [sy|sy| |sy my ey]; cbn;
    try done; try (by destruct sx); try (by destruct sy);
    try (by destruct sx, sy).
  destruct sx, sy; cbn; try done;
    rewrite (Z.compare_antisym ey ex); destruct (ey ?= ex)%Z; cbn; try done;
    do 2 f_equal; exact (eq_sym (Pos.compare_cont_antisym my mx Eq)).
Qed.

Lemma SFcompare_None x y :
  SFcompare x y = None → x = S754_nan ∨ y = S754_nan.
Proof.
  destruct x as [sx|sx| |sx mx ex], y as [sy|sy| |sy my ey]; cbn; auto;
    try (by destruct sx); try (by destruct sy); by destruct sx, sy.
Qed.

Lemma is_nan_spec x : PrimFloat.is_nan x = true ↔ Prim2SF x = S754_nan.
Proof.
  unfold PrimFloat.is_nan. rewrite FloatAxioms.eqb_spec. unfold SFeqb.
  destruct (Prim2SF x) as [s|s| |s m e]; cbn.
  - split; done.
  - destruct s; split; done.
  - split; done.
  - destruct s; rewrite Z.compare_refl, Pos.compare_cont_refl; split; done.
Qed.

Lemma eqb_sym x y : PrimFloat.eqb x y = PrimFloat.eqb y x.
Proof.
  rewrite !FloatAxioms.eqb_spec. unfold SFeqb.
  rewrite (SFcompare_antisym (Prim2SF x) (Prim2SF y)).
  by destruct (SFcompare (Prim2SF y) (Prim2SF x)) as [[]|].
Qed.



Lemma not_nan x : PrimFloat.is_nan x = false → Prim2SF x ≠ S754_nan.
Proof. intros Hx Hn. apply is_nan_spec in Hn. congruence. Qed.

Lemma ltb_leb x y : PrimFloat.ltb x y = true → PrimFloat.leb x y = true.
Proof.
  rewrite FloatAxioms.ltb_spec, FloatAxioms.leb_spec. unfold SFltb, SFleb.
  by destruct (SFcompare (Prim2SF x) (Prim2SF y)) as [[]|].
Qed.

Lemma not_ltb_leb x y :
  PrimFloat.is_nan x = false → PrimFloat.is_nan y = false →
  PrimFloat.ltb y x = false → PrimFloat.leb x y = true.
Proof.
  intros Hx%not_nan Hy%not_nan.
  rewrite FloatAxioms.ltb_spec, FloatAxioms.leb_spec. unfold SFltb, SFleb.
  rewrite (SFcompare_antisym (Prim2SF x) (Prim2SF y)).
  destruct (SFcompare (Prim2SF y) (Prim2SF x)) as [[]|] eqn:Hc; cbn; try done.
  by apply SFcompare_None in Hc as [?|?].
Qed.

Lemma leb_not_ltb x y :
  PrimFloat.leb x y = true → PrimFloat.ltb y x = false.
Proof.
  rewrite FloatAxioms.ltb_spec, FloatAxioms.leb_spec. unfold SFltb, SFleb.
  rewrite (SFcompare_antisym (Prim2SF x) (Prim2SF y)).
  by destruct (SFcompare (Prim2SF y) (Prim2SF x)) as [[]|].
Qed.

Lemma leb_refl x : PrimFloat.is_nan x = false → PrimFloat.leb x x = true.
Proof.
  intros Hx. apply not_ltb_leb; [done|done|].
  rewrite FloatAxioms.ltb_spec. unfold SFltb.
  pose proof (SFcompare_antisym (Prim2SF x) (Prim2SF x)) as Ha.
  by destruct (SFcompare (Prim2SF x) (Prim2SF x)) as [[]|].
Qed.

Lemma leb_not_nan x y :
  PrimFloat.leb x y = true →
  PrimFloat.is_nan x = false ∧ PrimFloat.is_nan y = false.
Proof.
  rewrite FloatAxioms.leb_spec. unfold SFleb. intros Hle.
  split; apply not_true_iff_false; intros Hn%is_nan_spec; rewrite Hn in Hle.
  - done.
  - by destruct (Prim2SF x).
Qed.

Lemma is_nan_nan : PrimFloat.is_nan PrimFloat.nan = true.
Proof. reflexivity. Qed.

(** [Math.min(hi, x)] for a number [hi]. *)
Lemma Math_min_cases hi x :
  PrimFloat.is_nan hi = false →
  let m := PointCloud.Math_min hi x in
  (PrimFloat.is_nan x = true ∧ m = PrimFloat.nan)
  ∨ (PrimFloat.is_nan x = false ∧ PrimFloat.is_nan m = false
     ∧ PrimFloat.leb m hi = true ∧ (m = x ∨ m = hi)).
Proof.
  intros Hhi. pose proof (leb_refl _ Hhi) as Hhihi.
  unfold PointCloud.Math_min. rewrite Hhi.
  destruct (PrimFloat.is_nan x) eqn:Hx; [by left|]. right.
  change (false || false) with false. cbv iota.
  destruct (PrimFloat.ltb hi x) eqn:H1; [by auto|].
  destruct (PrimFloat.ltb x hi) eqn:H2; [by auto using ltb_leb|].
  destruct (PrimFloat.get_sign hi); [by auto|].
  split_and!; auto using not_ltb_leb.
Qed.

(** [Math.max(lo, m)] for two numbers. *)
Lemma Math_max_cases lo m :
  PrimFloat.is_nan lo = false → PrimFloat.is_nan m = false →
  let r := PointCloud.Math_max lo m in
  PrimFloat.leb lo r = true ∧ (r = m ∨ r = lo).
Proof.
  intros Hlo Hm. pose proof (leb_refl _ Hlo) as Hlolo.
  unfold PointCloud.Math_max. rewrite Hlo, Hm.
  change (false || false) with false. cbv iota.
  destruct (PrimFloat.ltb lo m) eqn:H1; [by auto using ltb_leb|].
  destruct (PrimFloat.ltb m lo) eqn:H2; [by auto|].
  destruct (PrimFloat.get_sign lo); [|by auto].
  split; [|by left]. by apply not_ltb_leb.
Qed.

(** [Math.max(lo, Math.min(hi, x))]: not a number for an [x] that is not
    a number, otherwise one of [lo], [hi] and [x], inside the range. *)
Lemma clamp_within lo hi x :
  PrimFloat.leb lo hi = true →
  let r := PointCloud.Math_max lo (PointCloud.Math_min hi x) in
  (PrimFloat.is_nan x = true ∧ r = PrimFloat.nan)
  ∨ (PrimFloat.is_nan x = false ∧ within lo hi r = true
     ∧ (r = x ∨ r = lo ∨ r = hi)).
Proof.
  intros Hle. destruct (leb_not_nan _ _ Hle) as [Hlo Hhi]. cbn zeta.
  destruct (Math_min_cases hi x Hhi) as [[Hx ->]|(Hx & Hm & Hmhi & Hwhich)].
  { left. split; [done|]. unfold PointCloud.Math_max.
    by rewrite is_nan_nan, orb_true_r. }
  right. split; [done|].
  destruct (Math_max_cases lo _ Hlo Hm) as [Hlor [Hr|Hr]];
    rewrite Hr in Hlor |- *; unfold within.
  - rewrite Hlor, Hmhi. split; [done|]. destruct Hwhich; auto.
  - rewrite Hle, (leb_refl _ Hlo). auto.
Qed.

(** Inside the range the clamp returns its argument, when the lower
    bound is negative and the upper bound positive. *)
Lemma clamp_inside lo hi x :
  PrimFloat.get_sign lo = true → PrimFloat.get_sign hi = false →
  within lo hi x = true →
  PointCloud.Math_max lo (PointCloud.Math_min hi x) = x.
Proof.
  intros Hslo Hshi. unfold within. intros [Hlox Hxhi]%andb_true_iff.
  destruct (leb_not_nan _ _ Hlox) as [Hlo Hx].
  destruct (leb_not_nan _ _ Hxhi) as [_ Hhi].
  assert (PointCloud.Math_min hi x = x) as ->.
  { unfold PointCloud.Math_min. rewrite Hhi, Hx.
    change (false || false) with false. cbv iota.
    rewrite (leb_not_ltb _ _ Hxhi), Hshi.
    by destruct (PrimFloat.ltb x hi). }
  unfold PointCloud.Math_max. rewrite Hlo, Hx.
  change (false || false) with false. cbv iota.
  rewrite (leb_not_ltb _ _ Hlox), Hslo.
  by destruct (PrimFloat.ltb lo x).
Qed.

Lemma ltb_not_nan x y :
  PrimFloat.ltb x y = true →
  PrimFloat.is_nan x = false ∧ PrimFloat.is_nan y = false.
Proof. intros Hlt. by apply leb_not_nan, ltb_leb. Qed.

(** Above the range the clamp returns the upper bound. *)
Lemma clamp_above lo hi x :
  PrimFloat.ltb lo hi = true → PrimFloat.ltb hi x = true →
  PointCloud.Math_max lo (PointCloud.Math_min hi x) = hi.
Proof.
  intros Hlohi Hhix.
  destruct (ltb_not_nan _ _ Hlohi) as [Hlo Hhi].
  destruct (ltb_not_nan _ _ Hhix) as [_ Hx].
  unfold PointCloud.Math_min. rewrite Hhi, Hx, Hhix.
  change (false || false) with false. cbv iota.
  unfold PointCloud.Math_max. rewrite Hlo, Hhi, Hlohi. done.
Qed.

(** Below the range the clamp returns the lower bound, when the lower
    bound is a negative and the upper bound a positive number. *)
Lemma clamp_below lo hi x ml el mh eh :
  Prim2SF lo = S754_finite true ml el →
  Prim2SF hi = S754_finite false mh eh →
  PrimFloat.ltb x lo = true →
  PointCloud.Math_max lo (PointCloud.Math_min hi x) = lo.
Proof.
  intros Hlo Hhi Hxlo.
  destruct (ltb_not_nan _ _ Hxlo) as [Hx Hnlo].
  assert (PrimFloat.is_nan hi = false) as Hnhi.
  { apply not_true_iff_false. intros Hn%is_nan_spec. congruence. }
  assert (PrimFloat.ltb hi x = false ∧ PrimFloat.ltb x hi = true)
    as [Hhix Hxhi].
  { revert Hxlo. rewrite !FloatAxioms.ltb_spec, Hlo, Hhi. unfold SFltb.
    destruct (Prim2SF x) as [[]|[]| |[] mx ex]; cbn; done. }
  assert (PointCloud.Math_min hi x = x) as ->.
  { unfold PointCloud.Math_min. rewrite Hnhi, Hx, Hhix, Hxhi. done. }
  unfold PointCloud.Math_max.
  rewrite Hnlo, Hx, (leb_not_ltb _ _ (ltb_leb _ _ Hxlo)), Hxlo. done.
Qed.

End NumberFacts.

(** ** The transform store: lemmas *)

Module TfFacts.
Import Tf TfSpec.

Lemma JsMap_get_keys {V} (m : JsMap.t V) k v :
  JsMap.get m k = Some v → k ∈ JsMap.keys m.
Proof.
  induction m as [|[k' v'] m IH]; simpl; [done|].
  case_decide as Hk.
  - intros _. subst. apply list_elem_of_here.
  - intros H. apply list_elem_of_further. by apply IH.
Qed.

Lemma lookupTransform_edgeFrames this frame t :
  lookupTransform this frame = Some t → frame ∈ edgeFrames this.
Proof.
  unfold lookupTransform, edgeFrames. intros H.
  apply elem_of_list_to_set, elem_of_app.
  destruct (JsMap.get (dynamicTransforms this) frame) eqn:Hd.
  - left. by eapply JsMap_get_keys.
  - right. by eapply JsMap_get_keys.
Qed.

Lemma size_list_to_set_le (l : list string) :
  size (list_to_set l : gset string) ≤ length l.
Proof.
  induction l as [|x l IH].
  - rewrite list_to_set_nil, size_empty. simpl. lia.
  - rewrite list_to_set_cons, size_union_alt, size_singleton. simpl.
    assert (size (list_to_set l ∖ {[x]} : gset string) ≤ size (list_to_set l : gset string))
      as Hle by (apply subseteq_size; set_solver).
    lia.
Qed.

#[local] Arguments walkFuel : simpl never.

Lemma edgeFrames_fuel this : size (edgeFrames this) < walkFuel this.
Proof.
  unfold edgeFrames, walkFuel.
  pose proof (size_list_to_set_le (JsMap.keys (dynamicTransforms this)
               ++ JsMap.keys (staticTransforms this))) as H.
  unfold JsMap.keys in *. rewrite length_app, !length_map in H. lia.
Qed.

(** Enough fuel: more than the number of edge frames not yet in progress. *)
Lemma resolveWorldMatrix_total this fuel :
  ∀ frame cache stack,
    size (edgeFrames this ∖ stack) < fuel →
    is_Some (resolveWorldMatrix fuel this frame cache stack).
Proof.
  induction fuel as [|fuel IH]; intros frame cache stack Hsz; [lia|].
  simpl. case_decide; [eauto|]. case_decide as Hst; [eauto|].
  destruct (lookupTransform this frame) as [t|] eqn:Ht; [|eauto].
  destruct (parentLink t frame) as [p|]; [|eauto].
  destruct (IH p cache (stack ∪ {[frame]})) as [[r c] Hr].
  - apply lookupTransform_edgeFrames in Ht.
    assert (edgeFrames this ∖ (stack ∪ {[frame]}) ⊂ edgeFrames this ∖ stack) as Hsub
      by set_solver.
    apply subset_size in Hsub. lia.
  - rewrite Hr. eauto.
Qed.

(** What one call does to the cache: it only adds entries, never for a
    frame in progress, and the answer for a frame that is not in progress
    is the entry it leaves in the cache. *)
Lemma resolveWorldMatrix_cache this fuel :
  ∀ frame cache stack r cache',
    resolveWorldMatrix fuel this frame cache stack = Some (r, cache') →
    cache ⊆ cache'
    ∧ (∀ k, k ∈ stack → cache !! k = None → cache' !! k = None)
    ∧ is_Some r
    ∧ (frame ∉ stack → cache' !! frame = r).
Proof.
  induction fuel as [|fuel IH]; intros frame cache stack r cache'; [done|].
  simpl. case_decide as Hc.
  { intros [= <- <-]. done. }
  case_decide as Hst.
  { intros [= <- <-]. split_and!; eauto. done. }
  assert (cache !! frame = None) as Hnone
    by (destruct (cache !! frame) eqn:E; [exfalso; apply Hc; eauto|done]).
  destruct (lookupTransform this frame) as [t|] eqn:Ht.
  - destruct (parentLink t frame) as [p|].
    + destruct (resolveWorldMatrix fuel this p cache (stack ∪ {[frame]}))
        as [[r1 c1]|] eqn:Hr; [|done].
      intros [= <- <-].
      destruct (IH _ _ _ _ _ Hr) as (Hsub & Hstack & _ & _).
      assert (c1 !! frame = None) as Hc1 by (apply Hstack; [set_solver|done]).
      split_and!; eauto.
      * etrans; [exact Hsub|]. by apply insert_subseteq.
      * intros k Hk Hck. rewrite lookup_insert_ne by set_solver.
        apply Hstack; [set_solver|done].
      * intros _. by rewrite lookup_insert_eq.
    + intros [= <- <-]. split_and!; eauto.
      * by apply insert_subseteq.
      * intros k Hk Hck. rewrite lookup_insert_ne by set_solver. done.
      * intros _. by rewrite lookup_insert_eq.
  - intros [= <- <-]. rewrite lookup_insert_eq. split_and!; eauto.
    + by apply insert_subseteq.
    + intros k Hk Hck. rewrite lookup_insert_ne by set_solver. done.
Qed.

(** *** The world matrix by walking parent links *)

Lemma worldMatrix_unfold depth this frame :
  worldMatrix depth this frame =
  match lookupTransform this frame with
  | None => Some IDENTITY
  | Some transform =>
      match parentLink transform frame with
      | None => Some (Three.multiply IDENTITY transform.(matrix))
      | Some p =>
          match depth with
          | O => None
          | S d =>
              match worldMatrix d this p with
              | Some parentMatrix =>
                  Some (Three.multiply parentMatrix transform.(matrix))
              | None => None
              end
          end
      end
  end.
Proof. by destruct depth. Qed.

Lemma above_not_in_progress this stack frame :
  above this stack frame → frame ∈ stack →
  ∀ n M, worldMatrix n this frame ≠ Some M.
Proof.
  intros Hab Hin n. induction n as [n IH] using lt_wf_ind.
  intros M HM. destruct (Hab _ Hin _ _ HM) as (m & M' & Hlt & HM').
  by eapply IH.
Qed.

Lemma resolveWorldMatrix_consistent this fuel :
  ∀ frame cache stack r cache',
    resolveWorldMatrix fuel this frame cache stack = Some (r, cache') →
    consistent this cache → above this stack frame →
    consistent this cache'
    ∧ (∀ n M, worldMatrix n this frame = Some M → r = Some M).
Proof.
  induction fuel as [|fuel IH]; intros frame cache stack r cache'; [done|].
  simpl. case_decide as Hc.
  { intros [= <- <-] Hcons Hab. split; [done|].
    intros n M HM. destruct Hc as [v Hv]. rewrite Hv. f_equal. by eapply Hcons. }
  case_decide as Hst.
  { intros [= <- <-] Hcons Hab. split; [done|].
    intros n M HM. by destruct (above_not_in_progress _ _ _ Hab Hst n M). }
  destruct (lookupTransform this frame) as [t|] eqn:Ht.
  - destruct (parentLink t frame) as [p|] eqn:Hp.
    + destruct (resolveWorldMatrix fuel this p cache (stack ∪ {[frame]}))
        as [[r1 c1]|] eqn:Hr; [|done].
      intros [= <- <-] Hcons Hab.
      assert (∀ n M, worldMatrix n this frame = Some M →
                ∃ d P, n = S d ∧ worldMatrix d this p = Some P
                       ∧ M = Three.multiply P (matrix t)) as Hinv.
      { intros n M. rewrite worldMatrix_unfold, Ht, Hp.
        destruct n as [|d]; [done|].
        destruct (worldMatrix d this p) as [P|] eqn:HP; [|done].
        intros [= <-]. by exists d, P. }
      destruct (IH _ _ _ _ _ Hr Hcons) as [Hcons1 Hres1].
      { intros k Hk n M HM. apply elem_of_union in Hk as [Hk|Hk].
        - destruct (Hab _ Hk _ _ HM) as (m & M' & Hlt & HM').
          destruct (Hinv _ _ HM') as (d & P & -> & HP & _).
          exists d, P. split; [lia|done].
        - apply elem_of_singleton in Hk as ->.
          destruct (Hinv _ _ HM) as (d & P & -> & HP & _).
          exists d, P. split; [lia|done]. }
      assert (∀ n M, worldMatrix n this frame = Some M →
                M = Three.multiply (default IDENTITY r1) (matrix t)) as Hval.
      { intros n M HM. destruct (Hinv _ _ HM) as (d & P & -> & HP & ->).
        by rewrite (Hres1 _ _ HP). }
      split.
      * intros k v n M. destruct (decide (k = frame)) as [->|Hne].
        -- rewrite lookup_insert_eq. intros [= <-] HM. symmetry. by eapply Hval.
        -- rewrite lookup_insert_ne by done. apply Hcons1.
      * intros n M HM. f_equal. symmetry. by eapply Hval.
    + intros [= <- <-] Hcons Hab.
      assert (∀ n M, worldMatrix n this frame = Some M →
                M = Three.multiply IDENTITY (matrix t)) as Hval.
      { intros n M. rewrite worldMatrix_unfold, Ht, Hp. by intros [= <-]. }
      split.
      * intros k v n M. destruct (decide (k = frame)) as [->|Hne].
        -- rewrite lookup_insert_eq. intros [= <-] HM. symmetry. by eapply Hval.
        -- rewrite lookup_insert_ne by done. apply Hcons.
      * intros n M HM. f_equal. symmetry. by eapply Hval.
  - intros [= <- <-] Hcons Hab.
    assert (∀ n M, worldMatrix n this frame = Some M → M = IDENTITY) as Hval.
    { intros n M. rewrite worldMatrix_unfold, Ht. by intros [= <-]. }
    split.
    * intros k v n M. destruct (decide (k = frame)) as [->|Hne].
      -- rewrite lookup_insert_eq. intros [= <-] HM. symmetry. by eapply Hval.
      -- rewrite lookup_insert_ne by done. apply Hcons.
    * intros n M HM. rewrite lookup_insert_eq. f_equal. symmetry. by eapply Hval.
Qed.

(** *** The world matrix of the specification *)





(** *** One pass of [buildPoseData] *)

Lemma JsSet_elem_of_add (s : JsSet.t) x y : y ∈ JsSet.add s x ↔ y ∈ s ∨ y = x.
Proof.
  unfold JsSet.add. case_decide as Hx.
  - split; [by left|]. by intros [?| ->].
  - rewrite elem_of_app, list_elem_of_singleton. done.
Qed.

Lemma fold_poseStep_None this fixed inv names :
  fold_left (poseStep this fixed inv) names None = None.
Proof. by induction names. Qed.

Lemma resolve_top this frame cache :
  ∃ w cache',
    resolveWorldMatrix (walkFuel this) this frame cache ∅ = Some (Some w, cache')
    ∧ cache ⊆ cache' ∧ cache' !! frame = Some w
    ∧ (consistent this cache → consistent this cache').
Proof.
  destruct (resolveWorldMatrix_total this (walkFuel this) frame cache ∅)
    as [[r cache'] Hr].
  { assert (size (edgeFrames this ∖ ∅) ≤ size (edgeFrames this)) as Hle
      by (apply subseteq_size; set_solver).
    pose proof (edgeFrames_fuel this). lia. }
  destruct (resolveWorldMatrix_cache _ _ _ _ _ _ _ Hr) as (Hsub & _ & [w ->] & Hc).
  exists w, cache'. split_and!; [done|done|by apply Hc|].
  intros Hcons. eapply resolveWorldMatrix_consistent; [exact Hr|done|].
  intros k Hk. set_solver.
Qed.

Section pass.
Context (this : TfStore) (fixedFrame : option string) (fixedWorld : Matrix4).

#[local] Abbreviation rel := (relativeTo fixedFrame fixedWorld).
#[local] Abbreviation mapOk := (entriesRelative fixedFrame fixedWorld).

Lemma poseStep_fold names :
  ∀ st0, consistent this st0.(worldCache) → mapOk st0 →
    ∃ stN,
      fold_left (poseStep this fixedFrame (Three.invert fixedWorld)) names
        (Some st0) = Some stN
      ∧ st0.(worldCache) ⊆ stN.(worldCache)
      ∧ consistent this stN.(worldCache)
      ∧ mapOk stN
      ∧ (∀ f, is_Some (st0.(matrixMap) !! f) → is_Some (stN.(matrixMap) !! f))
      ∧ (∀ f, f ∈ names → truthy f = true → is_Some (stN.(matrixMap) !! f))
      ∧ stN.(frames) =
          st0.(frames)
          ++ map (λ f, mkFramePose f (rel (worldOf stN f)))
               (List.filter truthy names).
Proof.
  induction names as [|f names IH]; intros st0 Hcons Hok.
  { exists st0. simpl. rewrite app_nil_r. split_and!; try done.
    intros f Hf. by apply elem_of_nil in Hf. }
  cbn [fold_left List.filter]. unfold poseStep at 2.
  destruct (truthy f) eqn:Htf; cbn [negb].
  - destruct (resolve_top this f st0.(worldCache))
      as (w & c' & -> & Hsub & Hw & Hc').
    cbn [default].
    set (st1 := mkPassState c' _ _).
    destruct (IH st1) as (stN & Hfold & Hsub1 & HconsN & HokN & Hdom & Hcov & Hfr).
    { by apply Hc'. }
    { intros g r. simpl. destruct (decide (g = f)) as [->|Hne].
      - rewrite lookup_insert_eq. intros [= <-]. exists w. split; [done|].
        unfold relativeTo. by destruct (fixedGiven fixedFrame).
      - rewrite lookup_insert_ne by done. intros Hg.
        destruct (Hok _ _ Hg) as (w' & Hw' & ->). exists w'. split; [|done].
        by eapply lookup_weaken. }
    exists stN. split_and!; try done.
    + by etrans.
    + intros g Hg. apply Hdom. simpl.
      destruct (decide (g = f)) as [->|Hne];
        [rewrite lookup_insert_eq|rewrite lookup_insert_ne by done]; eauto.
    + intros g Hg Htg. apply elem_of_cons in Hg as [->|Hg]; [|by apply Hcov].
      apply Hdom. simpl. rewrite lookup_insert_eq. eauto.
    + rewrite Hfr. simpl. rewrite <- app_assoc. simpl. do 3 f_equal.
      unfold worldOf. rewrite (lookup_weaken _ _ _ _ Hw Hsub1). simpl.
      unfold relativeTo. by destruct (fixedGiven fixedFrame).
  - destruct (IH st0 Hcons Hok) as (stN & Hfold & Hsub1 & HconsN & HokN & Hdom & Hcov & Hfr).
    exists stN. split_and!; try done.
    intros g Hg Htg. apply elem_of_cons in Hg as [->|Hg]; [congruence|by apply Hcov].
Qed.
End pass.


(** The pass as a whole: it always completes; the fixed frame and every
    candidate frame have a memoized world matrix, and each entry of the
    result is the relative matrix built from those two. *)
Lemma buildPoseDataPass_correct this fixedFrame :
  ∃ st fixedWorld,
    buildPoseDataPass this fixedFrame = Some st
    ∧ consistent this st.(worldCache)
    ∧ match fixedGiven fixedFrame with
      | Some F => st.(worldCache) !! F = Some fixedWorld
      | None => fixedWorld = IDENTITY
      end
    ∧ (∀ f, f ∈ frameNames this fixedFrame → truthy f = true →
         ∃ w, st.(worldCache) !! f = Some w
              ∧ st.(matrixMap) !! f = Some (relativeTo fixedFrame fixedWorld w))
    ∧ st.(frames) =
        map (λ f, mkFramePose f (relativeTo fixedFrame fixedWorld (worldOf st f)))
          (List.filter truthy (frameNames this fixedFrame)).
Proof.
  unfold buildPoseDataPass.
  assert (consistent this ∅) as Hempty by (intros k v n M; by rewrite lookup_empty).
  assert (∃ fixedWorld cache,
    match fixedGiven fixedFrame with
    | Some f =>
        match resolveWorldMatrix (walkFuel this) this f ∅ ∅ with
        | Some (r, cache) => Some (default IDENTITY r, cache)
        | None => None
        end
    | None => Some (IDENTITY, ∅)
    end = Some (fixedWorld, cache)
    ∧ consistent this cache
    ∧ match fixedGiven fixedFrame with
      | Some F => cache !! F = Some fixedWorld
      | None => fixedWorld = IDENTITY
      end) as (fixedWorld & cache & -> & Hcons & Hfixed).
  { destruct (fixedGiven fixedFrame) as [F|].
    - destruct (resolve_top this F ∅) as (w & c & -> & _ & Hw & Hc).
      exists w, c. simpl. split_and!; [done|by apply Hc|done].
    - by exists IDENTITY, ∅. }
  destruct (poseStep_fold this fixedFrame fixedWorld
              (frameNames this fixedFrame) (mkPassState cache ∅ []))
    as (stN & Hfold & Hsub & HconsN & HokN & _ & Hcov & Hfr); [done| |].
  { intros f r. simpl. by rewrite lookup_empty. }
  exists stN, fixedWorld. split_and!; [done|done| | |done].
  - destruct (fixedGiven fixedFrame); [|done]. by eapply lookup_weaken.
  - intros f Hf Htf. destruct (Hcov f Hf Htf) as [r Hr].
    destruct (HokN _ _ Hr) as (w & Hw & ->). by exists w.
Qed.

(** *** [update] *)

Lemma JsMap_get_set_eq {V} (m : JsMap.t V) k v :
  JsMap.get (JsMap.set m k v) k = Some v.
Proof.
  induction m as [|[k' v'] m IH]; simpl.
  - by rewrite decide_True.
  - case_decide; simpl; [by rewrite decide_True|by rewrite decide_False].
Qed.

Lemma JsMap_get_set_ne {V} (m : JsMap.t V) k k' v :
  k ≠ k' → JsMap.get (JsMap.set m k v) k' = JsMap.get m k'.
Proof.
  intros Hne. induction m as [|[k0 v0] m IH]; simpl.
  - by rewrite decide_False.
  - destruct (decide (k = k0)) as [->|Hk]; simpl.
    + by rewrite !decide_False.
    + case_decide; [done|apply IH].
Qed.

Lemma updateEntry_skip store updated transform :
  entryKey transform = None →
  updateEntry (store, updated) transform = (store, updated).
Proof.
  unfold entryKey, updateEntry. destruct (normalizeFrame (child_frame_id transform)) as [child|]; [|done].
  by destruct (truthy child).
Qed.

Lemma updateEntry_agrees store transform :
  agrees store transform →
  updateEntry (store, false) transform = (store, false).
Proof.
  unfold agrees. destruct (entryKey transform) as [child|] eqn:Hk.
  - intros (previous & Hget & Hp & Hm). revert Hk. unfold entryKey, updateEntry.
    destruct (normalizeFrame (child_frame_id transform)) as [c|]; [|by intros [=]].
    destruct (truthy c); [|by intros [=]]. intros [= ->]. simpl.
    by rewrite Hget, Hp, Hm.
  - intros _. by apply updateEntry_skip.
Qed.

Lemma update_unchanged entries store :
  Forall (agrees store) entries →
  fold_left updateEntry entries (store, false) = (store, false).
Proof.
  induction 1 as [|e entries He _ IH]; [done|].
  cbn [fold_left]. by rewrite (updateEntry_agrees _ _ He).
Qed.

Lemma updateEntry_other store updated transform k :
  entryKey transform ≠ Some k →
  JsMap.get (updateEntry (store, updated) transform).1 k = JsMap.get store k.
Proof.
  unfold entryKey, updateEntry. destruct (normalizeFrame (child_frame_id transform)) as [child|]; [|done].
  destruct (truthy child); [|done]. simpl. intros Hne.
  destruct (match JsMap.get store child with
            | Some previous => _ | None => true end); [|done].
  simpl. apply JsMap_get_set_ne. congruence.
Qed.

Lemma update_other entries :
  ∀ store updated k,
    Some k ∉ entryKey <$> entries →
    JsMap.get (fold_left updateEntry entries (store, updated)).1 k
    = JsMap.get store k.
Proof.
  induction entries as [|e entries IH]; intros store updated k Hk; [done|].
  cbn [fold_left]. rewrite fmap_cons, not_elem_of_cons in Hk. destruct Hk as [Hne Hk].
  destruct (updateEntry (store, updated) e) as [store1 updated1] eqn:He.
  rewrite IH by done.
  change store1 with (store1, updated1).1. rewrite <- He.
  apply updateEntry_other. congruence.
Qed.

(** After its own iteration an entry agrees with the store, provided its
    matrix compares equal to itself. *)
Lemma updateEntry_then_agrees store updated transform :
  matricesDiffer (composeMatrix transform) (composeMatrix transform) = false →
  agrees (updateEntry (store, updated) transform).1 transform.
Proof.
  intros Hself. unfold agrees. destruct (entryKey transform) as [child|] eqn:Hk; [|done].
  revert Hk. unfold entryKey, updateEntry.
  destruct (normalizeFrame (child_frame_id transform)) as [c|]; [|by intros [=]].
  destruct (truthy c); [|by intros [=]]. intros [= ->]. cbn [negb].
  destruct (JsMap.get store child) as [previous|] eqn:Hget.
  - destruct (parentDiffers _ _ || matricesDiffer _ _) eqn:Hch; cbn [fst].
    + eexists. rewrite JsMap_get_set_eq. split; [done|]. cbn [parent matrix].
      split; [|done]. unfold parentDiffers. by rewrite decide_True.
    + apply orb_false_iff in Hch as [Hp Hm]. by exists previous.
  - eexists. cbn [fst]. rewrite JsMap_get_set_eq. split; [done|]. cbn [parent matrix].
    split; [|done]. unfold parentDiffers. by rewrite decide_True.
Qed.

Lemma update_then_agrees entries :
  ∀ store updated,
    NoDup (entryKeys entries) →
    Forall (λ e, matricesDiffer (composeMatrix e) (composeMatrix e) = false)
      entries →
    Forall (agrees (fold_left updateEntry entries (store, updated)).1) entries.
Proof.
  induction entries as [|e entries IH]; intros store updated Hnd Hself; [done|].
  apply Forall_cons in Hself as [He Hself].
  cbn [fold_left]. destruct (updateEntry (store, updated) e) as [store1 updated1] eqn:Hstep.
  assert (NoDup (entryKeys entries)
          ∧ ∀ k, entryKey e = Some k → Some k ∉ entryKey <$> entries)
    as [Hnd' Hfresh].
  { unfold entryKeys in *. simpl in Hnd. destruct (entryKey e) as [k|].
    - apply NoDup_cons in Hnd as [Hk Hnd]. split; [done|].
      intros k' [= <-] Hin. apply Hk.
      apply list_elem_of_fmap in Hin as (e' & Heq & Hin).
      apply list_elem_of_omap. by exists e'.
    - done. }
  apply Forall_cons. split; [|by apply IH].
  pose proof (updateEntry_then_agrees store updated e He) as Hag.
  rewrite Hstep in Hag. simpl in Hag.
  unfold agrees in *. destruct (entryKey e) as [k|] eqn:Hk; [|done].
  by rewrite update_other by (by apply Hfresh).
Qed.

(** The flag of the loop of [update] is set by every write and never
    cleared. *)
Lemma updateEntry_flag store updated transform :
  (updateEntry (store, updated) transform).2 = false →
  updated = false ∧ updateEntry (store, updated) transform = (store, false).
Proof.
  unfold updateEntry.
  destruct (normalizeFrame (child_frame_id transform)) as [child|];
    [|cbn [snd]; by intros ->].
  destruct (truthy child); cbn [negb]; [|cbn [snd]; by intros ->].
  destruct (match JsMap.get store child with
            | Some previous => _ | None => true end);
    [done|cbn [snd]; by intros ->].
Qed.

Lemma fold_updateEntry_flag entries :
  ∀ store updated,
    (fold_left updateEntry entries (store, updated)).2 = false →
    updated = false
    ∧ fold_left updateEntry entries (store, updated) = (store, false).
Proof.
  induction entries as [|e entries IH]; intros store updated; cbn [fold_left].
  { cbn [snd]. by intros ->. }
  destruct (updateEntry (store, updated) e) as [store1 updated1] eqn:He.
  intros Hflag. destruct (IH _ _ Hflag) as [-> Hfold].
  destruct (updateEntry_flag store updated e) as [-> He']; [by rewrite He|].
  rewrite He' in He. injection He as <-. done.
Qed.

Lemma updateEntry_unchanged_agrees store transform :
  updateEntry (store, false) transform = (store, false) →
  agrees store transform.
Proof.
  unfold agrees, entryKey, updateEntry.
  destruct (normalizeFrame (child_frame_id transform)) as [child|]; [|done].
  destruct (truthy child); cbn [negb]; [|done].
  destruct (JsMap.get store child) as [previous|]; [|by intros [=]].
  destruct (parentDiffers _ _ || matricesDiffer _ _) eqn:Hch; [by intros [=]|].
  intros _. apply orb_false_iff in Hch as [Hp Hm]. by exists previous.
Qed.

Lemma fold_updateEntry_unchanged_agrees entries store :
  fold_left updateEntry entries (store, false) = (store, false) →
  Forall (agrees store) entries.
Proof.
  induction entries as [|e entries IH]; [done|]. cbn [fold_left].
  destruct (updateEntry (store, false) e) as [store1 updated1] eqn:He.
  intros Hfold.
  destruct (fold_updateEntry_flag entries store1 updated1) as [-> Hrest];
    [by rewrite Hfold|].
  rewrite Hrest in Hfold. injection Hfold as ->.
  apply Forall_cons. split; [by apply updateEntry_unchanged_agrees|by apply IH].
Qed.

(** *** The entries of one child *)










(** *** Candidate frames *)

Lemma elem_of_fold_add (l : list string) :
  ∀ acc x, x ∈ fold_left JsSet.add l acc ↔ x ∈ acc ∨ x ∈ l.
Proof.
  induction l as [|y l IH]; intros acc x; simpl.
  - rewrite elem_of_nil. tauto.
  - rewrite IH, JsSet_elem_of_add, elem_of_cons. tauto.
Qed.

Lemma addParents_mono (m : JsMap.t FrameTransform) :
  ∀ names x, x ∈ names → x ∈ addParents names m.
Proof.
  unfold addParents. induction (JsMap.values m) as [|t l IH]; intros names x Hx; [done|].
  simpl. apply IH. destruct (parent t) as [p|]; [|done].
  destruct (truthy p); [|done]. apply JsSet_elem_of_add. by left.
Qed.

Lemma lookupTransform_frameNames this fixedFrame frame transform :
  lookupTransform this frame = Some transform →
  frame ∈ frameNames this fixedFrame.
Proof.
  intros Ht. apply lookupTransform_edgeFrames in Ht.
  apply elem_of_list_to_set, elem_of_app in Ht.
  assert (frame ∈ addParents
            (addParents
               (fold_left JsSet.add (JsMap.keys (staticTransforms this))
                  (fold_left JsSet.add (JsMap.keys (dynamicTransforms this)) []))
               (dynamicTransforms this))
            (staticTransforms this)) as Hin.
  { do 2 apply addParents_mono. rewrite !elem_of_fold_add. tauto. }
  unfold frameNames. destruct fixedFrame as [f|]; [|done].
  destruct (truthy f); [|done]. apply JsSet_elem_of_add. by left.
Qed.
End TfFacts.

(** ** The transform store: properties *)

Module TfProperties.
Import Tf TfFacts TfSpec.



(** C1 does not hold as stated: on a cycle of parent links the matrix of
    a frame is not a function of the stored edges and the frame.  The
    frames A and B that name each other as parent, one and two units
    along x, have no world matrix along their parent links, and the pass
    gives B, relative to a fixed frame without an edge, the translation
    (2, 0, 0) when the edge of A was stored first and (3, 0, 0) when the
    edge of B was. *)
Lemma cycle_pose_depends_on_order :
  (∀ frame, storedEdge twoCycleStore frame = storedEdge twoCycleSwapped frame)
  ∧ (∀ depth, chainWorld depth twoCycleStore "A" = None
              ∧ chainWorld depth twoCycleStore "B" = None)
  ∧ (∃ pd b,
       buildPoseData twoCycleStore (Some "map") = Some pd
       ∧ pd.(pd_matrixMap) !! "B" = Some b
       ∧ Three.position b = mkVector3 2 0 0)
  ∧ (∃ pd b,
       buildPoseData twoCycleSwapped (Some "map") = Some pd
       ∧ pd.(pd_matrixMap) !! "B" = Some b
       ∧ Three.position b = mkVector3 3 0 0)
  ∧ ¬ (∃ worldMatrix : TfStore → string → Matrix4,
         (∀ this this',
            (∀ frame, storedEdge this frame = storedEdge this' frame) →
            ∀ frame, worldMatrix this frame = worldMatrix this' frame)
         ∧ ∀ this F pd f m,
             truthy F = true →
             buildPoseData this (Some F) = Some pd →
             pd.(pd_matrixMap) !! f = Some m →
             m = Three.multiply (Three.invert (worldMatrix this F))
                   (worldMatrix this f)).
Proof.
  assert (∀ frame, storedEdge twoCycleStore frame
                   = storedEdge twoCycleSwapped frame) as Hsame.
  { intros frame. unfold storedEdge.
    change (dynamicTransforms twoCycleStore ++ staticTransforms twoCycleStore)
      with [("A", mkFrameTransform (Some "B")
                    (composeMatrix (stamped "A" "B" 1 0 0 None)));
            ("B", mkFrameTransform (Some "A")
                    (composeMatrix (stamped "B" "A" 2 0 0 None)))].
    change (dynamicTransforms twoCycleSwapped
            ++ staticTransforms twoCycleSwapped)
      with [("B", mkFrameTransform (Some "A")
                    (composeMatrix (stamped "B" "A" 2 0 0 None)));
            ("A", mkFrameTransform (Some "B")
                    (composeMatrix (stamped "A" "B" 1 0 0 None)))].
    cbn [List.find fst].
    destruct (String.eqb_spec "A" frame) as [<-|Ha]; [done|].
    by destruct (String.eqb_spec "B" frame). }
  assert (∃ pd b,
            buildPoseData twoCycleStore (Some "map") = Some pd
            ∧ pd.(pd_matrixMap) !! "B" = Some b
            ∧ Three.position b = mkVector3 2 0 0) as Hfirst
    by (eexists _, _; split_and!; by vm_compute).
  assert (∃ pd b,
            buildPoseData twoCycleSwapped (Some "map") = Some pd
            ∧ pd.(pd_matrixMap) !! "B" = Some b
            ∧ Three.position b = mkVector3 3 0 0) as Hsecond
    by (eexists _, _; split_and!; by vm_compute).
  split_and!; [exact Hsame| |exact Hfirst|exact Hsecond|].
  - assert (∃ a b, storedEdge twoCycleStore "A" = Some a
                   ∧ storedEdge twoCycleStore "B" = Some b
                   ∧ parentOf twoCycleStore "A" = Some "B"
                   ∧ parentOf twoCycleStore "B" = Some "A")
      as (a & b & Ha & Hb & Hpa & Hpb)
      by (eexists _, _; split_and!; by vm_compute).
    unfold chainWorld.
    induction depth as [|d [IHa IHb]]; cbn [localMatrices];
      rewrite Ha, Hb, Hpa, Hpb; [done|].
    destruct (localMatrices d twoCycleStore "A"); [done|].
    destruct (localMatrices d twoCycleStore "B"); done.
  - intros (world & Hext & Hall).
    destruct Hfirst as (pd1 & b1 & Hpd1 & Hb1 & Hpos1).
    destruct Hsecond as (pd2 & b2 & Hpd2 & Hb2 & Hpos2).
    pose proof (Hall twoCycleStore "map" pd1 "B" b1 eq_refl Hpd1 Hb1) as H1.
    pose proof (Hall twoCycleSwapped "map" pd2 "B" b2 eq_refl Hpd2 Hb2) as H2.
    rewrite <- !(Hext _ _ Hsame) in H2. rewrite <- H1 in H2.
    rewrite H2, Hpos1 in Hpos2.
    apply (f_equal (λ v, PrimFloat.eqb (vx v) 2)) in Hpos2.
    vm_compute in Hpos2. discriminate Hpos2.
Qed.

(** C2 (as amended): [buildPoseData] completes on every edge set, cyclic
    or not.  A frame met again while its own resolution is in progress
    answers the identity at that point and leaves the cache alone; a frame
    that names itself as parent gets the world matrix identity × its local
    matrix, in a single call and in the pass. *)
Theorem resolvePoses_terminates_on_cycles :
  (∀ this fixedFrame, is_Some (buildPoseData this fixedFrame))
  ∧ (∀ this fuel frame cache stack,
       frame ∈ stack → cache !! frame = None →
       resolveWorldMatrix (S fuel) this frame cache stack
       = Some (Some IDENTITY, cache))
  ∧ (∀ this fuel frame transform cache stack,
       lookupTransform this frame = Some transform →
       transform.(parent) = Some frame →
       cache !! frame = None → frame ∉ stack →
       resolveWorldMatrix (S fuel) this frame cache stack
       = Some (Some (Three.multiply IDENTITY transform.(matrix)),
               <[frame := Three.multiply IDENTITY transform.(matrix)]> cache))
  ∧ (∀ this fixedFrame frame transform,
       truthy frame = true →
       lookupTransform this frame = Some transform →
       transform.(parent) = Some frame →
       ∃ st, buildPoseDataPass this fixedFrame = Some st
             ∧ st.(worldCache) !! frame
               = Some (Three.multiply IDENTITY transform.(matrix))).
Proof.
  assert (∀ transform frame, transform.(parent) = Some frame →
            parentLink transform frame = None) as Hself.
  { intros t f Hp. unfold parentLink. rewrite Hp, String.eqb_refl.
    by rewrite andb_false_r. }
  split_and!.
  - intros this fixedFrame.
    destruct (buildPoseDataPass_correct this fixedFrame) as (st & w & Hpass & _).
    unfold buildPoseData. rewrite Hpass. eauto.
  - intros this fuel frame cache stack Hin Hnone. simpl.
    rewrite decide_False by (rewrite Hnone; by intros [? ?]).
    by rewrite decide_True.
  - intros this fuel frame t cache stack Ht Hp Hnone Hst. simpl.
    rewrite decide_False by (rewrite Hnone; by intros [? ?]).
    rewrite decide_False by done.
    by rewrite Ht, (Hself _ _ Hp).
  - intros this fixedFrame frame t Htf Ht Hp.
    destruct (buildPoseDataPass_correct this fixedFrame)
      as (st & w & Hpass & Hcons & _ & Hmap & _).
    exists st. split; [done|].
    pose proof (lookupTransform_frameNames _ fixedFrame _ _ Ht) as Hin.
    destruct (Hmap frame Hin Htf) as (world & Hw & _).
    rewrite Hw. f_equal. apply (Hcons frame world 0 _ Hw).
    rewrite worldMatrix_unfold. by rewrite Ht, (Hself _ _ Hp).
Qed.

Lemma resolvePoses_terminates_on_cycles_witness :
  is_Some (buildPoseData twoCycleStore (Some "A"))
  ∧ resolveWorldMatrix 1 selfLoopStore "A" ∅ {["A"]} = Some (Some IDENTITY, ∅)
  ∧ (∃ transform,
       lookupTransform selfLoopStore "A" = Some transform
       ∧ resolveWorldMatrix 1 selfLoopStore "A" ∅ ∅
         = Some (Some (Three.multiply IDENTITY transform.(matrix)),
                 <["A" := Three.multiply IDENTITY transform.(matrix)]> ∅))
  ∧ (∃ transform st,
       lookupTransform selfLoopStore "A" = Some transform
       ∧ buildPoseDataPass selfLoopStore None = Some st
       ∧ st.(worldCache) !! "A"
         = Some (Three.multiply IDENTITY transform.(matrix))).
Proof.
  destruct resolvePoses_terminates_on_cycles as (Htotal & Hcut & Hself & Hpass).
  assert (∃ transform, lookupTransform selfLoopStore "A" = Some transform
                       ∧ transform.(parent) = Some "A") as (t & Ht & Hp)
    by (eexists; split; vm_compute; reflexivity).
  split_and!.
  - apply Htotal.
  - apply Hcut; [by apply elem_of_singleton|apply lookup_empty].
  - exists t. split; [done|].
    apply Hself; [done|done|apply lookup_empty|apply not_elem_of_empty].
  - destruct (Hpass selfLoopStore None "A" t eq_refl Ht Hp) as (st & Hst & Hw).
    by exists t, st.
Defined.

(** C2 does not hold as stated: frames on a cycle do not resolve to the
    identity.  A frame that is its own parent one unit along x resolves to
    that translation, and two frames that name each other as parent
    resolve to the accumulated translations. *)
Lemma cycle_frames_not_identity :
  (∃ pd m,
     buildPoseData selfLoopStore None = Some pd
     ∧ pd.(pd_matrixMap) !! "A" = Some m
     ∧ Three.position m = mkVector3 1 0 0
     ∧ matricesDiffer m IDENTITY = true)
  ∧ (∃ pd a b,
       buildPoseData twoCycleStore (Some "map") = Some pd
       ∧ pd.(pd_matrixMap) !! "A" = Some a
       ∧ pd.(pd_matrixMap) !! "B" = Some b
       ∧ Three.position a = mkVector3 3 0 0
       ∧ Three.position b = mkVector3 2 0 0
       ∧ matricesDiffer a IDENTITY = true
       ∧ matricesDiffer b IDENTITY = true)
  ∧ ¬ (∀ this fixedFrame frame transform pd m,
         lookupTransform this frame = Some transform →
         transform.(parent) = Some frame →
         buildPoseData this fixedFrame = Some pd →
         pd.(pd_matrixMap) !! frame = Some m →
         matricesDiffer m IDENTITY = false).
Proof.
  split_and!.
  - eexists _, _. split_and!; by vm_compute.
  - eexists _, _, _. split_and!; by vm_compute.
  - intros Hall.
    assert (∃ transform pd m,
              lookupTransform selfLoopStore "A" = Some transform
              ∧ transform.(parent) = Some "A"
              ∧ buildPoseData selfLoopStore None = Some pd
              ∧ pd.(pd_matrixMap) !! "A" = Some m
              ∧ matricesDiffer m IDENTITY = true)
      as (transform & pd & m & Ht & Hp & Hpd & Hm & Hdiff)
      by (eexists _, _, _; split_and!; by vm_compute).
    rewrite (Hall _ _ _ _ _ _ Ht Hp Hpd Hm) in Hdiff. discriminate.
Qed.







(** C8: [resetDynamic] empties the dynamic map and leaves the static map
    as it was, so that afterwards every lookup is answered by the static
    map alone. *)
Theorem resetDynamic_keeps_static this :
  (resetDynamic this).(dynamicTransforms) = JsMap.empty
  ∧ (resetDynamic this).(staticTransforms) = this.(staticTransforms)
  ∧ (∀ frame, JsMap.get (resetDynamic this).(dynamicTransforms) frame = None)
  ∧ (∀ frame, lookupTransform (resetDynamic this) frame
              = JsMap.get this.(staticTransforms) frame).
Proof. done. Qed.
End TfProperties.

(** ** The decoder: lemmas *)

Module PointCloudFacts.
Import PointCloud.

#[local] Notation "x ← r ; k" := (bind r (λ x, k))
  (at level 20, r at level 100, k at level 200, right associativity).

(** *** Writing a triple into a [Float32Array] *)

Lemma take_store3 (arr : list number) k x y z :
  k + 3 ≤ length arr →
  take (k + 3) (store (store (store arr k x) (k + 1) y) (k + 2) z)
  = take k arr ++ stored3 (x, y, z).
Proof.
  intros Hlen. unfold store, stored3.
  replace (k + 3) with (S (k + 2)) by lia.
  erewrite take_S_r; last first.
  { apply list_lookup_insert_eq. rewrite !length_insert. lia. }
  rewrite take_insert_ge by lia.
  replace (k + 2) with (S (k + 1)) by lia.
  erewrite take_S_r; last first.
  { apply list_lookup_insert_eq. rewrite !length_insert. lia. }
  rewrite take_insert_ge by lia.
  replace (k + 1) with (S k) by lia.
  erewrite take_S_r; last first.
  { apply list_lookup_insert_eq. lia. }
  rewrite take_insert_ge by lia.
  by rewrite <- !app_assoc.
Qed.

Lemma length_store3 (arr : list number) k x y z :
  length (store (store (store arr k x) (k + 1) y) (k + 2) z) = length arr.
Proof. unfold store. by rewrite !length_insert. Qed.

Section records.
Context (view : DataView) (step : Z) (xField yField zField : PointField)
        (littleEndian : bool).

#[local] Abbreviation body cf :=
  (decodeRecord view step xField yField zField cf littleEndian).
#[local] Abbreviation coords :=
  (coordsAt view step xField yField zField littleEndian).
#[local] Abbreviation accepted :=
  (acceptedAt view step xField yField zField littleEndian).
#[local] Abbreviation color cf := (colorAt view step cf littleEndian).
#[local] Abbreviation decoded cf :=
  (decoded view step xField yField zField cf littleEndian).

(** One iteration, by cases on what the three reads give. *)
Lemma decodeRecord_cases colorField st i :
  match coords i with
  | None => ∃ e, body colorField st i = Throw e
  | Some (x, y, z) =>
      if accepted i then
        body colorField st i =
          (colors ←
             match st.(d_colors), colorField with
             | Some colors, Some cf =>
                 c ← readColor view (Z.of_nat i * step + cf.(offset))
                       cf.(datatype) littleEndian;
                 let '(r, g, b) := c in
                 let k := st.(validPoints) * 3 in
                 Ok (Some (store (store (store colors k r) (k + 1) g) (k + 2) b))
             | other, _ => Ok other
             end;
           let k := st.(validPoints) * 3 in
           Ok (mkDecoding
                 (store (store (store st.(d_positions) k x) (k + 1) y) (k + 2) z)
                 colors (S st.(validPoints))))
      else body colorField st i = Ok st
  end.
Proof.
  unfold acceptedAt, coordsAt, decodeRecord.
  destruct (readNumeric view (Z.of_nat i * step + offset xField) _ _) as [x|e];
    simpl; [|eauto].
  destruct (readNumeric view (Z.of_nat i * step + offset yField) _ _) as [y|e];
    simpl; [|eauto].
  destruct (readNumeric view (Z.of_nat i * step + offset zField) _ _) as [z|e];
    simpl; [|eauto].
  by destruct (isFinite x), (isFinite y), (isFinite z).
Qed.

Lemma decodeRecords_decoded colorField L indices :
  ∀ acc st st',
    decoded colorField L acc st →
    (length acc + length indices) * 3 ≤ L →
    decodeRecords (body colorField) indices st = Ok st' →
    decoded colorField L (acc ++ List.filter accepted indices) st'
    ∧ Forall (λ i, is_Some (coords i)) indices.
Proof.
  induction indices as [|i indices IH]; intros acc st st' Hdec Hlen.
  { simpl. intros [= <-]. by rewrite app_nil_r. }
  cbn [decodeRecords List.filter]. simpl in Hlen.
  pose proof (decodeRecord_cases colorField st i) as Hcase.
  destruct (coords i) as [[[x y] z]|] eqn:Hc.
  2:{ destruct Hcase as [e ->]. done. }
  destruct (accepted i) eqn:Hacc.
  2:{ rewrite Hcase. simpl. intros Hrest.
      destruct (IH acc st st' Hdec) as [H1 H2]; [lia|done|].
      split; [done|]. apply Forall_cons. split; [by rewrite Hc|done]. }
  rewrite Hcase. clear Hcase.
  destruct Hdec as (Hvp & HL & Hpos & Hcol & Hall).
  assert (∀ (arr : list number) a b c, length arr = L →
            take (length (acc ++ [i]) * 3)
              (store (store (store arr (validPoints st * 3) a)
                        (validPoints st * 3 + 1) b)
                 (validPoints st * 3 + 2) c)
            = take (length acc * 3) arr ++ stored3 (a, b, c)) as Htake.
  { intros arr a b c Harr. rewrite length_app. simpl.
    replace ((length acc + 1) * 3) with (length acc * 3 + 3) by lia.
    rewrite Hvp. apply take_store3. lia. }
  destruct colorField as [cf|].
  - destruct Hcol as (colors & Hcolors & HLc & Htc). rewrite Hcolors.
    destruct (readColor view (Z.of_nat i * step + offset cf) (datatype cf)
                littleEndian) as [[[r g] b]|e] eqn:Hrc; [|done].
    simpl. intros Hrest.
    assert (color (Some cf) i = Some (r, g, b)) as Hci.
    { unfold colorAt. by rewrite Hrc. }
    eapply (IH (acc ++ [i])) in Hrest.
    + destruct Hrest as [H1 H2]. rewrite <- app_assoc in H1. split; [done|].
      apply Forall_cons. split; [by rewrite Hc|done].
    + split_and!; cbn [validPoints d_positions d_colors].
      * rewrite length_app. simpl. lia.
      * by rewrite length_store3.
      * rewrite (Htake _ x y z HL), Hpos, flat_map_app. cbn [flat_map].
        by rewrite Hc, app_nil_r.
      * eexists. split; [done|]. split; [by rewrite length_store3|].
        rewrite (Htake _ r g b HLc), Htc, flat_map_app. cbn [flat_map].
        by rewrite Hci, app_nil_r.
      * apply Forall_app. split; [done|]. apply Forall_singleton.
        split; [done|]. rewrite Hci. eauto.
    + rewrite length_app. simpl. lia.
  - rewrite Hcol. simpl. intros Hrest.
    eapply (IH (acc ++ [i])) in Hrest.
    + destruct Hrest as [H1 H2]. rewrite <- app_assoc in H1. split; [done|].
      apply Forall_cons. split; [by rewrite Hc|done].
    + split_and!; cbn [validPoints d_positions d_colors].
      * rewrite length_app. simpl. lia.
      * by rewrite length_store3.
      * rewrite (Htake _ x y z HL), Hpos, flat_map_app. cbn [flat_map].
        by rewrite Hc, app_nil_r.
      * done.
      * apply Forall_app. split; [done|]. apply Forall_singleton.
        split; [done|]. by intros [? ?].
    + rewrite length_app. simpl. lia.
Qed.

(** Records that all decode and are all rejected leave the state alone. *)
Lemma decodeRecords_none_accepted colorField indices st :
  Forall (λ i, is_Some (coords i) ∧ accepted i = false) indices →
  decodeRecords (body colorField) indices st = Ok st.
Proof.
  induction 1 as [|i indices [[c Hc] Hacc] _ IH]; [done|].
  cbn [decodeRecords]. pose proof (decodeRecord_cases colorField st i) as Hcase.
  rewrite Hc in Hcase. destruct c as [[x y] z]. rewrite Hacc in Hcase.
  by rewrite Hcase.
Qed.

(** The loop completes unless a record cannot be read: its coordinates, or
    the color of an accepted record. *)
Lemma decodeRecords_completes colorField indices :
  ∀ st,
    (∃ st', decodeRecords (body colorField) indices st = Ok st')
    ∨ (∃ i, i ∈ indices
            ∧ (coords i = None
               ∨ (accepted i = true ∧ is_Some colorField
                  ∧ color colorField i = None))).
Proof.
  induction indices as [|i indices IH]; intros st.
  { left. by exists st. }
  cbn [decodeRecords].
  assert (∀ st1, body colorField st i = Ok st1 →
            (∃ st', (st' ← body colorField st i;
                     decodeRecords (body colorField) indices st') = Ok st')
            ∨ (∃ j, j ∈ i :: indices
                    ∧ (coords j = None
                       ∨ (accepted j = true ∧ is_Some colorField
                          ∧ color colorField j = None)))) as Hnext.
  { intros st1 ->. cbn [bind].
    destruct (IH st1) as [?|(j & Hj & Hbad)]; [by left|].
    right. exists j. split; [by apply list_elem_of_further|done]. }
  pose proof (decodeRecord_cases colorField st i) as Hcase.
  destruct (coords i) as [[[x y] z]|] eqn:Hc.
  2:{ right. exists i. split; [apply list_elem_of_here|by left]. }
  destruct (accepted i) eqn:Hacc; [|by apply (Hnext st)].
  destruct (d_colors st) as [colors|] eqn:Hcolors.
  2:{ eapply Hnext. rewrite Hcase. done. }
  destruct colorField as [cf|].
  2:{ eapply Hnext. rewrite Hcase. done. }
  destruct (readColor view (Z.of_nat i * step + offset cf) (datatype cf)
              littleEndian) as [[[r g] b]|e] eqn:Hrc.
  - eapply Hnext. rewrite Hcase. cbn [bind]. done.
  - right. exists i. split; [apply list_elem_of_here|]. right.
    split_and!; [done|by eexists|]. unfold colorAt. by rewrite Hrc.
Qed.
End records.

(** *** The decoder as a whole *)

#[local] Open Scope Z_scope.

Lemma parse_invalid topic message :
  structurallyInvalid message → parsePointCloud2 topic message = Ok None.
Proof.
  unfold structurallyInvalid, parsePointCloud2.
  destruct (data message) as [bytes|]; [|done].
  destruct (Z.leb_spec (totalPoints message) 0) as [Hle|Hgt]; [done|].
  destruct (Z.ltb_spec (Z.of_nat (length bytes))
              (point_step message * totalPoints message)) as [Hlt|Hge]; [done|].
  intros [?|[?|[Hx|[Hy|Hz]]]]; [lia|lia|..].
  - by rewrite Hx.
  - rewrite Hy. by destruct (findField "x" message).
  - rewrite Hz. by destruct (findField "x" message), (findField "y" message).
Qed.

(** A message that passes the preconditions reaches the record loop. *)
Lemma parse_valid topic message :
  ¬ structurallyInvalid message →
  ∃ bytes xField yField zField,
    message.(data) = Some bytes
    ∧ findField "x" message = Some xField
    ∧ findField "y" message = Some yField
    ∧ findField "z" message = Some zField
    ∧ 0 < totalPoints message
    ∧ parsePointCloud2 topic message
      = (st0 ← startDecoding (totalPoints message) (findColorField message);
         st ← decodeRecords
                (decodeRecord bytes message.(point_step) xField yField zField
                   (findColorField message) (littleEndianOf message))
                (seq 0 (Z.to_nat (totalPoints message))) st0;
         Ok (finishDecoding topic message st)).
Proof.
  unfold structurallyInvalid, parsePointCloud2. intros Hvalid.
  destruct (data message) as [bytes|]; [|tauto].
  destruct (Z.leb_spec (totalPoints message) 0) as [Hle|Hgt]; [tauto|].
  destruct (Z.ltb_spec (Z.of_nat (length bytes))
              (point_step message * totalPoints message)) as [Hlt|Hge]; [tauto|].
  destruct (findField "x" message) as [xField|]; [|tauto].
  destruct (findField "y" message) as [yField|]; [|tauto].
  destruct (findField "z" message) as [zField|]; [|tauto].
  by exists bytes, xField, yField, zField.
Qed.

Lemma structurallyInvalid_dec message :
  structurallyInvalid message ∨ ¬ structurallyInvalid message.
Proof.
  unfold structurallyInvalid.
  destruct (Z.leb_spec (totalPoints message) 0) as [Hle|Hgt]; [tauto|].
  destruct (data message) as [bytes|]; [|tauto].
  destruct (Z.ltb_spec (Z.of_nat (length bytes))
              (point_step message * totalPoints message)) as [Hlt|Hge]; [tauto|].
  destruct (findField "x" message); [|tauto].
  destruct (findField "y" message); [|tauto].
  destruct (findField "z" message); [|tauto].
  right. intros [?|[?|[?|[?|?]]]]; done || lia.
Qed.

(** The allocation succeeds exactly within the limit of the language. *)
Lemma newFloat32Array_cases n :
  0 ≤ n →
  (4 * n ≤ MAX_SAFE_INTEGER
   ∧ newFloat32Array n = Ok (replicate (Z.to_nat n) 0%float))
  ∨ (MAX_SAFE_INTEGER < 4 * n ∧ newFloat32Array n = Throw RangeError).
Proof.
  intros Hn. unfold newFloat32Array.
  destruct (Z.ltb_spec n 0) as [?|_]; [lia|].
  destruct (Z.ltb_spec MAX_SAFE_INTEGER n) as [?|?].
  { right. split; [lia|done]. }
  destruct (Z.ltb_spec MAX_SAFE_INTEGER (4 * n)) as [?|?].
  { right. split; [lia|done]. }
  left. split; [lia|done].
Qed.

Lemma startDecoding_cases n colorField :
  0 ≤ n →
  (4 * (n * 3) ≤ MAX_SAFE_INTEGER
   ∧ startDecoding n colorField
     = Ok (mkDecoding (replicate (Z.to_nat (n * 3)) 0%float)
             (match colorField with
              | Some _ => Some (replicate (Z.to_nat (n * 3)) 0%float)
              | None => None
              end) 0))
  ∨ (MAX_SAFE_INTEGER < 4 * (n * 3)
     ∧ startDecoding n colorField = Throw RangeError).
Proof.
  intros Hn. unfold startDecoding.
  destruct (newFloat32Array_cases (n * 3)) as [[Hle ->]|[Hgt ->]]; [lia| |].
  - left. split; [done|]. by destruct colorField.
  - right. by split.
Qed.

Lemma startDecoding_decoded view step xField yField zField colorField le n st :
  0 ≤ n →
  startDecoding n colorField = Ok st →
  decoded view step xField yField zField colorField le
    (Z.to_nat (n * 3)) [] st.
Proof.
  intros Hn Hst.
  destruct (startDecoding_cases n colorField Hn) as [[_ Heq]|[_ Heq]];
    rewrite Heq in Hst; [|done].
  injection Hst as <-. unfold decoded. simpl.
  rewrite length_replicate. split_and!; try done.
  destruct colorField; [|done].
  eexists. split; [done|]. by rewrite length_replicate.
Qed.

Lemma trim_take (arr : list number) n :
  (if (n =? length arr)%nat then arr else take n arr) = take n arr.
Proof.
  destruct (Nat.eqb_spec n (length arr)) as [->|]; [|done].
  by rewrite firstn_all.
Qed.

(** What the loop of a message that passes the preconditions leaves. *)
Lemma parse_loop message bytes xField yField zField st0 st :
  message.(data) = Some bytes →
  findField "x" message = Some xField →
  findField "y" message = Some yField →
  findField "z" message = Some zField →
  0 < totalPoints message →
  startDecoding (totalPoints message) (findColorField message) = Ok st0 →
  decodeRecords
    (decodeRecord bytes message.(point_step) xField yField zField
       (findColorField message) (littleEndianOf message))
    (seq 0 (Z.to_nat (totalPoints message))) st0 = Ok st →
  decoded bytes message.(point_step) xField yField zField
    (findColorField message) (littleEndianOf message)
    (Z.to_nat (totalPoints message * 3)) (acceptedRecords message) st
  ∧ (∀ i, (i < Z.to_nat (totalPoints message))%nat →
       is_Some (recordCoords message i)).
Proof.
  intros Hd Hx Hy Hz Hpos Hstart Hloop.
  assert (∀ i, recordCoords message i
               = coordsAt bytes message.(point_step) xField yField zField
                   (littleEndianOf message) i) as Hcoords.
  { intros i. unfold recordCoords. by rewrite Hd, Hx, Hy, Hz. }
  assert (∀ i, recordAccepted message i
               = acceptedAt bytes message.(point_step) xField yField zField
                   (littleEndianOf message) i) as Hacc.
  { intros i. unfold recordAccepted, acceptedAt. by rewrite Hcoords. }
  eapply decodeRecords_decoded in Hloop.
  - destruct Hloop as [Hdec Hall]. rewrite app_nil_l in Hdec. split.
    + unfold acceptedRecords.
      by rewrite (filter_ext _ _ Hacc).
    + intros i Hi. rewrite Hcoords.
      rewrite Forall_forall in Hall. apply Hall.
      apply list_elem_of_In, in_seq. lia.
  - apply startDecoding_decoded; [lia|done].
  - simpl. rewrite length_seq. rewrite Z2Nat.inj_mul by lia.
    change (Z.to_nat 3) with 3%nat. lia.
Qed.

Lemma length_flat_map_stored3 (f : nat → option (number * number * number)) l :
  Forall (λ i, is_Some (f i)) l →
  length (flat_map (λ i, from_option stored3 [] (f i)) l) = (length l * 3)%nat.
Proof.
  induction 1 as [|i l [[[a b] c] Hi] _ IH]; [done|].
  simpl. rewrite Hi. simpl. by rewrite IH.
Qed.

(** The result of an accepted message, in terms of its accepted records. *)
Lemma parse_accepted topic message pc :
  parsePointCloud2 topic message = Ok (Some pc) →
  acceptedRecords message ≠ []
  ∧ pc.(id) = topic
  ∧ pc.(frameId)
    = default DEFAULT_FRAME
        (normalizeFrame (Tf.member message.(header) frame_id))
  ∧ pc.(positions)
    = flat_map (λ i, from_option stored3 [] (recordCoords message i))
        (acceptedRecords message)
  ∧ pc.(colors)
    = match findColorField message with
      | Some _ =>
          Some (flat_map (λ i, from_option stored3 [] (recordColor message i))
                  (acceptedRecords message))
      | None => None
      end
  ∧ Forall (λ i, recordAccepted message i = true
                 ∧ (is_Some (findColorField message)
                    → is_Some (recordColor message i)))
      (acceptedRecords message).
Proof.
  intros Hparse.
  destruct (structurallyInvalid_dec message) as [Hinv|Hvalid].
  { by rewrite (parse_invalid topic _ Hinv) in Hparse. }
  destruct (parse_valid topic message Hvalid)
    as (bytes & xF & yF & zF & Hd & Hx & Hy & Hz & Hpos & Heq).
  rewrite Heq in Hparse.
  destruct (startDecoding _ _) as [st0|e] eqn:Hstart; [|done].
  cbn [bind] in Hparse.
  destruct (decodeRecords _ _ _) as [st|e] eqn:Hloop; [|done].
  simpl in Hparse. injection Hparse as Hfin.
  destruct (parse_loop _ _ _ _ _ _ _ Hd Hx Hy Hz Hpos Hstart Hloop)
    as [(Hvp & HL & Hp & Hc & Hall) Hsome].
  assert (∀ i, recordCoords message i
               = coordsAt bytes message.(point_step) xF yF zF
                   (littleEndianOf message) i) as Hcoords.
  { intros i. unfold recordCoords. by rewrite Hd, Hx, Hy, Hz. }
  assert (∀ i, recordColor message i
               = colorAt bytes message.(point_step) (findColorField message)
                   (littleEndianOf message) i) as Hcolor.
  { intros i. unfold recordColor. by rewrite Hd. }
  unfold finishDecoding in Hfin.
  destruct (Nat.eqb_spec (validPoints st) 0) as [H0|Hn0]; [done|].
  injection Hfin as <-. cbn [id frameId positions colors]. rewrite Hvp.
  split_and!; try done.
  - intros Hnil. rewrite Hvp, Hnil in Hn0. done.
  - rewrite trim_take, Hp. apply flat_map_ext. intros i. by rewrite Hcoords.
  - destruct (findColorField message) as [cf|].
    + destruct Hc as (colors & -> & HLc & Hc).
      assert (∀ (n : nat) (l : list number),
                (if negb (n =? length l)%nat then Some (take n l) else Some l)
                = Some (take n l)) as Htrim.
      { intros n l. destruct (Nat.eqb_spec n (length l)) as [->|]; [|done].
        simpl. by rewrite firstn_all. }
      rewrite Htrim, Hc. f_equal. apply flat_map_ext. intros i.
      by rewrite Hcolor.
    + by rewrite Hc.
  - eapply Forall_impl; [exact Hall|]. intros i [Ha Hcl]. split.
    + unfold recordAccepted. by rewrite Hcoords.
    + by rewrite Hcolor.
Qed.
End PointCloudFacts.

(** ** The decoder: properties *)

Module PointCloudProperties.
Import PointCloud PointCloudFacts.

#[local] Open Scope Z_scope.

Lemma toInt32_small a : - 2 ^ 31 ≤ a < 2 ^ 31 → toInt32 a = a.
Proof.
  intros Ha. unfold toInt32, signed.
  destruct (Z.ltb_spec (a mod 2 ^ 32) (2 ^ (32 - 1))) as [Hlt|Hge].
  - destruct (Z.le_gt_cases 0 a).
    + apply Z.mod_small. lia.
    + rewrite <- (Z.mod_add a 1 (2 ^ 32)) in Hlt by lia.
      rewrite Z.mod_small in Hlt by lia. change (2 ^ (32 - 1)) with (2 ^ 31) in Hlt. lia.
  - destruct (Z.le_gt_cases 0 a).
    + rewrite Z.mod_small in Hge by lia. change (2 ^ (32 - 1)) with (2 ^ 31) in Hge. lia.
    + rewrite <- (Z.mod_add a 1 (2 ^ 32)) by lia.
      rewrite Z.mod_small by lia. lia.
Qed.

Lemma toInt32_cases value :
  0 ≤ value < 2 ^ 32 →
  - 2 ^ 31 ≤ toInt32 value < 2 ^ 31
  ∧ (toInt32 value = value ∨ toInt32 value = value + (- 2 ^ 24) * 256).
Proof.
  intros Hv. unfold toInt32, signed. rewrite Z.mod_small by lia.
  change (2 ^ (32 - 1)) with (2 ^ 31).
  destruct (Z.ltb_spec value (2 ^ 31)); lia.
Qed.

(** [a & 0xff] is the low byte of [a]. *)
Lemma band_byte a : - 2 ^ 31 ≤ a < 2 ^ 31 → band a 255 = a mod 256.
Proof.
  intros Ha. unfold band.
  rewrite (toInt32_small 255), (toInt32_small a) by lia.
  change 255 with (Z.ones 8). rewrite Z.land_ones by lia.
  change (2 ^ 8) with 256.
  apply toInt32_small. pose proof (Z.mod_pos_bound a 256). lia.
Qed.

(** [value & 0xff] and [(value >> n) & 0xff] are the bytes of [value]. *)
Lemma band_low_byte value :
  0 ≤ value < 2 ^ 32 → band value 255 = value mod 256.
Proof.
  intros Hv. destruct (toInt32_cases value Hv) as [Hr Hc].
  unfold band. rewrite <- (toInt32_small (toInt32 value)) at 1 by done.
  fold (band (toInt32 value) 255). rewrite band_byte by done.
  destruct Hc as [->| ->]; [done|]. apply Z_mod_plus_full.
Qed.

Lemma band_sar_byte value n :
  0 ≤ value < 2 ^ 32 → 0 ≤ n ≤ 24 →
  band (sar value n) 255 = (value / 2 ^ n) mod 256.
Proof.
  intros Hv Hn. destruct (toInt32_cases value Hv) as [Hr Hc].
  unfold sar. rewrite (Z.mod_small n 32) by lia.
  assert (0 < 2 ^ n) as Hpow by (apply Z.pow_pos_nonneg; lia).
  rewrite Z.shiftr_div_pow2 by lia.
  rewrite band_byte.
  2:{ split.
      - apply Z.div_le_lower_bound; [lia|]. nia.
      - apply Z.div_lt_upper_bound; [lia|]. nia. }
  destruct Hc as [->| ->]; [done|].
  replace (- 2 ^ 24 * 256) with ((- 2 ^ (24 - n) * 256) * 2 ^ n).
  - rewrite Z.div_add by lia. apply Z_mod_plus_full.
  - replace (2 ^ 24) with (2 ^ (24 - n) * 2 ^ n); [ring|].
    rewrite <- Z.pow_add_r by lia. f_equal. lia.
Qed.

Lemma littleEndianValue_range (bs : list Z) :
  Forall (λ b, 0 ≤ b < 256) bs →
  0 ≤ littleEndianValue bs < 256 ^ Z.of_nat (length bs).
Proof.
  induction 1 as [|b bs Hb _ IH]; [simpl; lia|].
  cbn [littleEndianValue fold_right length].
  fold (littleEndianValue bs).
  rewrite Nat2Z.inj_succ, Z.pow_succ_r by lia. nia.
Qed.

Lemma byteValue_range b : 0 ≤ byteValue b < 256.
Proof. by destruct b. Qed.

Lemma getUint_range n view offset littleEndian value :
  getUint n view offset littleEndian = Ok value →
  0 ≤ value < 256 ^ Z.of_nat n.
Proof.
  unfold getUint, viewBytes.
  destruct (_ && _) eqn:Hb; [|done]. simpl. intros [= <-].
  apply andb_true_iff in Hb as [H0 Hlen].
  apply Z.leb_le in H0, Hlen.
  set (bs := map byteValue (take n (drop (Z.to_nat offset) view))).
  assert (length bs = n) as Hn.
  { unfold bs. rewrite length_map, length_take, length_drop. lia. }
  assert (Forall (λ b, 0 ≤ b < 256) bs) as Hall.
  { unfold bs. apply Forall_forall. intros b Hin.
    apply list_elem_of_In, in_map_iff in Hin as (b0 & <- & _).
    apply byteValue_range. }
  unfold unsignedValue. destruct littleEndian.
  - pose proof (littleEndianValue_range bs Hall) as H. by rewrite Hn in H.
  - pose proof (littleEndianValue_range (rev bs) ltac:(by apply Forall_rev)) as H.
    by rewrite length_rev, Hn in H.
Qed.

Lemma readColor_packed view offset datatype littleEndian :
  packed datatype →
  match getUint32 view offset littleEndian with
  | Ok value =>
      0 ≤ value < 2 ^ 32
      ∧ readColor view offset datatype littleEndian
        = Ok (channel ((value / 2 ^ 16) mod 256),
              channel ((value / 2 ^ 8) mod 256),
              channel (value mod 256))
  | Throw e => readColor view offset datatype littleEndian = Throw e
  end.
Proof.
  intros Hp. unfold readColor.
  assert ((datatype =? FLOAT32) || (datatype =? UINT32) || (datatype =? INT32)
          = true) as ->.
  { destruct Hp as [->|[->| ->]]; reflexivity. }
  destruct (getUint32 view offset littleEndian) as [value|e] eqn:Hv; [|done].
  pose proof (getUint_range _ _ _ _ _ Hv) as Hr.
  change (256 ^ Z.of_nat 4) with (2 ^ 32) in Hr.
  split; [done|]. cbn [bind]. unfold channel.
  rewrite !band_sar_byte, band_low_byte by lia. done.
Qed.





(** C3 does not hold as stated: a message can have a color field of a
    packed type that is not the one the decoder colors from.  With an
    [intensity] byte 128 listed before a packed [rgb] field holding
    0x00FF8040, the accepted record is colored grey from the intensity
    byte, not (1, 0.502, 0.251). *)
Lemma packed_color_field_not_used :
  (∃ cf bytes,
     cf ∈ intensityFirst.(fields)
     ∧ cf.(name) = "rgb" ∧ packed cf.(datatype)
     ∧ intensityFirst.(data) = Some bytes
     ∧ getUint32 bytes cf.(offset) (littleEndianOf intensityFirst)
       = Ok 0x00FF8040
     ∧ readColor bytes cf.(offset) cf.(datatype)
         (littleEndianOf intensityFirst)
       = Ok (channel 255, channel 128, channel 64))
  ∧ acceptedRecords intensityFirst = [0%nat]
  ∧ findColorField intensityFirst = Some (mkPointField "intensity" 12 UINT8 1)
  ∧ (∃ pc grey,
       parsePointCloud2 "cloud" intensityFirst = Ok (Some pc)
       ∧ pc.(colors) = Some [grey; grey; grey]
       ∧ grey = fround (channel 128)
       ∧ near grey 0.502 0.001 = true
       ∧ near grey 1 0.001 = false)
  ∧ ¬ (∀ topic message pc cf,
         parsePointCloud2 topic message = Ok (Some pc) →
         cf ∈ message.(fields) → colorNamed cf → packed cf.(datatype) →
         pc.(colors)
         = Some (flat_map
                   (λ i, from_option stored3 []
                           (okValue
                              (readColor (default [] message.(data))
                                 (Z.of_nat i * message.(point_step)
                                  + cf.(offset))
                                 cf.(datatype) (littleEndianOf message))))
                   (acceptedRecords message))).
Proof.
  split_and!.
  - exists (float32Field "rgb" 16). eexists.
    split_and!; [|done|by left|done|by vm_compute|by vm_compute].
    unfold intensityFirst, xyz. cbn [fields app].
    do 4 apply list_elem_of_further. apply list_elem_of_here.
  - by vm_compute.
  - by vm_compute.
  - eexists _, _. split_and!; by vm_compute.
  - intros Hall.
    assert (∃ pc, parsePointCloud2 "cloud" intensityFirst = Ok (Some pc)
                  ∧ pc.(colors)
                    = Some [fround (channel 128); fround (channel 128);
                            fround (channel 128)])
      as (pc & Hparse & Hcolors) by (eexists; split; by vm_compute).
    assert (float32Field "rgb" 16 ∈ intensityFirst.(fields)) as Hin.
    { unfold intensityFirst, xyz. cbn [fields app].
      do 4 apply list_elem_of_further. apply list_elem_of_here. }
    pose proof (Hall "cloud" intensityFirst pc (float32Field "rgb" 16) Hparse
                  Hin (or_introl eq_refl) (or_introl eq_refl)) as Heq.
    rewrite Hcolors in Heq.
    apply (f_equal (λ o : option (list number),
                      match o with
                      | Some (r :: _) => near r 1 0.001
                      | _ => false
                      end)) in Heq.
    vm_compute in Heq. discriminate.
Qed.

(** C5: the positions of an accepted message are the stored coordinates of
    its accepted records (the records whose three decoded coordinates are
    finite), in record order and with nothing in between, three per
    record; the colors, when there is a color field, are those of the same
    records. *)
Theorem accepted_records_compacted topic message pc :
  parsePointCloud2 topic message = Ok (Some pc) →
  length pc.(positions) = (3 * length (acceptedRecords message))%nat
  ∧ pc.(positions)
    = flat_map (λ i, from_option stored3 [] (recordCoords message i))
        (acceptedRecords message)
  ∧ pc.(colors)
    = match findColorField message with
      | Some _ =>
          Some (flat_map (λ i, from_option stored3 [] (recordColor message i))
                  (acceptedRecords message))
      | None => None
      end
  ∧ Forall
      (λ i, ∃ x y z,
         recordCoords message i = Some (x, y, z)
         ∧ isFinite x = true ∧ isFinite y = true ∧ isFinite z = true
         ∧ (is_Some (findColorField message) → is_Some (recordColor message i)))
      (acceptedRecords message)
  ∧ acceptedRecords message
    = List.filter (recordAccepted message)
        (seq 0 (Z.to_nat (totalPoints message)))
  ∧ acceptedRecords message ≠ [].
Proof.
  intros Hparse.
  destruct (parse_accepted _ _ _ Hparse) as (Hne & _ & _ & Hpos & Hcol & Hall).
  assert (Forall
            (λ i, ∃ x y z,
               recordCoords message i = Some (x, y, z)
               ∧ isFinite x = true ∧ isFinite y = true ∧ isFinite z = true
               ∧ (is_Some (findColorField message)
                  → is_Some (recordColor message i)))
            (acceptedRecords message)) as Hfin.
  { eapply Forall_impl; [exact Hall|]. intros i [Ha Hc].
    unfold recordAccepted in Ha.
    destruct (recordCoords message i) as [[[x y] z]|]; [|done].
    apply andb_true_iff in Ha as [Ha Hz]. apply andb_true_iff in Ha as [Hx Hy].
    by exists x, y, z. }
  split_and!; try done.
  rewrite Hpos, length_flat_map_stored3; [lia|].
  eapply Forall_impl; [exact Hfin|]. intros i (x & y & z & -> & _). eauto.
Qed.

Lemma accepted_records_compacted_witness :
  parsePointCloud2 "cloud" twoRecords
  = Ok (Some (mkParsedPointCloud "cloud" "" [3; 4; 5]%float None))
  ∧ acceptedRecords twoRecords = [1%nat]
  ∧ length [3; 4; 5]%float = (3 * length (acceptedRecords twoRecords))%nat.
Proof.
  assert (parsePointCloud2 "cloud" twoRecords
          = Ok (Some (mkParsedPointCloud "cloud" "" [3; 4; 5]%float None)))
    as Hparse by (by vm_compute).
  split_and!; [exact Hparse|by vm_compute|].
  exact (proj1 (accepted_records_compacted _ _ _ Hparse)).
Defined.

(** C9: the frame of the result is the normalized source frame, and the
    default [map] stands in exactly when normalization gives nothing,
    which is when the source frame is absent or empty; a source frame [/]
    normalizes to the empty string and that is the frame of the result. *)
Theorem frameId_of_slash_is_empty topic message pc :
  parsePointCloud2 topic message = Ok (Some pc) →
  let source := Tf.member message.(header) frame_id in
  (source = Some "/" → pc.(frameId) = "")
  ∧ (source = None ∨ source = Some "" → pc.(frameId) = DEFAULT_FRAME)
  ∧ (source ≠ None → source ≠ Some "" →
     normalizeFrame source = Some pc.(frameId))
  ∧ (normalizeFrame source = None ↔ source = None ∨ source = Some "").
Proof.
  intros Hparse source.
  destruct (parse_accepted _ _ _ Hparse) as (_ & _ & Hframe & _).
  fold source in Hframe. rewrite Hframe.
  assert (normalizeFrame source = None ↔ source = None ∨ source = Some "") as Hnone.
  { destruct source as [[|c s]|]; simpl.
    - split; [by right|done].
    - split; [|by intros [?|?]].
      destruct (Ascii.ascii_dec c "/") as [->|Hc]; [done|].
      destruct c as [[] [] [] [] [] [] [] []]; done.
    - split; [by left|done]. }
  split_and!; [by intros ->| | |done].
  - intros Hs. apply Hnone in Hs. by rewrite Hs.
  - intros H1 H2. destruct (normalizeFrame source) eqn:Hn; [done|].
    destruct (proj1 Hnone eq_refl); done.
Qed.

Lemma frameId_of_slash_is_empty_witness :
  parsePointCloud2 "cloud" twoRecords
  = Ok (Some (mkParsedPointCloud "cloud" "" [3; 4; 5]%float None))
  ∧ Tf.member twoRecords.(header) frame_id = Some "/"
  ∧ (mkParsedPointCloud "cloud" "" [3; 4; 5]%float None).(frameId) = "".
Proof.
  assert (parsePointCloud2 "cloud" twoRecords
          = Ok (Some (mkParsedPointCloud "cloud" "" [3; 4; 5]%float None)))
    as Hparse by (by vm_compute).
  split_and!; [exact Hparse|reflexivity|].
  exact (proj1 (frameId_of_slash_is_empty _ _ _ Hparse) eq_refl).
Defined.

(** *** Reads inside the view *)

Lemma getUint_in_bounds n view offset littleEndian :
  0 ≤ offset → offset + Z.of_nat n ≤ Z.of_nat (length view) →
  ∃ v, getUint n view offset littleEndian = Ok v.
Proof.
  intros H0 Hlen. unfold getUint, viewBytes.
  assert ((0 <=? offset) && (offset + Z.of_nat n <=? Z.of_nat (length view))
          = true) as ->.
  { apply andb_true_iff. split; by apply Z.leb_le. }
  simpl. eauto.
Qed.

Lemma readNumeric_in_bounds view offset datatype littleEndian :
  0 ≤ offset →
  offset + Z.of_nat (numericSize datatype) ≤ Z.of_nat (length view) →
  ∃ v, readNumeric view offset datatype littleEndian = Ok v.
Proof.
  intros H0. unfold readNumeric, numericSize, getFloat32, getFloat64, getUint8,
    getInt8, getUint16, getInt16, getUint32, getInt32.
  destruct (Z.eqb_spec datatype FLOAT32) as [->|?].
  { simpl. intros Hlen.
    destruct (getUint_in_bounds 4 view offset littleEndian H0 Hlen) as [v ->].
    simpl. eauto. }
  destruct (Z.eqb_spec datatype FLOAT64) as [->|?].
  { simpl. intros Hlen.
    destruct (getUint_in_bounds 8 view offset littleEndian H0 Hlen) as [v ->].
    simpl. eauto. }
  destruct (Z.eqb_spec datatype UINT8) as [->|?].
  { simpl. intros Hlen.
    destruct (getUint_in_bounds 1 view offset true H0 Hlen) as [v ->].
    simpl. eauto. }
  destruct (Z.eqb_spec datatype INT8) as [->|?].
  { simpl. intros Hlen.
    destruct (getUint_in_bounds 1 view offset true H0 Hlen) as [v ->].
    simpl. eauto. }
  destruct (Z.eqb_spec datatype UINT16) as [->|?].
  { simpl. intros Hlen.
    destruct (getUint_in_bounds 2 view offset littleEndian H0 Hlen) as [v ->].
    simpl. eauto. }
  destruct (Z.eqb_spec datatype INT16) as [->|?].
  { simpl. intros Hlen.
    destruct (getUint_in_bounds 2 view offset littleEndian H0 Hlen) as [v ->].
    simpl. eauto. }
  destruct (Z.eqb_spec datatype UINT32) as [->|?].
  { simpl. intros Hlen.
    destruct (getUint_in_bounds 4 view offset littleEndian H0 Hlen) as [v ->].
    simpl. eauto. }
  destruct (Z.eqb_spec datatype INT32) as [->|?].
  { simpl. intros Hlen.
    destruct (getUint_in_bounds 4 view offset littleEndian H0 Hlen) as [v ->].
    simpl. eauto. }
  eauto.
Qed.

Lemma readColor_in_bounds view offset datatype littleEndian :
  0 ≤ offset →
  offset + Z.of_nat (colorSize datatype) ≤ Z.of_nat (length view) →
  ∃ c, readColor view offset datatype littleEndian = Ok c.
Proof.
  intros H0. unfold readColor, colorSize, getFloat64, getUint8, getUint32.
  destruct ((datatype =? FLOAT32) || (datatype =? UINT32) || (datatype =? INT32)).
  { intros Hlen.
    destruct (getUint_in_bounds 4 view offset littleEndian H0 Hlen) as [v ->].
    cbn [bind]. eauto. }
  destruct ((datatype =? UINT8) || (datatype =? INT8)).
  { intros Hlen.
    destruct (getUint_in_bounds 1 view offset true H0 Hlen) as [v ->].
    simpl. eauto. }
  destruct (datatype =? FLOAT64).
  { intros Hlen.
    destruct (getUint_in_bounds 8 view offset littleEndian H0 Hlen) as [v ->].
    simpl. eauto. }
  eauto.
Qed.

(** A field that fits in the record is inside the view at every record. *)
Lemma fits_in_view size field step count (view : DataView) i :
  fits size field step → step * count ≤ Z.of_nat (length view) →
  (i < Z.to_nat count)%nat →
  0 ≤ Z.of_nat i * step + field.(offset)
  ∧ Z.of_nat i * step + field.(offset) + Z.of_nat size
    ≤ Z.of_nat (length view).
Proof. unfold fits. intros [H0 Hs] Hlen Hi. split; nia. Qed.

Lemma decodeRecords_in_bounds view step xField yField zField colorField le
    count indices :
  fits (numericSize xField.(datatype)) xField step →
  fits (numericSize yField.(datatype)) yField step →
  fits (numericSize zField.(datatype)) zField step →
  (∀ cf, colorField = Some cf → fits (colorSize cf.(datatype)) cf step) →
  step * count ≤ Z.of_nat (length view) →
  Forall (λ i, (i < Z.to_nat count)%nat) indices →
  ∀ st, ∃ st',
    decodeRecords (decodeRecord view step xField yField zField colorField le)
      indices st = Ok st'.
Proof.
  intros Hx Hy Hz Hc Hlen. induction 1 as [|i indices Hi _ IH]; intros st.
  { simpl. eauto. }
  cbn [decodeRecords].
  assert (∃ st1, decodeRecord view step xField yField zField colorField le st i
                 = Ok st1) as [st1 ->].
  { unfold decodeRecord.
    destruct (fits_in_view _ _ _ _ view i Hx Hlen Hi) as [Hx0 Hx1].
    destruct (readNumeric_in_bounds view _ _ le Hx0 Hx1) as [x ->].
    destruct (fits_in_view _ _ _ _ view i Hy Hlen Hi) as [Hy0 Hy1].
    destruct (readNumeric_in_bounds view _ _ le Hy0 Hy1) as [y ->].
    destruct (fits_in_view _ _ _ _ view i Hz Hlen Hi) as [Hz0 Hz1].
    destruct (readNumeric_in_bounds view _ _ le Hz0 Hz1) as [z ->].
    cbn [bind].
    destruct (negb (isFinite x) || negb (isFinite y) || negb (isFinite z));
      [eauto|].
    destruct (d_colors st) as [colors|]; [|simpl; eauto].
    destruct colorField as [cf|]; [|simpl; eauto].
    destruct (fits_in_view _ _ _ _ view i (Hc cf eq_refl) Hlen Hi) as [Hc0 Hc1].
    destruct (readColor_in_bounds view _ _ le Hc0 Hc1) as [[[r g] b] ->].
    simpl. eauto. }
  simpl. apply IH.
Qed.

Lemma parse_in_bounds topic message :
  fieldsFit message → allocatable message →
  ∃ r, parsePointCloud2 topic message = Ok r.
Proof.
  intros [Hxyz Hcolor] Halloc.
  destruct (structurallyInvalid_dec message) as [Hinv|Hvalid].
  { rewrite (parse_invalid topic _ Hinv). eauto. }
  destruct (parse_valid topic message Hvalid)
    as (bytes & xF & yF & zF & Hd & Hx & Hy & Hz & Hpos & ->).
  destruct (startDecoding_cases (totalPoints message) (findColorField message))
    as [[_ ->]|[Hgt _]]; [lia| |unfold allocatable in Halloc; lia].
  cbn [bind].
  destruct (decodeRecords_in_bounds bytes message.(point_step) xF yF zF
              (findColorField message) (littleEndianOf message)
              (totalPoints message) (seq 0 (Z.to_nat (totalPoints message))))
    with (st := mkDecoding
                  (replicate (Z.to_nat (totalPoints message * 3)) 0%float)
                  (match findColorField message with
                   | Some _ =>
                       Some (replicate (Z.to_nat (totalPoints message * 3))
                               0%float)
                   | None => None
                   end) 0%nat)
    as [st' ->].
  - apply (Hxyz "x"); tauto.
  - apply (Hxyz "y"); tauto.
  - apply (Hxyz "z"); tauto.
  - intros cf Hcf. by apply Hcolor.
  - unfold structurallyInvalid in Hvalid. rewrite Hd in Hvalid. lia.
  - apply Forall_forall. intros i Hi. apply list_elem_of_In, in_seq in Hi. lia.
  - simpl. eauto.
Qed.

(** Past the preconditions, arrays beyond the limit of the language are
    refused before any record is read. *)
Lemma parse_not_allocatable topic message :
  ¬ structurallyInvalid message → ¬ allocatable message →
  parsePointCloud2 topic message = Throw RangeError.
Proof.
  intros Hvalid Halloc.
  destruct (parse_valid topic message Hvalid)
    as (bytes & xF & yF & zF & Hd & Hx & Hy & Hz & Hpos & ->).
  destruct (startDecoding_cases (totalPoints message) (findColorField message))
    as [[Hle _]|[_ ->]]; [lia| |done].
  unfold allocatable in Halloc. lia.
Qed.

(** C4: the decoder gives no result exactly when a precondition fails
    or when the arrays can be allocated, every record decodes without an
    exception and none is accepted.  It raises [RangeError] exactly when
    the preconditions hold and either the arrays are beyond what the
    language allocates or a record cannot be read; it raises nothing when
    the arrays can be allocated and every field it reads lies inside the
    record.  A message whose [y] and [z] fields lie behind its single
    four-byte record passes the preconditions and raises [RangeError], and
    so does a message of 4294967295 x 4294967295 empty records. *)
Theorem parsePointCloud2_no_result :
  (∀ topic message,
     parsePointCloud2 topic message = Ok None
     ↔ structurallyInvalid message
       ∨ (allocatable message ∧ noAcceptedRecord message))
  ∧ (∀ topic message e,
       parsePointCloud2 topic message = Throw e
       ↔ ¬ structurallyInvalid message
         ∧ (¬ allocatable message
            ∨ ∃ i, (i < Z.to_nat (totalPoints message))%nat
                   ∧ (recordCoords message i = None
                      ∨ (recordAccepted message i = true
                         ∧ is_Some (findColorField message)
                         ∧ recordColor message i = None))))
  ∧ (∀ topic message,
       fieldsFit message → allocatable message →
       ∃ r, parsePointCloud2 topic message = Ok r)
  ∧ (¬ structurallyInvalid shortRecord
     ∧ allocatable shortRecord
     ∧ parsePointCloud2 "cloud" shortRecord = Throw RangeError)
  ∧ (¬ structurallyInvalid hugeCloud
     ∧ fieldsFit hugeCloud
     ∧ parsePointCloud2 "cloud" hugeCloud = Throw RangeError).
Proof.
  assert (∀ message bytes xF yF zF,
            message.(data) = Some bytes →
            findField "x" message = Some xF →
            findField "y" message = Some yF →
            findField "z" message = Some zF →
            (∀ i, recordCoords message i
                  = coordsAt bytes message.(point_step) xF yF zF
                      (littleEndianOf message) i)
            ∧ (∀ i, recordAccepted message i
                    = acceptedAt bytes message.(point_step) xF yF zF
                        (littleEndianOf message) i)
            ∧ (∀ i, recordColor message i
                    = colorAt bytes message.(point_step)
                        (findColorField message) (littleEndianOf message) i))
    as Hrecords.
  { intros message bytes xF yF zF Hd Hx Hy Hz.
    assert (∀ i, recordCoords message i
                 = coordsAt bytes message.(point_step) xF yF zF
                     (littleEndianOf message) i) as Hcoords.
    { intros i. unfold recordCoords. by rewrite Hd, Hx, Hy, Hz. }
    split_and!; [done| |].
    - intros i. unfold recordAccepted, acceptedAt. by rewrite Hcoords.
    - intros i. unfold recordColor. by rewrite Hd. }
  split_and!.
  - intros topic message.
    destruct (structurallyInvalid_dec message) as [Hinv|Hvalid].
    { rewrite (parse_invalid topic _ Hinv). tauto. }
    destruct (parse_valid topic message Hvalid)
      as (bytes & xF & yF & zF & Hd & Hx & Hy & Hz & Hpos & Heq).
    destruct (Hrecords _ _ _ _ _ Hd Hx Hy Hz) as (Hcoords & Hacc & _).
    rewrite Heq.
    destruct (startDecoding_cases (totalPoints message)
                (findColorField message)) as [[Hle Hstart]|[Hgt Hstart]];
      [lia| |].
    2:{ rewrite Hstart. split; [done|].
        unfold allocatable. intros [?|[? _]]; [done|lia]. }
    split.
    + destruct (startDecoding _ _) as [st0|] eqn:Hst0; [|done]. cbn [bind].
      destruct (decodeRecords _ _ _) as [st|e] eqn:Hloop; [|done].
      simpl. intros [= Hfin]. right. split; [done|].
      destruct (parse_loop _ _ _ _ _ _ _ Hd Hx Hy Hz Hpos Hst0 Hloop)
        as [(Hvp & _) Hsome].
      unfold finishDecoding in Hfin.
      destruct (Nat.eqb_spec (validPoints st) 0) as [H0|?]; [|done].
      intros i Hi. split; [by apply Hsome|].
      destruct (recordAccepted message i) eqn:Hai; [|done].
      assert (i ∈ acceptedRecords message) as Hin.
      { apply list_elem_of_In, filter_In. split; [|done]. apply in_seq. lia. }
      rewrite H0 in Hvp. destruct (acceptedRecords message); [|done].
      by apply elem_of_nil in Hin.
    + intros [Hinv|[_ Hnone]]; [done|]. rewrite Hstart. cbn [bind].
      rewrite (decodeRecords_none_accepted bytes _ xF yF zF).
      * simpl. unfold finishDecoding. done.
      * apply Forall_forall. intros i Hi.
        apply list_elem_of_In, in_seq in Hi.
        destruct (Hnone i) as [Hs Ha]; [lia|].
        by rewrite <- Hcoords, <- Hacc.
  - intros topic message e. destruct e.
    destruct (structurallyInvalid_dec message) as [Hinv|Hvalid].
    { rewrite (parse_invalid topic _ Hinv). split; [done|tauto]. }
    destruct (parse_valid topic message Hvalid)
      as (bytes & xF & yF & zF & Hd & Hx & Hy & Hz & Hpos & Heq).
    destruct (Hrecords _ _ _ _ _ Hd Hx Hy Hz) as (Hcoords & Hacc & Hcol).
    rewrite Heq.
    destruct (startDecoding_cases (totalPoints message)
                (findColorField message)) as [[Hle Hstart]|[Hgt Hstart]];
      [lia| |].
    2:{ rewrite Hstart. split; [|done]. intros _. split; [done|].
        left. unfold allocatable. lia. }
    destruct (startDecoding _ _) as [st0|] eqn:Hst0; [|done]. cbn [bind].
    split.
    + intros Hthrow. split; [done|]. right.
      destruct (decodeRecords_completes bytes message.(point_step) xF yF zF
                  (littleEndianOf message) (findColorField message)
                  (seq 0 (Z.to_nat (totalPoints message))) st0)
        as [[st' Hok]|(i & Hi & Hbad)].
      { by rewrite Hok in Hthrow. }
      exists i. apply list_elem_of_In, in_seq in Hi. split; [lia|].
      by rewrite Hcoords, Hacc, Hcol.
    + intros (_ & [Hna|(i & Hi & Hbad)]).
      { unfold allocatable in Hna. lia. }
      destruct (decodeRecords _ _ _) as [st|[]] eqn:Hloop; [|done].
      exfalso.
      destruct (parse_loop _ _ _ _ _ _ _ Hd Hx Hy Hz Hpos Hst0 Hloop)
        as [(_ & _ & _ & _ & Hall) Hsome].
      destruct Hbad as [Hnone|(Ha & Hcf & Hnone)].
      * destruct (Hsome i Hi) as [c Hc]. by rewrite Hc in Hnone.
      * rewrite Forall_forall in Hall.
        destruct (Hall i) as [_ Hsc].
        { apply list_elem_of_In, filter_In. split; [apply in_seq; lia|done]. }
        destruct (Hsc Hcf) as [c Hc]. rewrite <- Hcol in Hc.
        by rewrite Hc in Hnone.
  - apply parse_in_bounds.
  - unfold structurallyInvalid. vm_compute. intros [?|[?|[?|[?|?]]]]; done.
  - by vm_compute.
  - by vm_compute.
  - unfold structurallyInvalid. vm_compute. intros [?|[?|[?|[?|?]]]]; done.
  - split.
    + intros n field Hn. destruct Hn as [->|[->| ->]]; intros [= <-];
        vm_compute; split; discriminate.
    + intros field. by vm_compute.
  - by vm_compute.
Qed.

Lemma parsePointCloud2_no_result_witness :
  allocatable nanRecord
  ∧ noAcceptedRecord nanRecord
  ∧ parsePointCloud2 "cloud" nanRecord = Ok None.
Proof.
  assert (allocatable nanRecord) as Halloc by (by vm_compute).
  assert (noAcceptedRecord nanRecord) as Hnone.
  { intros i Hi. assert (i = 0%nat) as -> by (revert Hi; vm_compute; lia).
    split; [by eexists|by vm_compute]. }
  split_and!; [exact Halloc|exact Hnone|].
  exact (proj2 (proj1 parsePointCloud2_no_result "cloud" nanRecord)
           (or_intror (conj Halloc Hnone))).
Defined.

(** C10: an unsupported type makes [readNumeric] answer NaN without
    reading, NaN is not finite, and so a message whose [x], [y] or [z]
    field has such a type has no accepted record and never gives a point
    set; but the reads of the other coordinates still take place, and a
    message with an [x] field of type 9 whose [y] and [z] fields lie behind
    its record raises [RangeError]. *)
Theorem unsupported_coordinate_type :
  (∀ view offset datatype littleEndian,
     ¬ supported datatype →
     readNumeric view offset datatype littleEndian = Ok PrimFloat.nan)
  ∧ isFinite PrimFloat.nan = false
  ∧ (∀ topic message n field,
       n = "x" ∨ n = "y" ∨ n = "z" →
       findField n message = Some field →
       ¬ supported field.(datatype) →
       (∀ i, recordAccepted message i = false)
       ∧ (∀ pc, parsePointCloud2 topic message ≠ Ok (Some pc)))
  ∧ (∃ field,
       findField "x" unknownTypeRecord = Some field
       ∧ ¬ supported field.(datatype)
       ∧ ¬ structurallyInvalid unknownTypeRecord
       ∧ parsePointCloud2 "cloud" unknownTypeRecord = Throw RangeError).
Proof.
  assert (∀ view offset datatype littleEndian,
            ¬ supported datatype →
            readNumeric view offset datatype littleEndian = Ok PrimFloat.nan)
    as Hnan.
  { intros view offset datatype le Hns. unfold readNumeric, supported in *.
    unfold FLOAT32, FLOAT64, UINT8, INT8, UINT16, INT16, UINT32, INT32.
    repeat match goal with
           | |- context [datatype =? ?k] =>
               destruct (Z.eqb_spec datatype k); [lia|]
           end.
    done. }
  split_and!; [exact Hnan|done| |].
  - intros topic message n field Hn Hf Hns.
    assert (∀ i, recordAccepted message i = false) as Hrej.
    { intros i. unfold recordAccepted, recordCoords.
      destruct (data message) as [bytes|]; [|done].
      destruct (findField "x" message) as [xF|] eqn:Hx; [|done].
      destruct (findField "y" message) as [yF|] eqn:Hy; [|done].
      destruct (findField "z" message) as [zF|] eqn:Hz; [|done].
      unfold coordsAt.
      destruct Hn as [->|[->| ->]]; rewrite Hf in *.
      - injection Hx as <-. rewrite Hnan by done. cbn [bind].
        destruct (readNumeric _ _ (datatype yF) _) as [y|]; [|done]. cbn [bind].
        destruct (readNumeric _ _ (datatype zF) _) as [z|]; done.
      - injection Hy as <-.
        destruct (readNumeric _ _ (datatype xF) _) as [x|]; [|done]. cbn [bind].
        rewrite Hnan by done. cbn [bind].
        destruct (readNumeric _ _ (datatype zF) _) as [z|]; [|done].
        simpl. by rewrite andb_false_r.
      - injection Hz as <-.
        destruct (readNumeric _ _ (datatype xF) _) as [x|]; [|done]. cbn [bind].
        destruct (readNumeric _ _ (datatype yF) _) as [y|]; [|done]. cbn [bind].
        rewrite Hnan by done. simpl. by rewrite andb_false_r. }
    split; [done|]. intros pc Hparse.
    destruct (parse_accepted _ _ _ Hparse) as (Hne & _).
    apply Hne. unfold acceptedRecords.
    induction (seq 0 _) as [|i l IH]; [done|]. simpl. by rewrite Hrej.
  - eexists. split; [by vm_compute|]. split_and!.
    + unfold supported. simpl. lia.
    + unfold structurallyInvalid. vm_compute. intros [?|[?|[?|[?|?]]]]; done.
    + by vm_compute.
Qed.

Lemma unsupported_coordinate_type_witness :
  ¬ supported 9
  ∧ readNumeric (bytes32 0x3F800000) 100 9 true = Ok PrimFloat.nan.
Proof.
  assert (¬ supported 9) as Hns by (unfold supported; lia).
  split; [exact Hns|].
  exact (proj1 unsupported_coordinate_type (bytes32 0x3F800000) 100 9 true Hns).
Defined.
End PointCloudProperties.

(** ** The transform store: what [update] does to the store *)

Module TfStoreProperties.
Import Tf TfSpec TfFacts TfFrames.

Lemma update_fold this message isStatic :
  update this message isStatic
  = let r := fold_left updateEntry (default [] message.(transforms))
               (selected this isStatic, false) in
    (if isStatic then mkTfStore this.(dynamicTransforms) r.1
     else mkTfStore r.1 this.(staticTransforms), r.2).
Proof.
  unfold update, selected.
  by destruct (fold_left updateEntry _ _).
Qed.

Lemma selected_update this message isStatic :
  selected (update this message isStatic).1 isStatic
  = (fold_left updateEntry (default [] message.(transforms))
       (selected this isStatic, false)).1.
Proof. rewrite update_fold. by destruct isStatic. Qed.

Lemma selected_update_other this message isStatic :
  selected (update this message isStatic).1 (negb isStatic)
  = selected this (negb isStatic).
Proof. rewrite update_fold. by destruct isStatic. Qed.

Lemma update_unreported this message isStatic :
  (update this message isStatic).2 = false →
  (update this message isStatic).1 = this.
Proof.
  rewrite update_fold. cbn [fst snd]. intros Hflag.
  destruct (fold_updateEntry_flag _ _ _ Hflag) as [_ ->].
  destruct this, isStatic; done.
Qed.

(** X1: [update] answers [false] exactly when every entry of the batch
    that can be stored (child frame present and not empty) finds its
    child's edge already stored with the same parent and a matrix that does
    not differ; the store is then left exactly as it was. *)
Theorem update_false_iff_nothing_new this message isStatic :
  ((update this message isStatic).2 = false
   ↔ Forall (agrees (selected this isStatic)) (default [] message.(transforms)))
  ∧ ((update this message isStatic).2 = false →
     (update this message isStatic).1 = this).
Proof.
  split; [|apply update_unreported].
  rewrite update_fold. cbn [fst snd]. split.
  - intros Hflag.
    destruct (fold_updateEntry_flag _ _ _ Hflag) as [_ Hfold].
    by apply fold_updateEntry_unchanged_agrees.
  - intros Hag. by rewrite update_unchanged.
Qed.

(** The keys of a map after [set]. *)
Lemma JsMap_keys_set {V} (m : JsMap.t V) k v :
  JsMap.keys (JsMap.set m k v)
  = if decide (k ∈ JsMap.keys m) then JsMap.keys m else JsMap.keys m ++ [k].
Proof.
  unfold JsMap.keys. induction m as [|[k' v'] m IH]; cbn [JsMap.set map fst].
  { case_decide as Hin; [by apply elem_of_nil in Hin|done]. }
  destruct (decide (k = k')) as [->|Hne]; cbn [map fst].
  - rewrite decide_True; [done|]. apply list_elem_of_here.
  - rewrite IH. destruct (decide (k ∈ map fst m)) as [Hin|Hnin].
    + rewrite decide_True; [done|]. by apply list_elem_of_further.
    + rewrite decide_False; [done|]. rewrite elem_of_cons. naive_solver.
Qed.

Lemma updateEntry_keys store updated transform :
  JsMap.keys (updateEntry (store, updated) transform).1
  = match entryKey transform with
    | Some child => JsSet.add (JsMap.keys store) child
    | None => JsMap.keys store
    end.
Proof.
  unfold entryKey, updateEntry, JsSet.add.
  destruct (normalizeFrame (child_frame_id transform)) as [child|]; [|done].
  destruct (truthy child); cbn [negb]; [|done].
  destruct (JsMap.get store child) as [previous|] eqn:Hget.
  - apply JsMap_get_keys in Hget.
    destruct (parentDiffers _ _ || matricesDiffer _ _); cbn [fst].
    + rewrite JsMap_keys_set. by rewrite !decide_True.
    + by rewrite decide_True.
  - cbn [fst]. by rewrite JsMap_keys_set.
Qed.

Lemma fold_updateEntry_keys entries :
  ∀ store updated,
    JsMap.keys (fold_left updateEntry entries (store, updated)).1
    = fold_left JsSet.add (entryKeys entries) (JsMap.keys store).
Proof.
  induction entries as [|e entries IH]; intros store updated; [done|].
  cbn [fold_left]. destruct (updateEntry (store, updated) e) as [s1 u1] eqn:He.
  rewrite IH. change s1 with (s1, u1).1. rewrite <- He, updateEntry_keys.
  change (entryKeys (e :: entries))
    with (match entryKey e with
          | Some k => k :: entryKeys entries
          | None => entryKeys entries
          end).
  by destruct (entryKey e).
Qed.

Lemma fold_add_prefix (l : list string) :
  ∀ acc, acc `prefix_of` fold_left JsSet.add l acc.
Proof.
  induction l as [|x l IH]; intros acc; [done|]. cbn [fold_left].
  etrans; [|apply IH]. unfold JsSet.add. case_decide; [done|].
  by apply prefix_app_r.
Qed.

(** X2: [update] writes to the selected map only, and there only to the
    edges of the children the batch names: the other map and every other
    edge are as before, no edge is removed, the children that had an edge
    keep their place in the iteration order, and the new children follow
    them in the order of the batch. *)
Theorem update_writes_only_the_batch this message isStatic :
  let this' := (update this message isStatic).1 in
  let entries := default [] message.(transforms) in
  selected this' (negb isStatic) = selected this (negb isStatic)
  ∧ (∀ k, k ∉ entryKeys entries →
       JsMap.get (selected this' isStatic) k
       = JsMap.get (selected this isStatic) k)
  ∧ JsMap.keys (selected this' isStatic)
    = fold_left JsSet.add (entryKeys entries) (JsMap.keys (selected this isStatic))
  ∧ JsMap.keys (selected this isStatic)
      `prefix_of` JsMap.keys (selected this' isStatic)
  ∧ (∀ k, k ∈ JsMap.keys (selected this' isStatic)
          ↔ k ∈ JsMap.keys (selected this isStatic) ∨ k ∈ entryKeys entries).
Proof.
  intros this' entries. subst this'. split_and!.
  - apply selected_update_other.
  - intros k Hk. rewrite selected_update. apply update_other.
    intros Hin. apply Hk. apply list_elem_of_fmap in Hin as (e & Heq & Hin).
    apply list_elem_of_omap. by exists e.
  - rewrite selected_update. apply fold_updateEntry_keys.
  - rewrite selected_update, fold_updateEntry_keys. apply fold_add_prefix.
  - intros k. rewrite selected_update, fold_updateEntry_keys.
    apply elem_of_fold_add.
Qed.

Lemma updateEntry_stores store updated transform child :
  entryKey transform = Some child →
  ∃ stored,
    JsMap.get (updateEntry (store, updated) transform).1 child = Some stored
    ∧ stored.(parent) = normalizeFrame (member transform.(header) frame_id)
    ∧ (stored.(matrix) = composeMatrix transform
       ∨ matricesDiffer stored.(matrix) (composeMatrix transform) = false).
Proof.
  unfold entryKey, updateEntry.
  destruct (normalizeFrame (child_frame_id transform)) as [c|]; [|by intros [=]].
  destruct (truthy c); [|by intros [=]]. intros [= ->]. cbn [negb].
  destruct (JsMap.get store child) as [previous|] eqn:Hget.
  - destruct (parentDiffers _ _ || matricesDiffer _ _) eqn:Hch; cbn [fst].
    + eexists. rewrite JsMap_get_set_eq. split; [done|]. cbn [parent matrix].
      split; [done|by left].
    + apply orb_false_iff in Hch as [Hp Hm]. exists previous.
      split; [done|]. split; [|by right].
      unfold parentDiffers in Hp. by case_decide.
  - eexists. cbn [fst]. rewrite JsMap_get_set_eq. split; [done|].
    cbn [parent matrix]. split; [done|by left].
Qed.

(** X3: the last entry of a batch for a child wins.  After [update] the
    stored edge of that child has the parent of that entry (its normalized
    [header.frame_id]) and the entry's composed matrix, or a matrix kept
    from before that does not differ from it in any element. *)
Theorem update_last_entry_wins this message isStatic before entry after child :
  default [] message.(transforms) = before ++ entry :: after →
  entryKey entry = Some child →
  child ∉ entryKeys after →
  ∃ stored,
    JsMap.get (selected (update this message isStatic).1 isStatic) child
    = Some stored
    ∧ stored.(parent) = normalizeFrame (member entry.(header) frame_id)
    ∧ (stored.(matrix) = composeMatrix entry
       ∨ matricesDiffer stored.(matrix) (composeMatrix entry) = false).
Proof.
  intros Hsplit Hkey Hlast. rewrite selected_update, Hsplit.
  rewrite fold_left_app. cbn [fold_left].
  destruct (fold_left updateEntry before _) as [store0 updated0].
  destruct (updateEntry_stores store0 updated0 entry child Hkey)
    as (stored & Hget & Hrest).
  exists stored. split; [|done].
  destruct (updateEntry (store0, updated0) entry) as [store1 updated1].
  rewrite update_other; [done|].
  intros Hin. apply Hlast. apply list_elem_of_fmap in Hin as (e & Heq & Hin).
  apply list_elem_of_omap. by exists e.
Qed.

Lemma update_last_entry_wins_witness :
  ∃ stored,
    JsMap.get (selected (update Tf.empty repeatedChild false).1 false) "a"
    = Some stored
    ∧ stored.(parent) = Some "p"
    ∧ (stored.(matrix) = composeMatrix (stamped "a" "p" 2 0 0 None)
       ∨ matricesDiffer stored.(matrix)
           (composeMatrix (stamped "a" "p" 2 0 0 None)) = false).
Proof.
  apply (update_last_entry_wins Tf.empty repeatedChild false
           [stamped "a" "p" 1 0 0 None] (stamped "a" "p" 2 0 0 None) [] "a").
  - reflexivity.
  - reflexivity.
  - apply not_elem_of_nil.
Defined.

(** *** The keys of a reachable store *)

Lemma NoDup_JsSet_add (s : JsSet.t) x : NoDup s → NoDup (JsSet.add s x).
Proof.
  intros Hs. unfold JsSet.add. case_decide; [done|].
  apply NoDup_app. split_and!; [done| |apply NoDup_singleton].
  intros y Hy ->%list_elem_of_singleton. done.
Qed.

Lemma NoDup_fold_add (l : list string) :
  ∀ acc, NoDup acc → NoDup (fold_left JsSet.add l acc).
Proof.
  induction l as [|x l IH]; intros acc Hacc; [done|].
  cbn [fold_left]. by apply IH, NoDup_JsSet_add.
Qed.

Lemma entryKey_truthy transform child :
  entryKey transform = Some child → truthy child = true.
Proof.
  unfold entryKey. destruct (normalizeFrame _) as [c|]; [|done].
  destruct (truthy c) eqn:Hc; [|done]. by intros [= <-].
Qed.

Lemma wellKeyed_update this message isStatic :
  wellKeyed (selected this isStatic) →
  wellKeyed (selected (update this message isStatic).1 isStatic).
Proof.
  intros [Hnd Hall]. rewrite selected_update. split.
  - rewrite fold_updateEntry_keys. by apply NoDup_fold_add.
  - apply Forall_forall. intros k Hk.
    rewrite fold_updateEntry_keys in Hk. apply elem_of_fold_add in Hk as [Hk|Hk].
    + by eapply (proj1 (Forall_forall _ _) Hall).
    + apply list_elem_of_omap in Hk as (e & _ & He).
      by eapply entryKey_truthy.
Qed.

Lemma wellKeyed_get (m : JsMap.t FrameTransform) k v :
  NoDup (JsMap.keys m) → (k, v) ∈ m ↔ JsMap.get m k = Some v.
Proof.
  unfold JsMap.keys. induction m as [|[k' v'] m IH]; simpl; intros Hnd.
  { split; [by intros ?%elem_of_nil|done]. }
  apply NoDup_cons in Hnd as [Hk' Hnd]. rewrite elem_of_cons.
  case_decide as Hk.
  - subst k'. split.
    + intros [[= ->]|Hin]; [done|]. exfalso. apply Hk'.
      apply list_elem_of_fmap. by exists (k, v).
    + intros [= ->]. by left.
  - rewrite <- IH by done. split; [|by right].
    intros [[= -> ->]|Hin]; done.
Qed.

(** X4: in every state a store can reach (from a new store by [update],
    [resetDynamic] and [clearAll]) each of the two maps holds at most one
    edge per child and no edge under the empty name, so [get] returns the
    one entry of a child. *)
Theorem reachable_store_well_keyed this :
  reachable this →
  wellKeyed this.(dynamicTransforms)
  ∧ wellKeyed this.(staticTransforms)
  ∧ (∀ isStatic k v,
       (k, v) ∈ selected this isStatic
       ↔ JsMap.get (selected this isStatic) k = Some v).
Proof.
  intros Hr.
  assert (wellKeyed this.(dynamicTransforms) ∧ wellKeyed this.(staticTransforms))
    as [Hd Hs].
  { induction Hr as [|this message isStatic _ [Hd Hs]|this _ [Hd Hs]|this _ _].
    - split; split; constructor.
    - pose proof (wellKeyed_update this message isStatic) as Hsel.
      pose proof (selected_update_other this message isStatic) as Hother.
      destruct isStatic; cbn [selected negb] in *.
      + rewrite Hother. split; [done|by apply Hsel].
      + rewrite Hother. split; [by apply Hsel|done].
    - split; [split; constructor|done].
    - split; split; constructor. }
  split_and!; [done|done|].
  intros isStatic k v. apply wellKeyed_get.
  destruct isStatic; [apply Hs|apply Hd].
Qed.

Lemma reachable_store_well_keyed_witness :
  wellKeyed chainStore.(dynamicTransforms)
  ∧ wellKeyed chainStore.(staticTransforms)
  ∧ (∀ isStatic k v,
       (k, v) ∈ selected chainStore isStatic
       ↔ JsMap.get (selected chainStore isStatic) k = Some v).
Proof.
  apply (reachable_store_well_keyed chainStore).
  apply (reachable_update Tf.empty
           (batch [stamped "B" "A" 0 0 0 None; stamped "C" "B" 1 0 0 None])
           false).
  apply reachable_new.
Defined.

(** *** The candidate frames of a pass *)

Lemma elem_of_addParents (m : JsMap.t FrameTransform) :
  ∀ names x,
    x ∈ addParents names m
    ↔ x ∈ names
      ∨ (truthy x = true ∧ ∃ t, t ∈ JsMap.values m ∧ t.(parent) = Some x).
Proof.
  unfold addParents. induction (JsMap.values m) as [|t l IH]; intros names x.
  { cbn [fold_left]. split; [by left|]. intros [?|(_ & t & Ht & _)]; [done|].
    by apply elem_of_nil in Ht. }
  cbn [fold_left]. rewrite IH. clear IH.
  assert (x ∈ match t.(parent) with
              | Some p => if truthy p then JsSet.add names p else names
              | None => names
              end
          ↔ x ∈ names ∨ (truthy x = true ∧ t.(parent) = Some x)) as ->.
  { destruct (parent t) as [p|]; [|naive_solver].
    destruct (truthy p) eqn:Hp.
    - rewrite JsSet_elem_of_add. naive_solver.
    - split; [by left|]. intros [?|[Hx [= ->]]]; [done|congruence]. }
  setoid_rewrite elem_of_cons. naive_solver.
Qed.

Lemma NoDup_addParents (m : JsMap.t FrameTransform) :
  ∀ names, NoDup names → NoDup (addParents names m).
Proof.
  unfold addParents. induction (JsMap.values m) as [|t l IH]; intros names Hnd;
    [done|].
  cbn [fold_left]. apply IH. destruct (parent t) as [p|]; [|done].
  destruct (truthy p); [|done]. by apply NoDup_JsSet_add.
Qed.

Lemma elem_of_values (m : JsMap.t FrameTransform) t :
  t ∈ JsMap.values m ↔ ∃ child, (child, t) ∈ m.
Proof.
  unfold JsMap.values. rewrite list_elem_of_fmap. split.
  - intros ([child t'] & -> & Hin). by exists child.
  - intros (child & Hin). by exists (child, t).
Qed.

Lemma fixedGiven_Some fixedFrame f :
  fixedGiven fixedFrame = Some f ↔ fixedFrame = Some f ∧ truthy f = true.
Proof.
  unfold fixedGiven. destruct fixedFrame as [g|]; [|by split; [|intros [? _]]].
  destruct (truthy g) eqn:Hg; split.
  - by intros [= ->].
  - by intros [[= ->] _].
  - done.
  - intros [[= ->] Hf]. congruence.
Qed.

Lemma elem_of_frameNames this fixedFrame f :
  f ∈ frameNames this fixedFrame
  ↔ f ∈ JsMap.keys this.(dynamicTransforms)
    ∨ f ∈ JsMap.keys this.(staticTransforms)
    ∨ (truthy f = true ∧ namedAsParent this f)
    ∨ fixedGiven fixedFrame = Some f.
Proof.
  assert (f ∈ addParents
            (addParents
               (fold_left JsSet.add (JsMap.keys (staticTransforms this))
                  (fold_left JsSet.add (JsMap.keys (dynamicTransforms this)) []))
               (dynamicTransforms this))
            (staticTransforms this)
          ↔ f ∈ JsMap.keys this.(dynamicTransforms)
            ∨ f ∈ JsMap.keys this.(staticTransforms)
            ∨ (truthy f = true ∧ namedAsParent this f)) as Hbase.
  { rewrite !elem_of_addParents, !elem_of_fold_add, elem_of_nil.
    unfold namedAsParent. setoid_rewrite elem_of_app.
    setoid_rewrite elem_of_values. naive_solver. }
  rewrite fixedGiven_Some. unfold frameNames.
  destruct fixedFrame as [g|]; [|rewrite Hbase; naive_solver].
  destruct (truthy g) eqn:Hg.
  - rewrite JsSet_elem_of_add, Hbase. split.
    + intros [?| ->]; [tauto|]. by do 3 right.
    + intros [?|[?|[?|[[= ->] _]]]]; tauto.
  - rewrite Hbase. split; [tauto|].
    intros [?|[?|[?|[[= ->] Hf]]]]; [tauto..|congruence].
Qed.

Lemma NoDup_frameNames this fixedFrame : NoDup (frameNames this fixedFrame).
Proof.
  assert (NoDup (addParents
            (addParents
               (fold_left JsSet.add (JsMap.keys (staticTransforms this))
                  (fold_left JsSet.add (JsMap.keys (dynamicTransforms this)) []))
               (dynamicTransforms this))
            (staticTransforms this))) as Hbase.
  { do 2 apply NoDup_addParents. do 2 apply NoDup_fold_add. constructor. }
  unfold frameNames. destruct fixedFrame as [g|]; [|done].
  destruct (truthy g); [|done]. by apply NoDup_JsSet_add.
Qed.

(** X5: the frames [buildPoseData] resolves are, each once, the children
    of the stored edges of both maps, the non-empty parents those edges
    name (also of a static edge that a dynamic edge of the same child
    shadows), and the fixed frame when it is given and not empty. *)
Theorem frameNames_candidates this fixedFrame :
  NoDup (frameNames this fixedFrame)
  ∧ ∀ f, f ∈ frameNames this fixedFrame
         ↔ f ∈ JsMap.keys this.(dynamicTransforms)
           ∨ f ∈ JsMap.keys this.(staticTransforms)
           ∨ (truthy f = true ∧ namedAsParent this f)
           ∨ fixedGiven fixedFrame = Some f.
Proof.
  split; [apply NoDup_frameNames|apply elem_of_frameNames].
Qed.

(** *** The two outputs of a pass *)

Lemma poseStep_fold_dom this fixedFrame fixedInverse names :
  ∀ st0 stN,
    fold_left (poseStep this fixedFrame fixedInverse) names (Some st0)
    = Some stN →
    ∀ f, is_Some (stN.(matrixMap) !! f) →
         is_Some (st0.(matrixMap) !! f) ∨ (f ∈ names ∧ truthy f = true).
Proof.
  induction names as [|g names IH]; intros st0 stN.
  { cbn [fold_left]. intros [= <-] f Hf. by left. }
  cbn [fold_left]. unfold poseStep at 2.
  destruct (truthy g) eqn:Hg; cbn [negb].
  - destruct (resolveWorldMatrix (walkFuel this) this g (worldCache st0) ∅)
      as [[r cache']|]; [|by rewrite fold_poseStep_None].
    intros Hfold f Hf. destruct (IH _ _ Hfold f Hf) as [Hin|[Hin Ht]].
    + cbn [matrixMap] in Hin. destruct (decide (f = g)) as [->|Hne].
      * right. split; [apply list_elem_of_here|done].
      * rewrite lookup_insert_ne in Hin by done. by left.
    + right. split; [by apply list_elem_of_further|done].
  - intros Hfold f Hf. destruct (IH _ _ Hfold f Hf) as [Hin|[Hin Ht]].
    + by left.
    + right. split; [by apply list_elem_of_further|done].
Qed.

Lemma NoDup_filter_truthy (l : list string) :
  NoDup l → NoDup (List.filter truthy l).
Proof.
  induction 1 as [|x l Hx _ IH]; [constructor|]. cbn [List.filter].
  destruct (truthy x); [|done]. apply NoDup_cons. split; [|done].
  rewrite list_elem_of_In, filter_In, <- list_elem_of_In. tauto.
Qed.

Lemma buildPoseData_outputs this fixedFrame :
  ∃ pd,
    buildPoseData this fixedFrame = Some pd
    ∧ map frameId pd.(pd_frames) = List.filter truthy (frameNames this fixedFrame)
    ∧ (∀ f m, mkFramePose f m ∈ pd.(pd_frames)
              ↔ pd.(pd_matrixMap) !! f = Some m).
Proof.
  destruct (buildPoseDataPass_correct this fixedFrame)
    as (st & fixedWorld & Hpass & _ & _ & Hmap & Hframes).
  exists (mkPoseData st.(frames) st.(matrixMap)).
  unfold buildPoseData. rewrite Hpass. cbn [pd_frames pd_matrixMap].
  assert (map frameId st.(frames)
          = List.filter truthy (frameNames this fixedFrame)) as Hids.
  { rewrite Hframes, map_map. cbn [frameId]. apply map_id. }
  split_and!; [done|done|].
  - intros f m.
    assert (f ∈ frameNames this fixedFrame → truthy f = true →
            st.(matrixMap) !! f
            = Some (relativeTo fixedFrame fixedWorld (worldOf st f))) as Hentry.
    { intros Hf Ht. destruct (Hmap f Hf Ht) as (w & Hw & ->).
      unfold worldOf. by rewrite Hw. }
    split.
    + rewrite Hframes. intros (g & [= -> ->] & Hg)%list_elem_of_fmap.
      apply list_elem_of_In, filter_In in Hg as [Hg Ht].
      apply Hentry; [by apply list_elem_of_In|done].
    + intros Hm.
      assert (f ∈ frameNames this fixedFrame ∧ truthy f = true) as [Hf Ht].
      { revert Hpass. unfold buildPoseDataPass.
        destruct (match fixedGiven fixedFrame with
                  | Some f0 => _ | None => Some (IDENTITY, ∅) end)
          as [[fixedWorld' cache]|]; [|done].
        intros Hfold.
        destruct (poseStep_fold_dom _ _ _ _ _ _ Hfold f) as [Hin|Hin];
          [by eexists| |done].
        cbn [matrixMap] in Hin. rewrite lookup_empty in Hin.
        by destruct Hin. }
      rewrite (Hentry Hf Ht) in Hm. injection Hm as <-.
      rewrite Hframes. apply list_elem_of_fmap. exists f. split; [done|].
      apply list_elem_of_In, filter_In. split; [by apply list_elem_of_In|done].
Qed.

(** X6: the two outputs of [buildPoseData] describe the same poses: the
    list names each candidate frame with a non-empty name once, in the
    order of the candidates, and a frame is listed with a matrix exactly
    when the lookup returns that matrix for it. *)
Theorem buildPoseData_list_matches_lookup this fixedFrame :
  ∃ pd,
    buildPoseData this fixedFrame = Some pd
    ∧ map frameId pd.(pd_frames) = List.filter truthy (frameNames this fixedFrame)
    ∧ NoDup (map frameId pd.(pd_frames))
    ∧ (∀ f m, mkFramePose f m ∈ pd.(pd_frames)
              ↔ pd.(pd_matrixMap) !! f = Some m).
Proof.
  destruct (buildPoseData_outputs this fixedFrame) as (pd & Hpd & Hids & Hiff).
  exists pd. split_and!; [done|done| |done].
  rewrite Hids. apply NoDup_filter_truthy, NoDup_frameNames.
Qed.

(** X7: a store without edges (a new one, or any store after [clearAll])
    resolves the fixed frame alone, at the identity, and nothing at all
    when no fixed frame is given or it is the empty string. *)
Theorem buildPoseData_of_cleared_store this fixedFrame :
  buildPoseData (clearAll this) fixedFrame
  = Some match fixedGiven fixedFrame with
         | Some F => mkPoseData [mkFramePose F IDENTITY] (<[F := IDENTITY]> ∅)
         | None => mkPoseData [] ∅
         end.
Proof.
  change (clearAll this) with Tf.empty.
  unfold buildPoseData, buildPoseDataPass, fixedGiven.
  destruct fixedFrame as [F|]; [|done].
  destruct (truthy F) eqn:HF; [|unfold frameNames; by rewrite HF].
  assert (frameNames Tf.empty (Some F) = [F]) as ->.
  { unfold frameNames. by rewrite HF. }
  change (walkFuel Tf.empty) with 1.
  assert (resolveWorldMatrix 1 Tf.empty F ∅ ∅
          = Some (Some IDENTITY, <[F := IDENTITY]> ∅)) as ->.
  { cbn [resolveWorldMatrix].
    rewrite decide_False by (rewrite lookup_empty; by intros [? [=]]).
    rewrite decide_False by set_solver.
    change (lookupTransform Tf.empty F) with (@None FrameTransform).
    by rewrite lookup_insert_eq. }
  cbn [default fold_left]. unfold poseStep. rewrite HF. cbn [negb worldCache].
  change (walkFuel Tf.empty) with 1. cbn [resolveWorldMatrix].
  rewrite decide_True by (rewrite lookup_insert_eq; by eexists).
  rewrite lookup_insert_eq. cbn [default matrixMap frames app].
  unfold fixedGiven. rewrite HF. unfold id.
  assert (Three.multiply (Three.invert IDENTITY) IDENTITY = IDENTITY) as ->
    by (by vm_compute).
  done.
Qed.

(** *** The frame list *)

Lemma ascii_compare_refl c : Ascii.compare c c = Eq.
Proof. unfold Ascii.compare. apply N.compare_refl. Qed.

Lemma ascii_compare_lt_trans a b c :
  Ascii.compare a b = Lt → Ascii.compare b c = Lt → Ascii.compare a c = Lt.
Proof.
  unfold Ascii.compare. rewrite !N.compare_lt_iff. apply N.lt_trans.
Qed.

Lemma string_compare_refl s : String.compare s s = Eq.
Proof.
  induction s as [|c s IH]; [done|]. cbn [String.compare].
  by rewrite ascii_compare_refl.
Qed.

Lemma string_compare_lt_trans a :
  ∀ b c, String.compare a b = Lt → String.compare b c = Lt →
         String.compare a c = Lt.
Proof.
  induction a as [|x a IH]; intros [|y b] [|z c]; cbn [String.compare];
    try done.
  destruct (Ascii.compare x y) eqn:Hxy; [|clear IH|done];
    (destruct (Ascii.compare y z) eqn:Hyz; [| |done]).
  - apply Ascii.compare_eq_iff in Hxy as ->. rewrite Hyz. apply IH.
  - apply Ascii.compare_eq_iff in Hxy as ->. by rewrite Hyz.
  - apply Ascii.compare_eq_iff in Hyz as <-. by rewrite Hxy.
  - by rewrite (ascii_compare_lt_trans _ _ _ Hxy Hyz).
Qed.

Lemma compareUnits_refl a : compareUnits a a = Eq.
Proof.
  induction a as [|x a IH]; [done|]. cbn [compareUnits].
  by rewrite N.compare_refl.
Qed.

Lemma compareUnits_eq a : ∀ b, compareUnits a b = Eq → a = b.
Proof.
  induction a as [|x a IH]; intros [|y b]; cbn [compareUnits]; try done.
  destruct (N.compare_spec x y) as [->|?|?]; [|done..].
  intros H. f_equal. by apply IH.
Qed.

Lemma compareUnits_antisym a :
  ∀ b, compareUnits b a = CompOpp (compareUnits a b).
Proof.
  induction a as [|x a IH]; intros [|y b]; cbn [compareUnits]; try done.
  rewrite (N.compare_antisym x y).
  destruct (x ?= y)%N; cbn [CompOpp]; [apply IH|done..].
Qed.

Lemma compareUnits_lt_trans a :
  ∀ b c, compareUnits a b = Lt → compareUnits b c = Lt →
         compareUnits a c = Lt.
Proof.
  induction a as [|x a IH]; intros [|y b] [|z c]; cbn [compareUnits];
    try done.
  destruct (N.compare_spec x y) as [->|Hxy|?]; [| |done].
  - destruct (N.compare_spec y z) as [->|Hyz|?]; [|done..]. apply IH.
  - destruct (N.compare_spec y z) as [->|Hyz|?]; [| |done]; intros _ _.
    + by apply N.compare_lt_iff in Hxy as ->.
    + assert (x < z)%N as Hxz by (by etrans).
      by apply N.compare_lt_iff in Hxz as ->.
Qed.

Lemma compareStrings_refl a : compareStrings a a = Eq.
Proof.
  unfold compareStrings. by rewrite compareUnits_refl, string_compare_refl.
Qed.

Lemma compareStrings_eq a b : compareStrings a b = Eq → a = b.
Proof.
  unfold compareStrings. destruct (compareUnits _ _); [|done..].
  apply String.compare_eq_iff.
Qed.

Lemma compareStrings_antisym a b :
  compareStrings b a = CompOpp (compareStrings a b).
Proof.
  unfold compareStrings. rewrite (compareUnits_antisym (codeUnits a)).
  destruct (compareUnits (codeUnits a) (codeUnits b)); cbn [CompOpp];
    [|done..].
  apply String.compare_antisym.
Qed.

Lemma compareStrings_lt_trans a b c :
  compareStrings a b = Lt → compareStrings b c = Lt → compareStrings a c = Lt.
Proof.
  unfold compareStrings.
  destruct (compareUnits (codeUnits a) (codeUnits b)) eqn:Hab; [| |done];
    (destruct (compareUnits (codeUnits b) (codeUnits c)) eqn:Hbc; [| |done]).
  - apply compareUnits_eq in Hab, Hbc. rewrite Hab, Hbc, compareUnits_refl.
    apply string_compare_lt_trans.
  - apply compareUnits_eq in Hab. by rewrite Hab, Hbc.
  - apply compareUnits_eq in Hbc. by rewrite <- Hbc, Hab.
  - by rewrite (compareUnits_lt_trans _ _ _ Hab Hbc).
Qed.

Lemma codeLe_cases a b : codeLe a b ↔ codeLt a b ∨ a = b.
Proof.
  unfold codeLe, codeLeb, codeLt.
  destruct (compareStrings a b) eqn:Hc.
  - apply compareStrings_eq in Hc. by split; [right|].
  - by split; [left|].
  - split; [done|]. intros [?| ->]; [done|].
    by rewrite compareStrings_refl in Hc.
Qed.

Lemma codeLt_ne a b : codeLt a b → a ≠ b.
Proof.
  unfold codeLt. intros Hlt ->. by rewrite compareStrings_refl in Hlt.
Qed.

Lemma codeLe_total : Total codeLe.
Proof.
  intros a b. unfold codeLe, codeLeb. rewrite (compareStrings_antisym a b).
  destruct (compareStrings a b); cbn [CompOpp]; auto.
Qed.

Lemma codeLe_trans : Transitive codeLe.
Proof.
  intros a b c. rewrite !codeLe_cases.
  intros [Hab| ->] [Hbc| ->]; [|by left|by left|by right].
  left. by eapply compareStrings_lt_trans.
Qed.

Lemma StronglySorted_strict (l : list string) :
  StronglySorted codeLe l → NoDup l → StronglySorted codeLt l.
Proof.
  induction 1 as [|x l Hl IH Hall]; intros Hnd; [constructor|].
  apply NoDup_cons in Hnd as [Hx Hnd]. constructor; [by apply IH|].
  apply Forall_forall. intros y Hy.
  pose proof (proj1 (Forall_forall _ _) Hall y Hy) as Hle.
  apply codeLe_cases in Hle as [Hlt| ->]; [done|]. by destruct Hx.
Qed.

Lemma sort_sorted (l : list string) :
  NoDup l → StronglySorted codeLt (sort l) ∧ ∀ x, x ∈ sort l ↔ x ∈ l.
Proof.
  intros Hnd. unfold sort. split.
  - apply StronglySorted_strict;
      [apply (@StronglySorted_merge_sort _ codeLe _ codeLe_trans codeLe_total)|].
    by rewrite merge_sort_Permutation.
  - intros x. by rewrite merge_sort_Permutation.
Qed.

Lemma elem_of_addEdge frames entry x :
  x ∈ addEdge frames entry
  ↔ x ∈ frames ∨ x = entry.1
    ∨ (truthy x = true ∧ entry.2.(parent) = Some x).
Proof.
  unfold addEdge. destruct (parent entry.2) as [p|].
  - destruct (truthy p) eqn:Hp.
    + rewrite !JsSet_elem_of_add. split.
      * intros [[?|?]| ->]; auto.
      * intros [?|[?|[_ [= ->]]]]; auto.
    + rewrite JsSet_elem_of_add. split; [tauto|].
      intros [?|[?|[Hx [= ->]]]]; [tauto..|congruence].
  - rewrite JsSet_elem_of_add. split; [tauto|].
    intros [?|[?|[_ [=]]]]; tauto.
Qed.

Lemma elem_of_fold_addEdge (m : JsMap.t FrameTransform) :
  ∀ frames x,
    x ∈ fold_left addEdge m frames
    ↔ x ∈ frames ∨ x ∈ JsMap.keys m
      ∨ (truthy x = true
         ∧ ∃ child value, (child, value) ∈ m ∧ value.(parent) = Some x).
Proof.
  induction m as [|[child value] m IH]; intros frames x.
  { cbn [fold_left JsMap.keys map]. rewrite elem_of_nil. split; [tauto|].
    intros [?|[[]|(_ & c & v & Hin & _)]]; [done|].
    by apply elem_of_nil in Hin. }
  cbn [fold_left]. rewrite IH, elem_of_addEdge. cbn [fst snd].
  unfold JsMap.keys. cbn [map fst]. rewrite elem_of_cons.
  setoid_rewrite elem_of_cons. split.
  - intros [[?|[?|[Hx Hp]]]|[?|(Hx & c & v & Hin & Hp)]]; auto.
    + right; right. split; [done|]. exists child, value. auto.
    + right; right. split; [done|]. exists c, v. auto.
  - intros [?|[[?|?]|(Hx & c & v & [[= -> ->]|Hin] & Hp)]]; auto.
    right; right. split; [done|]. by exists c, v.
Qed.

Lemma NoDup_fold_addEdge (m : JsMap.t FrameTransform) :
  ∀ frames, NoDup frames → NoDup (fold_left addEdge m frames).
Proof.
  induction m as [|entry m IH]; intros frames Hnd; [done|].
  cbn [fold_left]. apply IH. unfold addEdge.
  destruct (parent entry.2) as [p|]; [|by apply NoDup_JsSet_add].
  destruct (truthy p); [|by apply NoDup_JsSet_add].
  by do 2 apply NoDup_JsSet_add.
Qed.

Lemma elem_of_fold_addExtra (extra : list string) :
  ∀ frames x,
    x ∈ fold_left addExtra extra frames
    ↔ x ∈ frames ∨ (truthy x = true ∧ x ∈ extra).
Proof.
  induction extra as [|name extra IH]; intros frames x.
  { cbn [fold_left]. split; [by left|]. intros [?|[_ Hin]]; [done|].
    by apply elem_of_nil in Hin. }
  cbn [fold_left]. rewrite IH, elem_of_cons. unfold addExtra.
  destruct (truthy name) eqn:Hn.
  - rewrite JsSet_elem_of_add. split.
    + intros [[?| ->]|[? ?]]; auto.
    + intros [?|[Hx [->|?]]]; auto.
  - split; [tauto|]. intros [?|[Hx [->|?]]]; [tauto|congruence|tauto].
Qed.

Lemma NoDup_fold_addExtra (extra : list string) :
  ∀ frames, NoDup frames → NoDup (fold_left addExtra extra frames).
Proof.
  induction extra as [|name extra IH]; intros frames Hnd; [done|].
  cbn [fold_left]. apply IH. unfold addExtra.
  destruct (truthy name); [by apply NoDup_JsSet_add|done].
Qed.

Lemma elem_of_listFrames this extra f :
  f ∈ listFrames this extra
  ↔ truthy f = true
    ∧ (f ∈ JsMap.keys this.(dynamicTransforms)
       ∨ f ∈ JsMap.keys this.(staticTransforms)
       ∨ namedAsParent this f
       ∨ f ∈ default [] extra).
Proof.
  unfold listFrames.
  rewrite (proj2 (sort_sorted _ (NoDup_filter_truthy _
             (NoDup_fold_addExtra _ _ (NoDup_fold_addEdge _ _
                (NoDup_fold_addEdge _ _ (NoDup_nil_2))))))).
  rewrite list_elem_of_In, filter_In, <- list_elem_of_In.
  rewrite elem_of_fold_addExtra, !elem_of_fold_addEdge, elem_of_nil.
  unfold namedAsParent. setoid_rewrite elem_of_app. split.
  - intros [[[[[]|[?|(_ & c & v & ? & ?)]]|[?|(_ & c & v & ? & ?)]]|[_ ?]] Ht];
      (split; [done|]); eauto 8.
  - intros [Ht [?|[?|[(c & v & [?|?] & ?)|?]]]]; (split; [|done]).
    + left; left; right; by left.
    + left; right; by left.
    + left; left; right; right. split; [done|]. by exists c, v.
    + left; right; right. split; [done|]. by exists c, v.
    + right. by split.
Qed.

(** X8: [listFrames] returns, in strictly increasing order of their
    UTF-16 code units and each once, the non-empty names among the
    children of the stored edges, the parents they name and the extra
    names.  With the fixed frame as the only extra name these are exactly
    the frames that [buildPoseData] gives a pose.  For names of ASCII
    characters the order is that of the character codes; a name that
    starts with U+1F600 (surrogates D83D DE00) goes before one that starts
    with U+FF5E. *)
Theorem listFrames_sorted_names this extra :
  StronglySorted codeLt (listFrames this extra)
  ∧ (∀ f, f ∈ listFrames this extra
          ↔ truthy f = true
            ∧ (f ∈ JsMap.keys this.(dynamicTransforms)
               ∨ f ∈ JsMap.keys this.(staticTransforms)
               ∨ namedAsParent this f
               ∨ f ∈ default [] extra))
  ∧ (∀ F f, f ∈ listFrames this (Some [F])
            ↔ truthy f = true ∧ f ∈ frameNames this (Some F))
  ∧ (∀ a b, codeLt a b
            ↔ compareUnits (codeUnits a) (codeUnits b) = Lt
              ∨ (codeUnits a = codeUnits b ∧ String.compare a b = Lt))
  ∧ (∀ s, Forall (λ c, (N_of_ascii c < 128)%N) (list_ascii_of_string s) →
          codeUnits s = N_of_ascii <$> list_ascii_of_string s)
  ∧ codeUnits fullwidthTilde = [65374%N]
  ∧ codeUnits grinningFace = [55357%N; 56832%N]
  ∧ listFrames Tf.empty (Some [fullwidthTilde; grinningFace; "map"; "Map"])
    = ["Map"; "map"; grinningFace; fullwidthTilde].
Proof.
  split_and!.
  - apply sort_sorted, NoDup_filter_truthy, NoDup_fold_addExtra.
    do 2 apply NoDup_fold_addEdge. constructor.
  - apply elem_of_listFrames.
  - intros F f. rewrite elem_of_listFrames, elem_of_frameNames, fixedGiven_Some.
    change (default [] (Some [F])) with [F].
    rewrite list_elem_of_singleton. split.
    + intros [Ht [?|[?|[?| ->]]]]; (split; [done|]); auto.
    + intros [Ht [?|[?|[[_ ?]|[[= ->] _]]]]]; (split; [done|]); auto.
  - intros a b. unfold codeLt, compareStrings.
    destruct (compareUnits (codeUnits a) (codeUnits b)) eqn:Hc.
    + apply compareUnits_eq in Hc. split; [by right|].
      by intros [?|[_ ?]].
    + split; [by left|done].
    + split; [done|]. intros [?|[Heq _]]; [done|].
      by rewrite Heq, compareUnits_refl in Hc.
  - induction s as [|c s IH]; [done|].
    cbn [list_ascii_of_string]. intros [Hc Hs]%Forall_cons.
    cbn [codeUnits fmap list_fmap].
    assert ((N_of_ascii c <? 192)%N = true) as ->
      by (apply N.ltb_lt; lia).
    cbn [orb]. by rewrite IH.
  - by vm_compute.
  - by vm_compute.
  - by vm_compute.
Qed.

(** *** Members that a transform leaves out *)

(** X9: a transform without rotation members composes to the pure
    translation by its translation members, each absent member counting
    as zero ([w] as one): no rotation part, bottom row (0, 0, 0, 1). *)
Theorem composeMatrix_without_rotation transform :
  let rotation := member transform.(Tf.transform) rotation in
  let translation := member transform.(Tf.transform) translation in
  member rotation r_x = None → member rotation r_y = None →
  member rotation r_z = None → member rotation r_w = None →
  composeMatrix transform
  = translationMatrix (orZero (member translation t_x))
      (orZero (member translation t_y)) (orZero (member translation t_z)).
Proof.
  intros rotation translation Hx Hy Hz Hw. unfold composeMatrix.
  fold rotation. fold translation. rewrite Hx, Hy, Hz, Hw. cbn [default].
  assert (Three.normalize (mkQuaternion 0 0 0 1) = mkQuaternion 0 0 0 1) as ->
    by (by vm_compute).
  unfold Three.compose, translationMatrix, orZero. cbn [qx qy qz qw vx vy vz].
  f_equal; by vm_compute.
Qed.

Lemma composeMatrix_without_rotation_witness :
  composeMatrix (stamped "C" "B" 1 0 0 None) = translationMatrix 1 0 0.
Proof.
  apply (composeMatrix_without_rotation (stamped "C" "B" 1 0 0 None));
    reflexivity.
Defined.

(** *** Comparing matrices *)

Lemma strictNe_sym a b : strictNe a b = strictNe b a.
Proof. unfold strictNe. by rewrite NumberFacts.eqb_sym. Qed.

(** X20: [matricesDiffer] does not depend on the order of its two
    arguments, and a matrix differs from itself exactly when one of its
    sixteen elements is not a number. *)
Theorem matricesDiffer_symmetric_and_nan a b :
  matricesDiffer a b = matricesDiffer b a
  ∧ (matricesDiffer a a = false
     ↔ Forall (λ x, PrimFloat.is_nan x = false) (elements a)).
Proof.
  split.
  - unfold matricesDiffer. induction (seq 0 16) as [|i l IH]; [done|].
    cbn [existsb]. by rewrite IH, strictNe_sym.
  - destruct a. unfold matricesDiffer, elements, strictNe, PrimFloat.is_nan.
    cbn [existsb seq nth te0 te1 te2 te3 te4 te5 te6 te7 te8 te9 te10 te11
         te12 te13 te14 te15].
    rewrite !orb_false_iff, !Forall_cons, Forall_nil. tauto.
Qed.

End TfStoreProperties.

(** ** The point-record decoder: colors and sizes *)

Module PointCloudColors.
Import PointCloud PointCloudFacts PointCloudProperties NumberFacts.

#[local] Open Scope Z_scope.

Lemma channel_within byte :
  0 ≤ byte < 256 → within 0 1 (channel byte) = true.
Proof.
  intros Hb.
  assert (forallb (λ n, within 0 1 (channel (Z.of_nat n))) (seq 0 256) = true)
    as Hall by (by vm_compute).
  rewrite forallb_forall in Hall. specialize (Hall (Z.to_nat byte)).
  rewrite Z2Nat.id in Hall by lia. apply Hall. apply in_seq. lia.
Qed.

Lemma packed_cases datatype :
  (datatype =? FLOAT32) || (datatype =? UINT32) || (datatype =? INT32) = true
  → packed datatype.
Proof.
  unfold packed. rewrite !orb_true_iff, !Z.eqb_eq. tauto.
Qed.

(** X10: every channel [readColor] returns lies in [0, 1], whatever the
    bytes and the type: a byte over 255, the fixed default color, or a
    64-bit intensity clamped into the range.  The one exception is a
    64-bit intensity that is not a number, which is returned as it is for
    all three channels. *)
Theorem readColor_channels_within_unit view offset datatype littleEndian r g b :
  readColor view offset datatype littleEndian = Ok (r, g, b) →
  (within 0 1 r = true ∧ within 0 1 g = true ∧ within 0 1 b = true)
  ∨ (datatype = FLOAT64
     ∧ r = PrimFloat.nan ∧ g = PrimFloat.nan ∧ b = PrimFloat.nan
     ∧ ∃ intensity,
         getFloat64 view offset littleEndian = Ok intensity
         ∧ PrimFloat.is_nan intensity = true).
Proof.
  intros Hread.
  destruct ((datatype =? FLOAT32) || (datatype =? UINT32) || (datatype =? INT32))
    eqn:Hpacked.
  { pose proof (readColor_packed view offset datatype littleEndian
                  (packed_cases _ Hpacked)) as Hp.
    destruct (getUint32 view offset littleEndian) as [value|e];
      [|by rewrite Hp in Hread].
    destruct Hp as [Hrange Hp]. rewrite Hp in Hread. injection Hread as <- <- <-.
    left. split_and!; apply channel_within; apply Z.mod_pos_bound; lia. }
  revert Hread. unfold readColor. rewrite Hpacked.
  destruct ((datatype =? UINT8) || (datatype =? INT8)).
  { unfold getUint8.
    destruct (getUint 1 view offset true) as [v|e] eqn:Hv; [|done].
    cbn [bind]. intros [= <- <- <-].
    pose proof (getUint_range _ _ _ _ _ Hv) as Hr.
    change (256 ^ Z.of_nat 1) with 256 in Hr.
    left. split_and!; by apply channel_within. }
  destruct (Z.eqb_spec datatype FLOAT64) as [->|_].
  { destruct (getFloat64 view offset littleEndian) as [intensity|e]; [|done].
    cbn [bind]. intros [= <- <- <-].
    destruct (clamp_within 0 1 intensity) as [[Hnan ->]|(_ & Hin & _)];
      [done| |by left].
    right. split_and!; try done. by exists intensity. }
  intros [= <- <- <-]. left. by vm_compute.
Qed.

Lemma readColor_channels_within_unit_witness :
  within 0 1 (channel 255) = true
  ∧ within 0 1 (channel 128) = true
  ∧ within 0 1 (channel 64) = true.
Proof.
  destruct (readColor_channels_within_unit (bytes32 0x00FF8040) 0 FLOAT32 true
              (channel 255) (channel 128) (channel 64)) as [H|H].
  - reflexivity.
  - exact H.
  - destruct H as [H _]. discriminate H.
Defined.

Lemma recordAccepted_coords message i :
  recordAccepted message i = true → is_Some (recordCoords message i).
Proof.
  unfold recordAccepted. by destruct (recordCoords message i); [eexists|].
Qed.

Lemma parsed_sizes topic message pc :
  parsePointCloud2 topic message = Ok (Some pc) →
  length pc.(positions) = (3 * length (acceptedRecords message))%nat
  ∧ match pc.(colors) with
    | Some colors =>
        is_Some (findColorField message)
        ∧ length colors = (3 * length (acceptedRecords message))%nat
    | None => findColorField message = None
    end.
Proof.
  intros Hparse.
  destruct (parse_accepted _ _ _ Hparse) as (_ & _ & _ & Hpos & Hcol & Hall).
  split.
  - rewrite Hpos, length_flat_map_stored3; [lia|].
    eapply Forall_impl; [exact Hall|]. intros i [Hi _].
    by apply recordAccepted_coords.
  - rewrite Hcol. destruct (findColorField message) as [cf|]; [|done].
    split; [by eexists|].
    rewrite length_flat_map_stored3; [lia|].
    eapply Forall_impl; [exact Hall|]. intros i [_ Hi]. apply Hi. by eexists.
Qed.

(** X11: the two arrays of a decoded cloud have one size: three values
    for each accepted record, at least one record and at most
    [width * height] of them; and there is a color array exactly when the
    message has a field named [rgb], [rgba] or [intensity]. *)
Theorem parsed_arrays_sizes topic message pc :
  parsePointCloud2 topic message = Ok (Some pc) →
  let n := length (acceptedRecords message) in
  (0 < n ≤ Z.to_nat (totalPoints message))%nat
  ∧ length pc.(positions) = (3 * n)%nat
  ∧ match pc.(colors) with
    | Some colors =>
        is_Some (findColorField message) ∧ length colors = (3 * n)%nat
    | None => findColorField message = None
    end.
Proof.
  intros Hparse n.
  destruct (parse_accepted _ _ _ Hparse) as (Hne & _).
  destruct (parsed_sizes _ _ _ Hparse) as [Hpos Hcol].
  split_and!; [| |done|done].
  - subst n. destruct (acceptedRecords message); [done|]. cbn [length]. lia.
  - subst n. unfold acceptedRecords.
    etrans; [apply List.filter_length_le|]. by rewrite length_seq.
Qed.

Lemma parsed_arrays_sizes_witness :
  ∃ pc,
    parsePointCloud2 "cloud" coloredRecord = Ok (Some pc)
    ∧ length pc.(positions) = (3 * length (acceptedRecords coloredRecord))%nat
    ∧ match pc.(colors) with
      | Some colors =>
          length colors = (3 * length (acceptedRecords coloredRecord))%nat
      | None => False
      end.
Proof.
  destruct (parsePointCloud2 "cloud" coloredRecord) as [[pc|]|e] eqn:Hparse;
    [|exfalso; revert Hparse; by vm_compute..].
  exists pc. split; [done|].
  destruct (parsed_arrays_sizes "cloud" coloredRecord pc Hparse)
    as (_ & Hpos & Hcol).
  split; [exact Hpos|].
  destruct (colors pc); [exact (proj2 Hcol)|].
  revert Hcol. by vm_compute.
Defined.

Lemma recordCoords_zero_step message i :
  message.(point_step) = 0 →
  recordCoords message i = recordCoords message 0.
Proof.
  intros Hstep. unfold recordCoords, coordsAt. rewrite Hstep.
  by rewrite !Z.mul_0_r.
Qed.

(** X23: the decoder does not ask for a positive [point_step].  With a
    [point_step] of zero every record is read from the bytes of the first
    one, so a cloud that is returned holds the first record's three stored
    coordinates [width * height] times. *)
Theorem zero_point_step_repeats_first_record topic message pc :
  message.(point_step) = 0 →
  parsePointCloud2 topic message = Ok (Some pc) →
  (∀ i, recordCoords message i = recordCoords message 0)
  ∧ ∃ first,
      recordCoords message 0 = Some first
      ∧ pc.(positions)
        = mjoin (replicate (Z.to_nat (totalPoints message)) (stored3 first)).
Proof.
  intros Hstep Hparse. split; [intros i; by apply recordCoords_zero_step|].
  destruct (parse_accepted _ _ _ Hparse) as (Hne & _ & _ & Hpos & _ & Hall).
  assert (recordAccepted message 0 = true) as H0.
  { destruct (acceptedRecords message) as [|i l]; [done|].
    apply Forall_cons in Hall as [[Hi _] _]. revert Hi. unfold recordAccepted.
    by rewrite (recordCoords_zero_step message i Hstep). }
  destruct (recordAccepted_coords _ _ H0) as [first Hfirst].
  exists first. split; [done|]. rewrite Hpos.
  assert (acceptedRecords message = seq 0 (Z.to_nat (totalPoints message)))
    as ->.
  { unfold acceptedRecords.
    induction (seq 0 (Z.to_nat (totalPoints message))) as [|i l IH]; [done|].
    cbn [List.filter].
    assert (recordAccepted message i = true) as ->; [|by rewrite IH].
    unfold recordAccepted in *.
    by rewrite (recordCoords_zero_step message i Hstep). }
  generalize 0%nat at 1.
  induction (Z.to_nat (totalPoints message)) as [|n IH]; intros start; [done|].
  cbn [seq flat_map replicate mjoin list_join].
  rewrite (recordCoords_zero_step message start Hstep), Hfirst.
  cbn [from_option]. f_equal. apply IH.
Qed.

Lemma zero_point_step_repeats_first_record_witness :
  let pc :=
    mkParsedPointCloud "cloud" "map" [1; -1; -32768; 1; -1; -32768]%float None in
  parsePointCloud2 "cloud" Clouds.zeroStepCloud = Ok (Some pc)
  ∧ (∀ i, recordCoords Clouds.zeroStepCloud i
          = recordCoords Clouds.zeroStepCloud 0)
  ∧ ∃ first,
      recordCoords Clouds.zeroStepCloud 0 = Some first
      ∧ pc.(positions)
        = mjoin (replicate (Z.to_nat (totalPoints Clouds.zeroStepCloud))
                   (stored3 first)).
Proof.
  split; [vm_compute; reflexivity|].
  apply (zero_point_step_repeats_first_record "cloud" Clouds.zeroStepCloud).
  - reflexivity.
  - vm_compute. reflexivity.
Defined.

End PointCloudColors.

(** ** The panel: events, scene and frame list *)

Module PanelProperties.
Import Panel TfFrames TfStoreProperties.

#[local] Abbreviation Ok := PointCloud.Ok.
#[local] Abbreviation Throw := PointCloud.Throw.

(** *** The event loop *)

Lemma updateMessage_unreported store message isStatic :
  (updateMessage store message isStatic).2 = false →
  (updateMessage store message isStatic).1 = store.
Proof. destruct message; apply update_unreported. Qed.

Lemma updateMessage_other store message isStatic :
  selected (updateMessage store message isStatic).1 (negb isStatic)
  = selected store (negb isStatic).
Proof. destruct message; apply selected_update_other. Qed.

Lemma JsMap_keys_set_mono {V} (m : JsMap.t V) k v t :
  t ∈ JsMap.keys m → t ∈ JsMap.keys (JsMap.set m k v).
Proof.
  rewrite JsMap_keys_set. case_decide; [done|]. intros Ht.
  apply elem_of_app. by left.
Qed.

Lemma steady_refl st : steady st st.
Proof. by split_and!. Qed.

Lemma steady_trans st1 st2 st3 : steady st1 st2 → steady st2 st3 → steady st1 st3.
Proof.
  intros (Ht1 & Hc1 & Hk1) (Ht2 & Hc2 & Hk2). split_and!.
  - intros H3. destruct (Ht2 H3) as [H2 ->]. by apply Ht1.
  - intros H3. destruct (Hc2 H3) as [H2 ->]. by apply Hc1.
  - intros t Ht. by apply Hk2, Hk1.
Qed.

Lemma handleEvent_steady config st event st' :
  handleEvent config st event = Ok st' → steady st st'.
Proof.
  unfold handleEvent. destruct event as [event|]; [|intros [= <-]; apply steady_refl].
  destruct (bool_decide _ && isPointCloudSchema _).
  { destruct (parseMessage _ _) as [[parsed|]|e];
      [|intros [= <-]; apply steady_refl|done].
    intros [= <-]. split_and!; cbn; [done|done|].
    intros t. apply JsMap_keys_set_mono. }
  destruct (String.eqb _ _).
  { intros [= <-]. split_and!; cbn; [|done|done].
    intros [Hu Ht]%orb_false_iff. split; [done|].
    by apply updateMessage_unreported. }
  destruct (isStaticTopic _ _); [|intros [= <-]; apply steady_refl].
  intros [= <-]. split_and!; cbn; [|done|done].
  intros [Hu Ht]%orb_false_iff. split; [done|].
  by apply updateMessage_unreported.
Qed.

Lemma handleEvents_steady config events :
  ∀ st, steady st (handleEvents config events st).1.
Proof.
  induction events as [|event events IH]; intros st; cbn [handleEvents].
  { apply steady_refl. }
  destruct (handleEvent config st event) as [st1|e] eqn:He;
    [|apply steady_refl].
  eapply steady_trans; [by eapply handleEvent_steady|apply IH].
Qed.

Lemma onCurrentFrame_loop config st currentFrame :
  let r := handleEvents config (default [] currentFrame)
             (mkLoop st.(tfStore) st.(pointCloudStore) false false) in
  onCurrentFrame config st currentFrame
  = match r.2 with
    | None =>
        (mkPanelState r.1.(l_tfStore) r.1.(l_pointCloudStore)
           (if r.1.(cloudsChanged) then S st.(pointCloudVersion)
            else st.(pointCloudVersion))
           (if r.1.(tfChanged) then S st.(tfVersion) else st.(tfVersion)),
         None)
    | Some e =>
        (mkPanelState r.1.(l_tfStore) r.1.(l_pointCloudStore)
           st.(pointCloudVersion) st.(tfVersion), Some e)
    end.
Proof.
  unfold onCurrentFrame. destruct currentFrame as [[|event events]|];
    [by destruct st| |by destruct st].
  cbn [default]. by destruct (handleEvents _ _ _) as [loop [e|]].
Qed.

(** X12: when the loop over the events of a frame completes, a version
    counter that did not move tells that its store is exactly as it was:
    the transform store for [tfVersion], the cloud cache for
    [pointCloudVersion]; each counter moves by at most one, and no cloud
    leaves the cache (a message that decodes to no result leaves the
    cloud of its topic in place). *)
Theorem onCurrentFrame_versions_tell_changes config st currentFrame st' :
  onCurrentFrame config st currentFrame = (st', None) →
  (st'.(tfVersion) = st.(tfVersion) → st'.(tfStore) = st.(tfStore))
  ∧ (st'.(pointCloudVersion) = st.(pointCloudVersion) →
     st'.(pointCloudStore) = st.(pointCloudStore))
  ∧ (st'.(tfVersion) = st.(tfVersion) ∨ st'.(tfVersion) = S st.(tfVersion))
  ∧ (st'.(pointCloudVersion) = st.(pointCloudVersion)
     ∨ st'.(pointCloudVersion) = S st.(pointCloudVersion))
  ∧ (∀ t, t ∈ JsMap.keys st.(pointCloudStore) →
          t ∈ JsMap.keys st'.(pointCloudStore)).
Proof.
  rewrite onCurrentFrame_loop. cbn zeta.
  pose proof (handleEvents_steady config (default [] currentFrame)
                (mkLoop st.(tfStore) st.(pointCloudStore) false false))
    as (Ht & Hc & Hk).
  destruct (handleEvents _ _ _) as [loop [e|]]; [done|].
  cbn [fst snd] in *. intros [= <-]. cbn. split_and!.
  - destruct (tfChanged loop); [lia|]. intros _. by apply Ht.
  - destruct (cloudsChanged loop); [lia|]. intros _. by apply Hc.
  - destruct (tfChanged loop); auto.
  - destruct (cloudsChanged loop); auto.
  - exact Hk.
Qed.

Lemma onCurrentFrame_versions_tell_changes_witness :
  let st' := (onCurrentFrame cloudConfig newPanel (Some [Some tfEvent])).1 in
  (st'.(tfVersion) = 0 → st'.(tfStore) = Tf.empty)
  ∧ (st'.(pointCloudVersion) = 0 → st'.(pointCloudStore) = JsMap.empty)
  ∧ (st'.(tfVersion) = 0 ∨ st'.(tfVersion) = 1)
  ∧ (st'.(pointCloudVersion) = 0 ∨ st'.(pointCloudVersion) = 1)
  ∧ (∀ t, t ∈ JsMap.keys (JsMap.empty : JsMap.t PointCloud.ParsedPointCloud) →
          t ∈ JsMap.keys st'.(pointCloudStore)).
Proof.
  apply (onCurrentFrame_versions_tell_changes cloudConfig newPanel
           (Some [Some tfEvent])).
  reflexivity.
Defined.





Lemma handleEvent_static config st event st' :
  config.(tfStaticTopic) = Some config.(tfTopic)
  ∨ config.(tfStaticTopic) = None →
  handleEvent config st event = Ok st' →
  st'.(l_tfStore).(Tf.staticTransforms) = st.(l_tfStore).(Tf.staticTransforms).
Proof.
  intros Hsame. unfold handleEvent. destruct event as [event|]; [|by intros [= <-]].
  destruct (bool_decide _ && isPointCloudSchema _).
  { destruct (parseMessage _ _) as [[parsed|]|e]; [| |done]; by intros [= <-]. }
  destruct (String.eqb (topic event) (tfTopic config)) eqn:Htopic.
  { intros [= <-]. cbn.
    apply (updateMessage_other (l_tfStore st) (message event) false). }
  assert (isStaticTopic config (topic event) = false) as ->.
  { unfold isStaticTopic. by destruct Hsame as [-> | ->]. }
  by intros [= <-].
Qed.

Lemma handleEvents_static config events :
  config.(tfStaticTopic) = Some config.(tfTopic)
  ∨ config.(tfStaticTopic) = None →
  ∀ st, (handleEvents config events st).1.(l_tfStore).(Tf.staticTransforms)
        = st.(l_tfStore).(Tf.staticTransforms).
Proof.
  intros Hsame. induction events as [|event events IH]; intros st;
    cbn [handleEvents]; [done|].
  destruct (handleEvent config st event) as [st1|e] eqn:He; [|done].
  rewrite IH. by eapply handleEvent_static.
Qed.

(** X14: when the static transform topic is configured to be the same
    topic as the transform topic (or is not configured), every transform
    message is handled as a dynamic one: the loop never writes to the
    static edges, so all the edges it stores are dropped by the next
    seek. *)
Theorem same_topic_updates_dynamic_only config st currentFrame :
  config.(tfStaticTopic) = Some config.(tfTopic)
  ∨ config.(tfStaticTopic) = None →
  let st' := (onCurrentFrame config st currentFrame).1 in
  st'.(tfStore).(Tf.staticTransforms) = st.(tfStore).(Tf.staticTransforms)
  ∧ (onRender true st').(tfStore) = Tf.resetDynamic st.(tfStore).
Proof.
  intros Hsame st'.
  assert (st'.(tfStore).(Tf.staticTransforms)
          = st.(tfStore).(Tf.staticTransforms)) as Hstatic.
  { subst st'. rewrite onCurrentFrame_loop. cbn zeta.
    pose proof (handleEvents_static config (default [] currentFrame) Hsame
                  (mkLoop st.(tfStore) st.(pointCloudStore) false false)) as Hs.
    by destruct (handleEvents _ _ _) as [loop [e|]]. }
  split; [done|]. cbn. unfold Tf.resetDynamic. by rewrite Hstatic.
Qed.

Lemma same_topic_updates_dynamic_only_witness :
  let config :=
    mkPanelConfig [] "/tf" (Some "/tf") "map"
      DEFAULT_CONFIG.(interactionTopics) in
  let st' := (onCurrentFrame config newPanel (Some [Some tfEvent])).1 in
  st'.(tfStore).(Tf.staticTransforms) = JsMap.empty
  ∧ (onRender true st').(tfStore) = Tf.resetDynamic Tf.empty.
Proof.
  apply (same_topic_updates_dynamic_only
           (mkPanelConfig [] "/tf" (Some "/tf") "map"
              DEFAULT_CONFIG.(interactionTopics))
           newPanel (Some [Some tfEvent])).
  left. reflexivity.
Defined.

(** *** The scene *)

Lemma rebuildScene_eq config st :
  ∃ pd,
    Tf.buildPoseData st.(tfStore) (Some config.(fixedFrame)) = Some pd
    ∧ rebuildScene config st
      = Some (mkSceneData
                (map (renderable pd.(Tf.pd_matrixMap))
                   (JsMap.values st.(pointCloudStore)))
                pd.(Tf.pd_frames),
              orFixedFrame
                (listFrames st.(tfStore)
                   (Some (config.(fixedFrame)
                          :: map r_frameId
                               (map (renderable pd.(Tf.pd_matrixMap))
                                  (JsMap.values st.(pointCloudStore))))))
                config.(fixedFrame))
    ∧ map Tf.frameId pd.(Tf.pd_frames)
      = List.filter truthy (Tf.frameNames st.(tfStore) (Some config.(fixedFrame)))
    ∧ (∀ f m, Tf.mkFramePose f m ∈ pd.(Tf.pd_frames)
              ↔ pd.(Tf.pd_matrixMap) !! f = Some m).
Proof.
  destruct (buildPoseData_outputs st.(tfStore) (Some config.(fixedFrame)))
    as (pd & Hpd & Hids & Hiff).
  exists pd. unfold rebuildScene. by rewrite Hpd.
Qed.

(** X15: the scene draws every cached cloud, in the order of the cache
    and with its own id, frame, positions and colors, at the pose the
    scene lists for the frame of the cloud; a cloud whose frame has no
    listed pose (a frame the transform store does not know, or the empty
    name that a message frame of a single slash gives) is drawn at the
    identity. *)
Theorem rebuildScene_places_clouds config st :
  ∃ scene available,
    rebuildScene config st = Some (scene, available)
    ∧ Forall2
        (λ cloud r,
           r.(r_id) = cloud.(PointCloud.id)
           ∧ r.(r_frameId) = cloud.(PointCloud.frameId)
           ∧ r.(r_positions) = cloud.(PointCloud.positions)
           ∧ r.(r_colors) = cloud.(PointCloud.colors)
           ∧ (Tf.mkFramePose cloud.(PointCloud.frameId) r.(r_matrix)
                ∈ scene.(sceneFrames)
              ∨ ((cloud.(PointCloud.frameId)
                    ∉ map Tf.frameId scene.(sceneFrames))
                 ∧ r.(r_matrix) = Three.identity))
           ∧ (truthy cloud.(PointCloud.frameId) = false →
              r.(r_matrix) = Three.identity))
        (JsMap.values st.(pointCloudStore)) scene.(pointClouds).
Proof.
  destruct (rebuildScene_eq config st) as (pd & _ & -> & Hids & Hiff).
  eexists _, _. split; [done|]. cbn [pointClouds sceneFrames].
  assert (∀ f, Tf.pd_matrixMap pd !! f = None →
               f ∉ map Tf.frameId (Tf.pd_frames pd)) as Hnone.
  { intros f Hf ([g m] & Hg & Hin)%list_elem_of_fmap. cbn in Hg. subst g.
    apply Hiff in Hin. congruence. }
  induction (JsMap.values st.(pointCloudStore)) as [|cloud clouds IH];
    cbn [map]; constructor; [|done].
  unfold renderable at 1 2 3 4 5 6. cbn. split_and!; try done.
  - destruct (Tf.pd_matrixMap pd !! PointCloud.frameId cloud) as [m|] eqn:Hm;
      cbn [default].
    + left. by apply Hiff.
    + right. split; [by apply Hnone|done].
  - intros Hempty.
    destruct (Tf.pd_matrixMap pd !! PointCloud.frameId cloud) as [m|] eqn:Hm;
      [|done].
    exfalso. apply Hiff in Hm.
    assert (PointCloud.frameId cloud ∈ map Tf.frameId (Tf.pd_frames pd)) as Hin.
    { apply list_elem_of_fmap. by eexists (Tf.mkFramePose _ m). }
    rewrite Hids in Hin. apply list_elem_of_In, filter_In in Hin as [_ Ht].
    congruence.
Qed.

Lemma orFixedFrame_cases frameList fixedFrame :
  (frameList = [] ∧ orFixedFrame frameList fixedFrame = [fixedFrame])
  ∨ (frameList ≠ [] ∧ orFixedFrame frameList fixedFrame = frameList).
Proof. destruct frameList; [by left|by right]. Qed.

(** X16: the frames the panel offers are never none.  They are the
    sorted list of [listFrames], without repetition and without the
    empty name, and then contain the fixed frame, every frame the scene
    lists a pose for and the frame of every drawn cloud (unless its name
    is empty); only when that list is empty, which takes an empty fixed
    frame, the single offered name is that empty fixed frame. *)
Theorem rebuildScene_available_frames config st :
  ∃ scene available,
    rebuildScene config st = Some (scene, available)
    ∧ available ≠ []
    ∧ (truthy config.(fixedFrame) = true → config.(fixedFrame) ∈ available)
    ∧ (∀ pose, pose ∈ scene.(sceneFrames) → pose.(Tf.frameId) ∈ available)
    ∧ (∀ r, r ∈ scene.(pointClouds) → truthy r.(r_frameId) = true →
            r.(r_frameId) ∈ available)
    ∧ ((available = [config.(fixedFrame)]
        ∧ truthy config.(fixedFrame) = false
        ∧ scene.(sceneFrames) = [])
       ∨ (StronglySorted codeLt available
          ∧ Forall (λ f, truthy f = true) available)).
Proof.
  destruct (rebuildScene_eq config st) as (pd & _ & -> & Hids & _).
  eexists _, _. split; [done|]. cbn [pointClouds sceneFrames].
  set (clouds := map (renderable (Tf.pd_matrixMap pd))
                   (JsMap.values (pointCloudStore st))).
  set (extra := config.(fixedFrame) :: map r_frameId clouds).
  set (frameList := listFrames (tfStore st) (Some extra)).
  assert (∀ f, f ∈ frameList ↔
               truthy f = true
               ∧ (f ∈ JsMap.keys (tfStore st).(Tf.dynamicTransforms)
                  ∨ f ∈ JsMap.keys (tfStore st).(Tf.staticTransforms)
                  ∨ namedAsParent (tfStore st) f
                  ∨ f ∈ extra)) as Hmem.
  { intros f. apply elem_of_listFrames. }
  assert (truthy config.(fixedFrame) = true → config.(fixedFrame) ∈ frameList)
    as Hfixed.
  { intros Ht. apply Hmem. split; [done|]. do 3 right. apply list_elem_of_here. }
  assert (∀ pose, pose ∈ pd.(Tf.pd_frames) → pose.(Tf.frameId) ∈ frameList)
    as Hposes.
  { intros pose Hpose.
    assert (pose.(Tf.frameId) ∈ map Tf.frameId pd.(Tf.pd_frames)) as Hid.
    { apply list_elem_of_fmap. by exists pose. }
    rewrite Hids in Hid.
    apply list_elem_of_In, filter_In in Hid as [Hin%list_elem_of_In Ht].
    apply Hmem. split; [done|].
    apply elem_of_frameNames in Hin as [?|[?|[[_ ?]|Hf]]]; auto.
    apply fixedGiven_Some in Hf as [[= <-] _].
    do 3 right. apply list_elem_of_here. }
  assert (∀ r, r ∈ clouds → truthy r.(r_frameId) = true →
               r.(r_frameId) ∈ frameList) as Hclouds.
  { intros r Hr Ht. apply Hmem. split; [done|]. do 3 right.
    apply list_elem_of_further, list_elem_of_fmap. by exists r. }
  destruct (orFixedFrame_cases frameList config.(fixedFrame))
    as [[Hnil ->]|[Hne ->]].
  - rewrite Hnil in Hfixed, Hposes, Hclouds. split_and!.
    + done.
    + intros _. apply list_elem_of_here.
    + intros pose Hpose. by apply Hposes, elem_of_nil in Hpose.
    + intros r Hr Ht. by apply (Hclouds r Hr), elem_of_nil in Ht.
    + left. split_and!; [done| |].
      * destruct (truthy (fixedFrame config)); [|done].
        by apply elem_of_nil in Hfixed.
      * destruct (Tf.pd_frames pd) as [|pose poses]; [done|].
        exfalso. eapply elem_of_nil, (Hposes pose). apply list_elem_of_here.
  - split_and!; [done|done|done|done|]. right. split.
    + apply sort_sorted, NoDup_filter_truthy, NoDup_fold_addExtra.
      do 2 apply NoDup_fold_addEdge. constructor.
    + apply Forall_forall. intros f Hf. by apply Hmem in Hf as [Ht _].
Qed.

(** *** The ids of the drawn clouds *)

Lemma Forall_JsMap_set {V} (P : string * V → Prop) (m : JsMap.t V) k v :
  Forall P m → P (k, v) → Forall P (JsMap.set m k v).
Proof.
  intros Hm Hkv. induction Hm as [|[k' v'] m Hhd Hm IH]; cbn [JsMap.set].
  { by constructor. }
  case_decide; constructor; done.
Qed.

Lemma keyedById_set m topic parsed :
  keyedById m → parsed.(PointCloud.id) = topic →
  keyedById (JsMap.set m topic parsed).
Proof.
  intros [Hnd Hall] Hid. split.
  - rewrite JsMap_keys_set. case_decide as Hin; [done|].
    apply NoDup_app. split_and!; [done| |apply NoDup_singleton].
    intros x Hx ->%list_elem_of_singleton. done.
  - by apply Forall_JsMap_set.
Qed.

Lemma parseMessage_id topic message parsed :
  parseMessage topic message = Ok (Some parsed) →
  parsed.(PointCloud.id) = topic.
Proof.
  destruct message as [m|m]; cbn [parseMessage]; [|done].
  intros Hp. by destruct (PointCloudFacts.parse_accepted _ _ _ Hp) as (_ & ? & _).
Qed.

Lemma updateMessage_reachable store message isStatic :
  reachable store → reachable (updateMessage store message isStatic).1.
Proof. intros Hr. destruct message; by apply reachable_update. Qed.

Lemma handleEvent_invariant config st event st' :
  handleEvent config st event = Ok st' →
  reachable st.(l_tfStore) ∧ keyedById st.(l_pointCloudStore) →
  reachable st'.(l_tfStore) ∧ keyedById st'.(l_pointCloudStore).
Proof.
  unfold handleEvent. destruct event as [event|]; [|by intros [= <-]].
  destruct (bool_decide _ && isPointCloudSchema _).
  { destruct (parseMessage _ _) as [[parsed|]|e] eqn:Hp;
      [|by intros [= <-]|done].
    intros [= <-] [Hr Hk]. cbn. split; [done|].
    apply keyedById_set; [done|]. by eapply parseMessage_id. }
  destruct (String.eqb _ _).
  { intros [= <-] [Hr Hk]. cbn. split; [|done].
    by apply updateMessage_reachable. }
  destruct (isStaticTopic _ _); [|by intros [= <-]].
  intros [= <-] [Hr Hk]. cbn. split; [|done].
  by apply updateMessage_reachable.
Qed.

Lemma handleEvents_invariant config events :
  ∀ st,
    reachable st.(l_tfStore) ∧ keyedById st.(l_pointCloudStore) →
    reachable (handleEvents config events st).1.(l_tfStore)
    ∧ keyedById (handleEvents config events st).1.(l_pointCloudStore).
Proof.
  induction events as [|event events IH]; intros st Hst; cbn [handleEvents];
    [done|].
  destruct (handleEvent config st event) as [st1|e] eqn:He; [|done].
  apply IH. by eapply handleEvent_invariant.
Qed.

Lemma panelReachable_invariant st :
  panelReachable st →
  reachable st.(tfStore) ∧ keyedById st.(pointCloudStore).
Proof.
  induction 1 as [|config st currentFrame _ IH|didSeek st _ [Hr Hk]].
  - split; [constructor|]. split; constructor.
  - rewrite onCurrentFrame_loop. cbn zeta.
    pose proof (handleEvents_invariant config (default [] currentFrame)
                  (mkLoop st.(tfStore) st.(pointCloudStore) false false) IH)
      as Hinv.
    by destruct (handleEvents _ _ _) as [loop [e|]].
  - destruct didSeek; [|done]. cbn. split; [by constructor|].
    split; constructor.
Qed.

(** X21: in every state the panel can reach, the transform store is in a
    state of its own methods and every cached cloud is stored once, under
    the topic that is its id; so the clouds of the scene carry, in the
    order of the cache, the topics of the cache as ids, and no two drawn
    clouds share an id. *)
Theorem scene_cloud_ids_distinct config st :
  panelReachable st →
  reachable st.(tfStore)
  ∧ keyedById st.(pointCloudStore)
  ∧ ∃ scene available,
      rebuildScene config st = Some (scene, available)
      ∧ map r_id scene.(pointClouds) = JsMap.keys st.(pointCloudStore)
      ∧ NoDup (map r_id scene.(pointClouds)).
Proof.
  intros [Hr [Hnd Hall]]%panelReachable_invariant.
  split_and!; [done|by split|].
  destruct (rebuildScene_eq config st) as (pd & _ & -> & _).
  eexists _, _. split; [done|]. cbn [pointClouds].
  assert (map r_id (map (renderable (Tf.pd_matrixMap pd))
                      (JsMap.values (pointCloudStore st)))
          = JsMap.keys (pointCloudStore st)) as ->; [|done].
  unfold JsMap.values, JsMap.keys. rewrite !map_map. cbn [renderable r_id].
  clear Hnd. induction Hall as [|[k v] m Hkv _ IH]; [done|].
  cbn [map fst snd] in *. by rewrite Hkv, IH.
Qed.

Lemma scene_cloud_ids_distinct_witness :
  let st :=
    (onCurrentFrame cloudConfig newPanel
       (Some [Some (cloudEvent PointCloud.coloredRecord); Some tfEvent])).1 in
  reachable st.(tfStore)
  ∧ keyedById st.(pointCloudStore)
  ∧ ∃ scene available,
      rebuildScene cloudConfig st = Some (scene, available)
      ∧ map r_id scene.(pointClouds) = JsMap.keys st.(pointCloudStore)
      ∧ NoDup (map r_id scene.(pointClouds)).
Proof.
  apply (scene_cloud_ids_distinct cloudConfig).
  apply (panelReachable_frame cloudConfig newPanel).
  apply panelReachable_new.
Defined.

(** *** Topic lists *)

Lemma elem_of_unique values x :
  x ∈ unique values ↔ truthy x = true ∧ Some x ∈ values.
Proof.
  unfold unique. rewrite TfFacts.elem_of_fold_add, elem_of_nil, list_elem_of_omap.
  split.
  - intros [[]|([s|] & Hin & Hs)]; [|done].
    destruct (truthy s) eqn:Ht; [|done]. by injection Hs as <-.
  - intros [Ht Hin]. right. exists (Some x). by rewrite Ht.
Qed.

Lemma filter_filter {A} (p q : A → bool) (l : list A) :
  List.filter p (List.filter q l) = List.filter (λ y, q y && p y) l.
Proof.
  induction l as [|x l IH]; [done|]. cbn [List.filter].
  destruct (q x); cbn [List.filter andb]; [|done]. by rewrite IH.
Qed.

(** A [Set] filled from a list holds, after what it held before, the
    elements it did not hold, each at its first occurrence. *)
Lemma fold_add_firstOccurrences (l : list string) :
  ∀ acc,
    fold_left JsSet.add l acc
    = acc ++ List.filter (λ y, bool_decide (y ∉ acc)) (firstOccurrences l).
Proof.
  induction l as [|x l IH]; intros acc; cbn [fold_left firstOccurrences].
  { by rewrite app_nil_r. }
  rewrite IH. unfold JsSet.add. cbn [List.filter]. case_decide as Hx.
  - rewrite bool_decide_eq_false_2 by (by intros []).
    rewrite filter_filter. f_equal. apply filter_ext. intros y.
    destruct (String.eqb_spec y x) as [->|Hne]; cbn [negb andb]; [|done].
    by rewrite bool_decide_eq_false_2 by (by intros []).
  - rewrite bool_decide_eq_true_2 by done.
    rewrite <- app_assoc. cbn [app]. do 2 f_equal.
    rewrite filter_filter. apply filter_ext. intros y.
    destruct (String.eqb_spec y x) as [->|Hne]; cbn [negb andb].
    + apply bool_decide_eq_false_2. intros Hn. apply Hn.
      apply elem_of_app. right. apply list_elem_of_here.
    + apply bool_decide_ext. rewrite elem_of_app, list_elem_of_singleton.
      tauto.
Qed.

Lemma fold_add_nil (l : list string) :
  fold_left JsSet.add l [] = firstOccurrences l.
Proof.
  rewrite fold_add_firstOccurrences. cbn [app].
  induction (firstOccurrences l) as [|y k IH]; [done|].
  cbn [List.filter]. rewrite bool_decide_eq_true_2 by apply not_elem_of_nil.
  by rewrite IH.
Qed.

(** X17: [unique] keeps the names that are present and not empty, each
    once and in the order of their first occurrences; applied to its own
    result it changes nothing. *)
Theorem unique_names values :
  NoDup (unique values)
  ∧ (∀ x, x ∈ unique values ↔ truthy x = true ∧ Some x ∈ values)
  ∧ unique values = firstOccurrences (present values)
  ∧ (∀ x before after,
       present values = before ++ x :: after → x ∉ before →
       ∃ kept later,
         unique values = kept ++ x :: later
         ∧ kept = firstOccurrences before)
  ∧ unique (Some <$> unique values) = unique values.
Proof.
  assert (unique values = firstOccurrences (present values)) as Hfirst.
  { unfold unique. fold (present values). apply fold_add_nil. }
  assert (NoDup (unique values)) as Hnd by (apply NoDup_fold_add; constructor).
  split_and!; [done|apply elem_of_unique|done| |].
  { intros x before after Hsplit Hx. unfold unique. fold (present values).
    assert (x ∉ firstOccurrences before) as Hfresh.
    { intros Hin. apply Hx. clear -Hin.
      induction before as [|b before IH]; [done|].
      cbn [firstOccurrences] in Hin.
      apply elem_of_cons in Hin as [->|Hin]; [apply list_elem_of_here|].
      apply list_elem_of_further, IH.
      apply list_elem_of_In, filter_In in Hin as [Hin _].
      by apply list_elem_of_In. }
    assert (∃ later, fold_left JsSet.add (present values) []
                     = firstOccurrences before ++ x :: later) as [later Hl].
    { rewrite Hsplit, fold_left_app. cbn [fold_left].
      rewrite (fold_add_nil before).
      unfold JsSet.add at 2. rewrite decide_False by done.
      rewrite fold_add_firstOccurrences, <- app_assoc. cbn [app].
      by eexists. }
    by exists (firstOccurrences before), later. }
  assert (Forall (λ x, truthy x = true) (unique values)) as Hall.
  { apply Forall_forall. intros x Hx. by apply elem_of_unique in Hx as [Ht _]. }
  revert Hnd Hall. generalize (unique values). intros l Hnd Hall.
  unfold unique.
  assert (omap (λ value : option string,
                  match value with
                  | Some s => if truthy s then Some s else None
                  | None => None
                  end) (Some <$> l) = l) as ->.
  { induction Hall as [|x l Hx _ IH]; [done|]. cbn. rewrite Hx. f_equal.
    apply IH. by apply NoDup_cons in Hnd as [_ ?]. }
  assert (∀ acc, NoDup (acc ++ l) → fold_left JsSet.add l acc = acc ++ l) as Hfold.
  { clear. induction l as [|x l IH]; intros acc Hnd; cbn [fold_left].
    { by rewrite app_nil_r. }
    unfold JsSet.add at 2. rewrite decide_False.
    - rewrite IH; rewrite <- app_assoc; done.
    - intros Hin. apply NoDup_app in Hnd as (_ & Hdisj & _).
      apply (Hdisj x Hin), list_elem_of_here. }
  by apply (Hfold []).
Qed.

Lemma isStaticTopic_true config t :
  isStaticTopic config t = true ↔ config.(tfStaticTopic) = Some t.
Proof.
  unfold isStaticTopic. destruct (tfStaticTopic config) as [s|]; [|done].
  rewrite String.eqb_eq. split; [by intros ->|by intros [= ->]].
Qed.

(** X18: the panel subscribes to exactly the non-empty topics among the
    configured point cloud topics, the transform topic and the static
    transform topic, so every event the loop acts on comes from a
    subscribed topic, unless its topic is the empty string. *)
Theorem subscriptions_cover_handled_events config :
  (∀ t, t ∈ subscriptions config
        ↔ truthy t = true
          ∧ (t ∈ config.(pointCloudTopics) ∨ t = config.(tfTopic)
             ∨ config.(tfStaticTopic) = Some t))
  ∧ (∀ event, handled config event = true → truthy event.(topic) = true →
              event.(topic) ∈ subscriptions config)
  ∧ (∀ st event, handled config event = false →
                 handleEvent config st (Some event) = Ok st).
Proof.
  assert (∀ t, t ∈ subscriptions config
               ↔ truthy t = true
                 ∧ (t ∈ config.(pointCloudTopics) ∨ t = config.(tfTopic)
                    ∨ config.(tfStaticTopic) = Some t)) as Hmem.
  { intros t. unfold subscriptions. rewrite !elem_of_app.
    rewrite (list_elem_of_In (List.filter _ _) t), filter_In, <- list_elem_of_In.
    split.
    - intros [[Hin Ht]|[Hin|Hin]].
      + auto.
      + destruct (truthy (tfTopic config)) eqn:Ht;
          [|by apply elem_of_nil in Hin].
        apply list_elem_of_singleton in Hin as ->. auto.
      + destruct (tfStaticTopic config) as [s|]; [|by apply elem_of_nil in Hin].
        destruct (truthy s) eqn:Ht; [|by apply elem_of_nil in Hin].
        destruct (negb _); [|by apply elem_of_nil in Hin].
        apply list_elem_of_singleton in Hin as ->. auto.
    - intros [Ht [Hin| [->|Hs]]]; [by left| |].
      + right; left. rewrite Ht. apply list_elem_of_here.
      + rewrite Hs, Ht. cbn [andb].
        destruct (String.eqb_spec t (tfTopic config)) as [->|Hne]; cbn [negb].
        * right; left. rewrite Ht. apply list_elem_of_here.
        * right; right. apply list_elem_of_here. }
  split_and!; [done| |].
  - intros event Hh Ht. apply Hmem. split; [done|].
    unfold handled in Hh. rewrite !orb_true_iff, andb_true_iff in Hh.
    destruct Hh as [[[Hin%bool_decide_eq_true _]|Heq%String.eqb_eq]|Hs];
      [auto|auto|].
    apply isStaticTopic_true in Hs. auto.
  - intros st event. unfold handled, handleEvent.
    rewrite !orb_false_iff. by intros [[-> ->] ->].
Qed.

End PanelProperties.

(** ** The 3D view: the height of the interaction plane *)

Module SceneProperties.
Import Scene NumberFacts.

(** X19: [setInteractionPlaneHeight] keeps the height of the pose within
    [HEIGHT_MIN, HEIGHT_MAX] = [-10, 60]: a height inside the range is
    taken as it is, a height above 60 is replaced by 60 and a height below
    -10 by -10, and the plane constant is the negated height.  Every
    height is of one of these kinds or not a number, and only a height
    that is not a number gets through, as not a number. *)
Theorem setInteractionPlaneHeight_clamps height :
  let st := setInteractionPlaneHeight height in
  st.(planeConstant) = (- st.(poseHeight))%float
  ∧ ((PrimFloat.is_nan height = true ∧ st.(poseHeight) = PrimFloat.nan)
     ∨ (PrimFloat.is_nan height = false
        ∧ within HEIGHT_MIN HEIGHT_MAX st.(poseHeight) = true
        ∧ (st.(poseHeight) = height ∨ st.(poseHeight) = HEIGHT_MIN
           ∨ st.(poseHeight) = HEIGHT_MAX)))
  ∧ (within HEIGHT_MIN HEIGHT_MAX height = true → st.(poseHeight) = height)
  ∧ (PrimFloat.ltb HEIGHT_MAX height = true → st.(poseHeight) = HEIGHT_MAX)
  ∧ (PrimFloat.ltb height HEIGHT_MIN = true → st.(poseHeight) = HEIGHT_MIN)
  ∧ (PrimFloat.is_nan height = true
     ∨ PrimFloat.ltb height HEIGHT_MIN = true
     ∨ within HEIGHT_MIN HEIGHT_MAX height = true
     ∨ PrimFloat.ltb HEIGHT_MAX height = true).
Proof.
  cbn zeta. unfold setInteractionPlaneHeight. cbn [poseHeight planeConstant].
  split_and!; [done| | | | |].
  - by apply clamp_within.
  - by apply clamp_inside.
  - by apply clamp_above.
  - by eapply clamp_below.
  - destruct (PrimFloat.is_nan height) eqn:Hn; [by left|]. right.
    destruct (PrimFloat.ltb height HEIGHT_MIN) eqn:Hlo; [by left|]. right.
    destruct (PrimFloat.ltb HEIGHT_MAX height) eqn:Hhi; [by right|]. left.
    unfold within. by rewrite !not_ltb_leb.
Qed.

End SceneProperties.

(** ** Integers as numbers *)

Module IntegerFacts.
Import NumberFacts.

#[local] Open Scope Z_scope.









End IntegerFacts.

(** ** The point-record decoder: integer coordinates *)

Module PointCloudIntegers.
Import PointCloud PointCloudFacts PointCloudProperties Clouds IntegerFacts.

#[local] Open Scope Z_scope.









End PointCloudIntegers.
